(** * v8pp/class.hpp: class registration, casting and object wrapping

    A shallow embedding of [v8pp::detail::class_info],
    [v8pp::detail::class_singleton<T>] and the part of the V8 object model
    they are built on, followed by the properties of the cast table, the
    object registry, the proxy objects and the per-isolate singleton list. *)

From stdpp Require Import gmap strings list fin_maps fin_sets relations.

Set Warnings "-clear-no-such-hyp".
Open Scope N_scope.

(** ** Outcomes of a call

    A call returns normally, lets a [std::runtime_error] escape, or stops
    the process in a failed [assert]. *)

Inductive result (A : Type) : Type :=
  | Ok (a : A)
  | Throw (what : string)
  | Abort (msg : string).

Arguments Ok {A} a.
Arguments Throw {A} what.
Arguments Abort {A} msg.

(** [assert(cond && msg)]: compiled out under NDEBUG, otherwise a false
    condition aborts. *)
Definition assert_ (ndebug : bool) (cond : bool) (msg : string) : result unit :=
  if ndebug then Ok tt else if cond then Ok tt else Abort msg.

(** ** class_info *)

Module ClassInfo.

(** [using type_index = unsigned;] *)
Abbreviation type_index := (N).
Definition UINT_MAX_plus_1 : N := 2 ^ 32.

(** A [void*], and a [class_info*]: addresses, [nullptr] is 0. *)
Abbreviation pointer := (N).
Definition nullptr : pointer := 0.

(** [cast_function]: a pointer to a function from [void*] to [void*]. *)
Abbreviation cast_function := (pointer → pointer).

(** A [v8::Object] is named by its identity; a [v8::Local<v8::Object>]
    or a [persistent<v8::Object>] refers to one object or is empty. *)
Abbreviation object_id := (nat).
Abbreviation handle := (option object_id).

Record base_class_info : Type := BaseClassInfo {
  info : pointer;
  cast_fn : cast_function
}.

Record class_info : Type := ClassInfo {
  type_ : type_index;
  bases_ : list base_class_info;
  derivatives_ : list pointer;
  objects_ : gmap pointer handle
}.

(** [class_info(type_index type)] *)
Definition new_class_info (type : type_index) : class_info :=
  {| type_ := type; bases_ := []; derivatives_ := []; objects_ := ∅ |}.

Definition set_bases (ci : class_info) (bs : list base_class_info) : class_info :=
  {| type_ := type_ ci; bases_ := bs;
     derivatives_ := derivatives_ ci; objects_ := objects_ ci |}.

Definition set_derivatives (ci : class_info) (ds : list pointer) : class_info :=
  {| type_ := type_ ci; bases_ := bases_ ci;
     derivatives_ := ds; objects_ := objects_ ci |}.

Definition set_objects (ci : class_info) (os : gmap pointer handle) : class_info :=
  {| type_ := type_ ci; bases_ := bases_ ci;
     derivatives_ := derivatives_ ci; objects_ := os |}.

(** The live [class_info] objects, by address.  The objects refer to each
    other by address ([bases_], [derivatives_]), so they are kept in one
    store. *)
Abbreviation heap := (gmap pointer class_info).

(** [std::find_if(bases_.begin(), bases_.end(), ... base.info == info)
    != bases_.end()] *)
Definition has_base (bs : list base_class_info) (target : pointer) : bool :=
  existsb (λ base, N.eqb (info base) target) bs.

(** [void add_base(class_info* info, cast_function cast)], called on the
    object at [this].  The second component is the store when the call
    ends, however it ends.  [None]: [this] or [info] is not a live
    object. *)
Definition add_base (ndebug : bool) (this target : pointer) (cast : cast_function)
    (h : heap) : option (result unit * heap) :=
  ci ← h !! this;
  if has_base (bases_ ci) target then
    match assert_ ndebug false "duplicated inheritance" with
    | Ok _ => Some (Throw "duplicated base class", h)
    | Throw w => Some (Throw w, h)
    | Abort m => Some (Abort m, h)
    end
  else
    let h1 := <[this := set_bases ci (bases_ ci ++ [BaseClassInfo target cast])]> h in
    ti ← h1 !! target;
    Some (Ok tt, <[target := set_derivatives ti (derivatives_ ti ++ [this])]> h1).

(** The first loop of [cast]: the direct parents, in order. *)
Fixpoint cast_direct (h : heap) (bs : list base_class_info) (ptr : pointer)
    (type : type_index) : option (option pointer) :=
  match bs with
  | [] => Some None
  | base :: bs' =>
      bi ← h !! info base;
      if decide (type_ bi = type) then Some (Some (cast_fn base ptr))
      else cast_direct h bs' ptr type
  end.

(** The second loop of [cast]; [rec q p] is [q->cast(p, type)]. *)
Fixpoint cast_walk (rec : pointer → pointer → option (bool * pointer))
    (bs : list base_class_info) (ptr : pointer) : option (bool * pointer) :=
  match bs with
  | [] => Some (false, ptr)
  | base :: bs' =>
      let p := cast_fn base ptr in
      r ← rec (info base) p;
      match r with
      | (true, p') => Some (true, p')
      | (false, _) => cast_walk rec bs' ptr
      end
  end.

(** [bool cast(void*& ptr, type_index type) const], called on the object at
    [this].  The result is the returned flag and the value of the in/out
    argument [ptr] at return.  [None]: the recursion is deeper than [fuel],
    or a pointer that is not live was followed. *)
Fixpoint cast (fuel : nat) (h : heap) (this : pointer) (ptr : pointer)
    (type : type_index) : option (bool * pointer) :=
  match fuel with
  | O => None
  | S fuel' =>
      ci ← h !! this;
      if decide (type = type_ ci) then Some (true, ptr)
      else
        d ← cast_direct h (bases_ ci) ptr type;
        match d with
        | Some p => Some (true, p)
        | None => cast_walk (λ q p, cast fuel' h q p type) (bases_ ci) ptr
        end
  end.

(** [add_object(isolate, object, handle)]: [emplace] leaves an entry that
    is already there as it is. *)
Definition add_object (ndebug : bool) (this object : pointer) (hdl : handle)
    (h : heap) : option (result unit * heap) :=
  ci ← h !! this;
  match assert_ ndebug (bool_decide (objects_ ci !! object = None)) "duplicate object" with
  | Ok _ =>
      match objects_ ci !! object with
      | Some _ => Some (Ok tt, h)
      | None => Some (Ok tt, <[this := set_objects ci (<[object := hdl]> (objects_ ci))]> h)
      end
  | Throw w => Some (Throw w, h)
  | Abort m => Some (Abort m, h)
  end.

(** [remove_object(isolate, object, destroy)].  [destroy] is a nullable
    function pointer; it acts on the native side, whose state is [s]. *)
Definition remove_object {S : Type} (ndebug : bool) (this object : pointer)
    (destroy : option (pointer → S → S)) (h : heap) (s : S)
    : option (result unit * heap * S) :=
  ci ← h !! this;
  match assert_ ndebug (bool_decide (objects_ ci !! object ≠ None)) "no object" with
  | Ok _ =>
      match objects_ ci !! object with
      | Some _ =>
          let s' := match destroy with Some d => d object s | None => s end in
          Some (Ok tt, <[this := set_objects ci (delete object (objects_ ci))]> h, s')
      | None => Some (Ok tt, h, s)
      end
  | Throw w => Some (Throw w, h, s)
  | Abort m => Some (Abort m, h, s)
  end.

(** [remove_objects(isolate, destroy)]: the entries are visited in the
    order of the container. *)
Definition remove_objects {S : Type} (this : pointer)
    (destroy : option (pointer → S → S)) (h : heap) (s : S) : option (heap * S) :=
  ci ← h !! this;
  let s' := match destroy with
            | Some d => foldl (λ acc kv, d kv.1 acc) s (map_to_list (objects_ ci))
            | None => s
            end in
  Some (<[this := set_objects ci ∅]> h, s').

(** The loop of [find_object] over [derivatives_]; [rec q] is
    [q->find_object(isolate, object)]. *)
Fixpoint find_in_derivatives (rec : pointer → option handle) (ds : list pointer)
    : option handle :=
  match ds with
  | [] => Some None
  | d :: ds' =>
      r ← rec d;
      match r with
      | Some o => Some (Some o)
      | None => find_in_derivatives rec ds'
      end
  end.

(** [v8::Local<v8::Object> find_object(isolate, object) const].  [None]: the
    recursion is deeper than [fuel], or a pointer that is not live was
    followed. *)
Fixpoint find_object (fuel : nat) (h : heap) (this object : pointer)
    : option handle :=
  match fuel with
  | O => None
  | S fuel' =>
      ci ← h !! this;
      match objects_ ci !! object with
      | Some hdl => Some hdl
      | None => find_in_derivatives (λ q, find_object fuel' h q object) (derivatives_ ci)
      end
  end.

(** [static type_index register_class()]: [return next_index++;] on an
    [unsigned]. *)
Definition register_class (next_index : type_index) : type_index * type_index :=
  (next_index, (next_index + 1) mod UINT_MAX_plus_1).

End ClassInfo.

(** ** The V8 object model used by class_singleton *)

Module V8.
Import ClassInfo.

(** A [v8::Value] is an object or something else (undefined, null, a
    number, a string). *)
Inductive value : Type :=
  | Primitive
  | Object (o : object_id).

(** An object has its internal fields, [InternalFieldCount()] of them,
    and a prototype ([GetPrototype()], null at the end of the chain). *)
Record object : Type := MkObject {
  internal_fields : list pointer;
  prototype : value
}.

Abbreviation objects := (gmap object_id object).

(** What a [v8::FunctionTemplate] decides of its instances. *)
Record function_template : Type := FunctionTemplate {
  internal_field_count : nat;
  instance_prototype : value
}.

Definition IsObject (v : value) : bool :=
  match v with Object _ => true | Primitive => false end.

Definition InternalFieldCount (obj : object) : nat := length (internal_fields obj).

(** [GetAlignedPointerFromInternalField(index)]; out of range is a fatal
    error of the engine ([None]). *)
Definition GetAlignedPointerFromInternalField (obj : object) (index : nat)
    : option pointer :=
  internal_fields obj !! index.

(** [SetAlignedPointerInInternalField(index, value)]; out of range is a
    fatal error of the engine ([None]). *)
Definition SetAlignedPointerInInternalField (o : object_id) (index : nat)
    (p : pointer) (js : objects) : option objects :=
  obj ← js !! o;
  if decide (index < length (internal_fields obj))%nat then
    Some (<[o := MkObject (<[index := p]> (internal_fields obj)) (prototype obj)]> js)
  else None.

(** [tmpl->GetFunction()->NewInstance()]: a new object with the internal
    fields of the instance template, all null. *)
Definition NewInstance (tmpl : function_template) (js : objects)
    : object_id * objects :=
  let o := fresh (dom js) in
  (o, <[o := MkObject (replicate (internal_field_count tmpl) nullptr)
                      (instance_prototype tmpl)]> js).

(** [ReturnValue::Set] of a handle: an empty handle gives undefined. *)
Definition to_value (hdl : handle) : value :=
  match hdl with Some o => Object o | None => Primitive end.

End V8.

(** ** class_singleton<T> *)

Module ClassSingleton.
Import ClassInfo V8.

(** A [v8::Isolate*], and a C++ type [T] (a template argument) by its
    name. *)
Abbreviation isolate := (pointer).
Abbreviation type_name := (string).

(** [std::function<T* (v8::FunctionCallbackInfo<v8::Value> const& args)>]:
    it returns the new native object or lets a [std::exception] escape. *)
Abbreviation ctor_function := (list value → result pointer).

(** The state the functions of [class_singleton] act on: the two function
    statics, the data slot of every isolate ([V8PP_ISOLATE_DATA_SLOT],
    absent while it is null), the live singletons (the [class_info] part
    and the members added by [class_singleton], by address), the objects
    of the engine and the weak callbacks set on them. *)
Record world : Type := World {
  next_index : type_index;
  my_type : gmap type_name type_index;
  isolate_data : gmap isolate (list pointer);
  infos : gmap pointer class_info;
  ctor_ : gmap pointer ctor_function;
  func_ : gmap pointer function_template;
  js_func_ : gmap pointer function_template;
  js : gmap object_id object;
  weak : list (object_id * pointer)
}.

Definition initial_world : world :=
  {| next_index := 0; my_type := ∅; isolate_data := ∅; infos := ∅;
     ctor_ := ∅; func_ := ∅; js_func_ := ∅; js := ∅; weak := [] |}.

Definition set_statics (w : world) (n : type_index) (m : gmap type_name type_index) : world :=
  {| next_index := n; my_type := m; isolate_data := isolate_data w;
     infos := infos w; ctor_ := ctor_ w; func_ := func_ w;
     js_func_ := js_func_ w; js := js w; weak := weak w |}.

Definition set_isolate_data (w : world) (d : gmap isolate (list pointer)) : world :=
  {| next_index := next_index w; my_type := my_type w; isolate_data := d;
     infos := infos w; ctor_ := ctor_ w; func_ := func_ w;
     js_func_ := js_func_ w; js := js w; weak := weak w |}.

Definition set_infos (w : world) (h : gmap pointer class_info) : world :=
  {| next_index := next_index w; my_type := my_type w;
     isolate_data := isolate_data w; infos := h; ctor_ := ctor_ w;
     func_ := func_ w; js_func_ := js_func_ w; js := js w; weak := weak w |}.

Definition set_ctor (w : world) (c : gmap pointer ctor_function) : world :=
  {| next_index := next_index w; my_type := my_type w;
     isolate_data := isolate_data w; infos := infos w; ctor_ := c;
     func_ := func_ w; js_func_ := js_func_ w; js := js w; weak := weak w |}.

Definition set_templates (w : world) (f jf : gmap pointer function_template) : world :=
  {| next_index := next_index w; my_type := my_type w;
     isolate_data := isolate_data w; infos := infos w; ctor_ := ctor_ w;
     func_ := f; js_func_ := jf; js := js w; weak := weak w |}.

Definition set_js (w : world) (o : gmap object_id object) : world :=
  {| next_index := next_index w; my_type := my_type w;
     isolate_data := isolate_data w; infos := infos w; ctor_ := ctor_ w;
     func_ := func_ w; js_func_ := js_func_ w; js := o; weak := weak w |}.

Definition set_weak (w : world) (k : list (object_id * pointer)) : world :=
  {| next_index := next_index w; my_type := my_type w;
     isolate_data := isolate_data w; infos := infos w; ctor_ := ctor_ w;
     func_ := func_ w; js_func_ := js_func_ w; js := js w; weak := k |}.

(** [v8::FunctionTemplate::New(isolate)]: a template whose instances have
    no internal field and a prototype object of their own. *)
Definition FunctionTemplate_New (w : world) : function_template * world :=
  let o := fresh (dom (js w)) in
  (FunctionTemplate 0 (Object o), set_js w (<[o := MkObject [] Primitive]> (js w))).

(** [static type_index class_type()] of [class_singleton<T>]: the static
    [my_type] is set by [register_class()] in the first call. *)
Definition class_type (T : type_name) (w : world) : type_index * world :=
  match my_type w !! T with
  | Some t => (t, w)
  | None =>
      let '(t, n) := register_class (next_index w) in
      (t, set_statics w n (<[T := t]> (my_type w)))
  end.

(** [new class_singleton(isolate, type)]: the object is put at an address
    that is not in use, with [ctor_(nullptr)] and the two templates;
    [func->InstanceTemplate()->SetInternalFieldCount(2)]. *)
Definition new_class_singleton (type : type_index) (w : world) : pointer * world :=
  let this := fresh ({[nullptr]} ∪ dom (infos w)) in
  let w1 := set_infos w (<[this := new_class_info type]> (infos w)) in
  let w2 := set_ctor w1 (delete this (ctor_ w1)) in
  let '(func, w3) := FunctionTemplate_New w2 in
  let '(js_func, w4) := FunctionTemplate_New w3 in
  let func' := FunctionTemplate 2 (instance_prototype func) in
  (this, set_templates w4 (<[this := func']> (func_ w4)) (<[this := js_func]> (js_func_ w4))).

(** [static class_singleton& instance(v8::Isolate* isolate)] of
    [class_singleton<T>].  [None]: an element of the vector was read out
    of range. *)
Definition instance (iso : isolate) (T : type_name) (w : world)
    : option (pointer * world) :=
  let '(singletons, w1) :=
    match isolate_data w !! iso with
    | Some l => (l, w)
    | None => ([], set_isolate_data w (<[iso := []]> (isolate_data w)))
    end in
  let '(my_type, w2) := class_type T w1 in
  if decide (my_type < N.of_nat (length singletons)) then
    result ← singletons !! N.to_nat my_type;
    Some (result, w2)
  else
    let '(result, w3) := new_class_singleton my_type w2 in
    Some (result, set_isolate_data w3 (<[iso := singletons ++ [result]]> (isolate_data w3))).

(** [template<typename ...Args> void ctor()]: sets the trampoline (the
    inheritance between the two templates is not part of the model). *)
Definition ctor (this : pointer) (trampoline : ctor_function) (w : world) : world :=
  set_ctor w (<[this := trampoline]> (ctor_ w)).

(** Lifts an operation of [class_info] to the world. *)
Definition on_infos {A : Type} (f : gmap pointer class_info → option (A * gmap pointer class_info))
    (w : world) : option (A * world) :=
  '(a, h) ← f (infos w);
  Some (a, set_infos w h).

(** [v8::Handle<v8::Object> wrap_external_object(T* wrap)].  [None]:
    [this] is not a live singleton, or the engine stopped in a fatal
    error. *)
Definition wrap_external_object (ndebug : bool) (this wrap : pointer) (w : world)
    : option (result handle * world) :=
  tmpl ← func_ w !! this;
  let '(obj, js1) := NewInstance tmpl (js w) in
  js2 ← SetAlignedPointerInInternalField obj 0 wrap js1;
  js3 ← SetAlignedPointerInInternalField obj 1 this js2;
  let w1 := set_js w js3 in
  '(r, w2) ← on_infos (add_object ndebug this wrap (Some obj)) w1;
  match r with
  | Ok _ => Some (Ok (Some obj), w2)
  | Throw e => Some (Throw e, w2)
  | Abort m => Some (Abort m, w2)
  end.

(** [v8::Handle<v8::Object> wrap_object(T* wrap)]: as above, and a weak
    callback with parameter [wrap] is set on the object. *)
Definition wrap_object (ndebug : bool) (this wrap : pointer) (w : world)
    : option (result handle * world) :=
  '(r, w1) ← wrap_external_object ndebug this wrap w;
  match r with
  | Ok (Some obj) => Some (Ok (Some obj), set_weak w1 (weak w1 ++ [(obj, wrap)]))
  | _ => Some (r, w1)
  end.

(** [v8::Handle<v8::Object> wrap_object(v8::FunctionCallbackInfo<v8::Value>
    const& args)] *)
Definition wrap_object_args (ndebug : bool) (this : pointer) (args : list value)
    (w : world) : option (result handle * world) :=
  match ctor_ w !! this with
  | Some c =>
      match c args with
      | Ok p => wrap_object ndebug this p w
      | Throw e => Some (Throw e, w)
      | Abort m => Some (Abort m, w)
      end
  | None => Some (Throw "create is not allowed", w)
  end.

(** The callback of the template [js_func] made in the constructor of
    [class_singleton<T>]: called by the engine when a script constructs
    an instance.  [throw_ex] is [v8pp::throw_ex] (v8pp/throw_ex.hpp): it
    hands the message to the engine as a script exception and returns the
    value the engine gives back.  The result is the value put in
    [args.GetReturnValue()], or what leaves the callback instead. *)
Definition js_func_callback (throw_ex : isolate → string → world → value * world)
    (ndebug : bool) (T : type_name) (iso : isolate) (args : list value) (w : world)
    : option (result value * world) :=
  '(this, w1) ← instance iso T w;
  '(r, w2) ← wrap_object_args ndebug this args w1;
  match r with
  | Ok hdl => Some (Ok (to_value hdl), w2)
  | Throw what =>
      let '(v, w3) := throw_ex iso what w2 in
      Some (Ok v, w3)
  | Abort m => Some (Abort m, w2)
  end.

(** A read of an internal field: the object and the index. *)
Abbreviation field_read := ((object_id * nat)%type).

(** [T* unwrap_object(v8::Local<v8::Value> value)] of [class_singleton<T>];
    [class_type] is the value of [class_type()].  The first component lists
    the calls of [GetAlignedPointerFromInternalField] made, in order, also
    when the call does not return.  [None]: the prototype chain is longer
    than [fuel], a [cast] gave no result within [cast_fuel], a handle or a
    pointer that is not live was followed, or the engine stopped in a
    fatal error. *)
Fixpoint unwrap_object (fuel cast_fuel : nat) (w : world) (class_type : type_index)
    (v : value) : list field_read * option pointer :=
  match v with
  | Primitive => ([], Some nullptr)
  | Object o =>
      match fuel with
      | O => ([], None)
      | S fuel' =>
          match js w !! o with
          | None => ([], None)
          | Some obj =>
              if decide (InternalFieldCount obj = 2%nat) then
                match GetAlignedPointerFromInternalField obj 0 with
                | None => ([(o, 0%nat)], None)
                | Some ptr =>
                    match GetAlignedPointerFromInternalField obj 1 with
                    | None => ([(o, 0%nat); (o, 1%nat)], None)
                    | Some info =>
                        let continue :=
                          let '(t, r) := unwrap_object fuel' cast_fuel w class_type (prototype obj) in
                          ([(o, 0%nat); (o, 1%nat)] ++ t, r) in
                        if decide (info = nullptr) then continue
                        else
                          match cast cast_fuel (infos w) info ptr class_type with
                          | None => ([(o, 0%nat); (o, 1%nat)], None)
                          | Some (true, p) => ([(o, 0%nat); (o, 1%nat)], Some p)
                          | Some (false, _) => continue
                          end
                    end
                end
              else unwrap_object fuel' cast_fuel w class_type (prototype obj)
          end
      end
  end.

(** [v8::Handle<v8::Object> find_object(T const* obj)] *)
Definition find_object (fuel : nat) (this obj : pointer) (w : world) : option handle :=
  ClassInfo.find_object fuel (infos w) this obj.

End ClassSingleton.

(** * Hierarchies of class_info objects *)

Module Hierarchy.
Import ClassInfo.

(** [q] is a direct base of [p], through the link [b]. *)
Definition base_link (h : gmap pointer class_info) (p : pointer)
    (b : base_class_info) (q : pointer) : Prop :=
  ∃ ci, h !! p = Some ci ∧ b ∈ bases_ ci ∧ info b = q.

Definition direct_base (h : gmap pointer class_info) (p q : pointer) : Prop :=
  ∃ b, base_link h p b q.

(** No cycle among the base links. *)
Definition acyclic (h : gmap pointer class_info) : Prop :=
  ∀ p, ¬ tc (direct_base h) p p.

(** Every base link and every back-reference points to a live object. *)
Definition closed (h : gmap pointer class_info) : Prop :=
  ∀ p ci, h !! p = Some ci →
    (∀ b, b ∈ bases_ ci → is_Some (h !! info b)) ∧
    (∀ d, d ∈ derivatives_ ci → is_Some (h !! d)).

(** A chain of base links from [p] to [q], one link per hop. *)
Inductive chain (h : gmap pointer class_info)
    : pointer → list base_class_info → pointer → Prop :=
  | chain_here p : chain h p [] p
  | chain_hop p b q l r :
      base_link h p b q → chain h q l r → chain h p (b :: l) r.

(** The adjustment functions of a chain, applied once per hop, from the
    derived end on. *)
Definition adjust (l : list base_class_info) (ptr : pointer) : pointer :=
  foldl (λ a b, cast_fn b a) ptr l.

(** The object at [q] has type index [t]. *)
Definition has_type (h : gmap pointer class_info) (q : pointer) (t : type_index) : Prop :=
  ∃ ci, h !! q = Some ci ∧ type_ ci = t.

(** [t] is the type of [p] or of a base reached from it. *)
Definition reachable (h : gmap pointer class_info) (p : pointer) (t : type_index) : Prop :=
  ∃ l q, chain h p l q ∧ has_type h q t.

(** The stores that the operations of [class_info] build: objects are
    created with [class_info(type)], and changed by [add_base],
    [add_object] and [remove_object] only. *)
Inductive populated : gmap pointer class_info → Prop :=
  | populated_empty : populated ∅
  | populated_new h p t :
      populated h → h !! p = None → populated (<[p := new_class_info t]> h)
  | populated_add_base h ndebug this target f r h' :
      populated h → add_base ndebug this target f h = Some (r, h') → populated h'
  | populated_add_object h ndebug this object hdl r h' :
      populated h → add_object ndebug this object hdl h = Some (r, h') → populated h'
  | populated_remove_object {S : Type} h ndebug this object destroy (s s' : S) r h' :
      populated h →
      remove_object ndebug this object destroy h s = Some (r, h', s') →
      populated h'
  | populated_remove_objects {S : Type} h this destroy (s s' : S) h' :
      populated h →
      remove_objects this destroy h s = Some (h', s') →
      populated h'.

Definition not_of_type (h : gmap pointer class_info) (t : type_index)
    (b : base_class_info) : Prop :=
  ∃ bi, h !! info b = Some bi ∧ type_ bi ≠ t.

(** Every base link goes to an object of smaller rank: a criterion for
    the absence of cycles that can be computed. *)
Definition ranked (rank : pointer → nat) (h : gmap pointer class_info) : Prop :=
  map_Forall (λ p ci, Forall (λ b, (rank (info b) < rank p)%nat) (bases_ ci)) h.

#[export] Instance ranked_dec rank h : Decision (ranked rank h).
Proof. unfold ranked. apply _. Defined.

(** How [add_base] ends on a target that is already a base: the failed
    assert, or the exception when asserts are compiled out. *)
Definition duplicate_base_failure (ndebug : bool) : result unit :=
  if ndebug then Throw "duplicated base class" else Abort "duplicated inheritance".

(** How [add_object] ends on an address that is already registered, and
    [remove_object] on one that is not: the failed assert, or a normal
    return when asserts are compiled out. *)
Definition duplicate_object_outcome (ndebug : bool) : result unit :=
  if ndebug then Ok tt else Abort "duplicate object".

Definition no_object_outcome (ndebug : bool) : result unit :=
  if ndebug then Ok tt else Abort "no object".

End Hierarchy.

(** * Prototype chains and proxies *)

Module Prototypes.
Import ClassInfo V8 ClassSingleton Hierarchy.

(** [o] is met when the prototypes are followed from the value [v]. *)
Inductive on_prototype_chain (w : world) : value → object_id → Prop :=
  | on_chain_here o : on_prototype_chain w (Object o) o
  | on_chain_up o obj o' :
      js w !! o = Some obj →
      on_prototype_chain w (prototype obj) o' →
      on_prototype_chain w (Object o) o'.

(** The whole prototype chain of [v], down to the value that is not an
    object. *)
Inductive prototype_chain (w : world) : value → list object_id → Prop :=
  | prototype_chain_end : prototype_chain w Primitive []
  | prototype_chain_object o obj l :
      js w !! o = Some obj →
      prototype_chain w (prototype obj) l →
      prototype_chain w (Object o) (o :: l).

(** The object has exactly two internal fields. *)
Definition two_fields (w : world) (o : object_id) : Prop :=
  ∃ obj, js w !! o = Some obj ∧ InternalFieldCount obj = 2%nat.

(** Slot 1 of every two-field object among [l] is null or the address of a
    live [class_info]. *)
Definition descriptors_live (w : world) (l : list object_id) : Prop :=
  ∀ o obj ptr info,
    o ∈ l → js w !! o = Some obj → internal_fields obj = [ptr; info] →
    info ≠ nullptr → is_Some (infos w !! info).

(** [o] is a two-field object whose stored descriptor is not null and can
    be cast to the type [class_type]. *)
Definition castable (w : world) (class_type : type_index) (o : object_id) : Prop :=
  ∃ obj ptr info,
    js w !! o = Some obj ∧ internal_fields obj = [ptr; info] ∧
    info ≠ nullptr ∧ reachable (infos w) info class_type.

(** What the constructor of [class_singleton] establishes for the object
    at [this]. *)
Definition singleton_at (w : world) (this : pointer) (ci : class_info) : Prop :=
  this ≠ nullptr ∧ infos w !! this = Some ci ∧
  ∃ tmpl, func_ w !! this = Some tmpl ∧ internal_field_count tmpl = 2%nat.

End Prototypes.

(** * The list of singletons of an isolate *)

Module Singletons.
Import ClassInfo V8 ClassSingleton.

(** The list of the isolate has one singleton for every type index given
    out so far, as when no other isolate has registered a type. *)
Definition in_step (w : world) (iso : isolate) : Prop :=
  N.of_nat (length (default [] (isolate_data w !! iso))) = next_index w ∧
  (∀ T t, my_type w !! T = Some t → t < next_index w).

(** The singleton [p] is in the list of the isolate at the position that
    is the type index of [T]. *)
Definition stored_at_index (w : world) (iso : isolate) (T : type_name) (p : pointer) : Prop :=
  ∃ t l, my_type w !! T = Some t ∧ isolate_data w !! iso = Some l ∧
         l !! N.to_nat t = Some p.

End Singletons.

(** * Concrete hierarchies and worlds *)

Module Examples.
Import ClassInfo V8 ClassSingleton Hierarchy.

(** Three objects: A (type 0) at 1, B (type 1) at 2 and C (type 2) at 3. *)
Definition three : gmap pointer class_info :=
  <[3 := new_class_info 2]> (<[2 := new_class_info 1]> (<[1 := new_class_info 0]> ∅)).

Definition after {A : Type} (r : option (A * gmap pointer class_info))
    : gmap pointer class_info :=
  match r with Some (_, h) => h | None => ∅ end.

Definition C_to_B : cast_function := λ p, p + 8.
Definition B_to_A : cast_function := λ p, p + 16.

(** C inherits B, then B inherits A. *)
Definition c_b : gmap pointer class_info := after (add_base true 3 2 C_to_B three).
Definition c_b_a : gmap pointer class_info := after (add_base true 2 1 B_to_A c_b).

(** A diamond without virtual bases: D (type 3, at 4) inherits B1 (type 1,
    at 2) at offset 0 and B2 (type 2, at 3) at offset 8; each of them has
    an A (type 0, at 1) of its own at offset 0. *)
Definition D_to_B2 : cast_function := λ p, p + 8.
Definition four : gmap pointer class_info := <[4 := new_class_info 3]> three.
Definition d_b1 : gmap pointer class_info := after (add_base true 4 2 id four).
Definition d_b1_b2 : gmap pointer class_info := after (add_base true 4 3 D_to_B2 d_b1).
Definition d_b1a_b2 : gmap pointer class_info := after (add_base true 2 1 id d_b1_b2).
Definition diamond : gmap pointer class_info := after (add_base true 3 1 id d_b1a_b2).

(** An object inheriting itself. *)
Definition loop : gmap pointer class_info :=
  after (add_base true 1 1 id (<[1 := new_class_info 0]> ∅)).

(** The same hierarchy with bases at offset 0, as in single inheritance:
    an object and its base subobjects have one address. *)
Definition single_c_b : gmap pointer class_info := after (add_base true 3 2 id three).
Definition single_c_b_a : gmap pointer class_info := after (add_base true 2 1 id single_c_b).

(** A C instance at address 500, wrapped by the proxy 7 in the registry
    of C. *)
Definition c_b_a_wrapped : gmap pointer class_info :=
  after (add_object true 3 500 (Some 7%nat) single_c_b_a).

(** A C instance at address 500 wrapped twice: as a B (proxy 4) in the
    registry of B and as a C (proxy 5) in the registry of C. *)
Definition twice : gmap pointer class_info :=
  after (add_object true 3 500 (Some 5%nat)
           (after (add_object true 2 500 (Some 4%nat) single_c_b))).

(** The world after the first use of the class A in the isolate 1. *)
Definition world_A : world :=
  match instance 1 "A" initial_world with
  | Some (_, w) => w
  | None => initial_world
  end.

(** The world after the first use of A and then of B in the isolate 1. *)
Definition world_AB : world :=
  match instance 1 "B" world_A with
  | Some (_, w) => w
  | None => world_A
  end.

(** An engine whose [throw_ex] returns undefined and keeps no record. *)
Definition throw_ex_undefined : isolate → string → world → value * world :=
  λ _ _ w, (Primitive, w).

(** The world after an A at the address 1000 was wrapped there. *)
Definition world_A_wrapped : world :=
  match wrap_external_object false 1 1000 world_A with
  | Some (_, w) => w
  | None => world_A
  end.

End Examples.

(** * The rest of class_singleton<T> and the static functions of class_<T> *)

Module Facade.
Import ClassInfo V8 ClassSingleton.

(** [child->Inherit(parent)] of [v8::FunctionTemplate]: the prototype
    object of the child gets the prototype object of the parent as its
    prototype.  [None]: the child has no prototype object. *)
Definition Inherit (child parent : function_template) (objs : gmap object_id object)
    : option (gmap object_id object) :=
  match instance_prototype child with
  | Object o =>
      obj ← objs !! o;
      Some (<[o := MkObject (internal_fields obj) (instance_prototype parent)]> objs)
  | Primitive => None
  end.

(** [class_function_template()]: [func_]. *)
Definition class_function_template (this : pointer) (w : world) : option function_template :=
  func_ w !! this.

(** [js_function_template()]: [js_func_.IsEmpty()? func_ : js_func_]. *)
Definition js_function_template (this : pointer) (w : world) : option function_template :=
  match js_func_ w !! this with
  | Some t => Some t
  | None => func_ w !! this
  end.

(** [template<typename U> void inherit()] of [class_singleton<T>], called
    on the singleton at [this]; [iso] is the value of its member
    [isolate_], and [static_cast] is the function
    [static_cast<U*>(static_cast<T*>(ptr))] of the two native types. *)
Definition inherit (static_cast : cast_function) (ndebug : bool) (iso : isolate)
    (U : type_name) (this : pointer) (w : world) : option (result unit * world) :=
  '(base, w1) ← instance iso U w;
  '(r, w2) ← on_infos (add_base ndebug this base static_cast) w1;
  match r with
  | Ok _ =>
      child ← js_function_template this w2;
      parent ← class_function_template base w2;
      objs ← Inherit child parent (js w2);
      Some (Ok tt, set_js w2 objs)
  | _ => Some (r, w2)
  end.

(** [void destroy_object(T* obj)]: [remove_object] with
    [&factory<T>::destroy], which acts on the native side. *)
Definition destroy_object {S : Type} (ndebug : bool) (factory_destroy : pointer → S → S)
    (this obj : pointer) (w : world) (s : S) : option (result unit * world * S) :=
  '(r, h, s') ← remove_object ndebug this obj (Some factory_destroy) (infos w) s;
  Some (r, set_infos w h, s').

(** [void destroy_objects()] *)
Definition destroy_objects {S : Type} (factory_destroy : pointer → S → S)
    (this : pointer) (w : world) (s : S) : option (world * S) :=
  '(h, s') ← remove_objects this (Some factory_destroy) (infos w) s;
  Some (set_infos w h, s').

(** The weak callback set by [wrap_object] of a native object, called by
    the collector with the parameter given to [SetWeak]:
    [instance(data.GetIsolate()).destroy_object(data.GetParameter())]. *)
Definition weak_callback {S : Type} (ndebug : bool) (factory_destroy : pointer → S → S)
    (T : type_name) (iso : isolate) (param : pointer) (w : world) (s : S)
    : option (result unit * world * S) :=
  '(this, w1) ← instance iso T w;
  destroy_object ndebug factory_destroy this param w1 s.

(** [class_<T>::reference_external(isolate, ext)] *)
Definition reference_external (ndebug : bool) (iso : isolate) (T : type_name)
    (ext : pointer) (w : world) : option (result handle * world) :=
  '(this, w1) ← instance iso T w;
  wrap_external_object ndebug this ext w1.

(** [class_<T>::import_external(isolate, ext)] *)
Definition import_external (ndebug : bool) (iso : isolate) (T : type_name)
    (ext : pointer) (w : world) : option (result handle * world) :=
  '(this, w1) ← instance iso T w;
  wrap_object ndebug this ext w1.

(** [class_<T>::unwrap_object(isolate, value)]; [class_type()] is called
    by the singleton. *)
Definition class_unwrap_object (fuel cast_fuel : nat) (iso : isolate) (T : type_name)
    (v : value) (w : world) : option ((list field_read * option pointer) * world) :=
  '(_, w1) ← instance iso T w;
  let '(t, w2) := class_type T w1 in
  Some (unwrap_object fuel cast_fuel w2 t v, w2).

(** [class_<T>::find_object(isolate, obj)] *)
Definition class_find_object (fuel : nat) (iso : isolate) (T : type_name)
    (obj : pointer) (w : world) : option (option handle * world) :=
  '(this, w1) ← instance iso T w;
  Some (ClassSingleton.find_object fuel this obj w1, w1).

(** [class_<T>::destroy_object(isolate, obj)] *)
Definition class_destroy_object {S : Type} (ndebug : bool)
    (factory_destroy : pointer → S → S) (iso : isolate) (T : type_name)
    (obj : pointer) (w : world) (s : S) : option (result unit * world * S) :=
  '(this, w1) ← instance iso T w;
  destroy_object ndebug factory_destroy this obj w1 s.

(** [class_<T>::destroy_objects(isolate)] *)
Definition class_destroy_objects {S : Type} (factory_destroy : pointer → S → S)
    (iso : isolate) (T : type_name) (w : world) (s : S) : option (world * S) :=
  '(this, w1) ← instance iso T w;
  destroy_objects factory_destroy this w1 s.

End Facade.

(** * Invariants of the store and of the list of singletons *)

Module Invariants.
Import ClassInfo V8 ClassSingleton Hierarchy Prototypes Singletons.

(** The two stores have the same objects with the same type indices and
    base links: they differ in registries and back-references only. *)
Definition same_tables (h h' : gmap pointer class_info) : Prop :=
  ∀ p, (λ ci, (type_ ci, bases_ ci)) <$> h' !! p = (λ ci, (type_ ci, bases_ ci)) <$> h !! p.

(** The two stores have the same objects with the same type indices. *)
Definition same_types (h h' : gmap pointer class_info) : Prop :=
  ∀ p, type_ <$> h' !! p = type_ <$> h !! p.

(** [ci'] is [ci] with base links and back-references added at the end. *)
Definition extends (ci ci' : class_info) : Prop :=
  type_ ci' = type_ ci ∧ objects_ ci' = objects_ ci ∧
  bases_ ci `prefix_of` bases_ ci' ∧ derivatives_ ci `prefix_of` derivatives_ ci'.

(** The object [cp] at [p] has a base link to [q]. *)
Definition links_to (cp : class_info) (q : pointer) : Prop :=
  ∃ b, b ∈ bases_ cp ∧ info b = q.

(** The back-references mirror the base links, and no link or
    back-reference is there twice. *)
Definition linked (h : gmap pointer class_info) : Prop :=
  (∀ p q cp cq, h !! p = Some cp → h !! q = Some cq →
     links_to cp q ↔ p ∈ derivatives_ cq) ∧
  (∀ p cp, h !! p = Some cp →
     NoDup (info <$> bases_ cp) ∧ NoDup (derivatives_ cp)).

(** The object [ci], at [p], after [this] got the base [target]. *)
Definition add_link (this target : pointer) (f : cast_function) (p : pointer)
    (ci : class_info) : class_info :=
  {| type_ := type_ ci;
     bases_ := bases_ ci ++ (if decide (p = this) then [BaseClassInfo target f] else []);
     derivatives_ := derivatives_ ci ++ (if decide (p = target) then [this] else []);
     objects_ := objects_ ci |}.

(** The isolate has its singletons in step with the type indices, no two
    types share an index, and the entry of the list at an index is a live
    singleton with that type index. *)
Definition directory_ok (w : world) (iso : isolate) : Prop :=
  in_step w iso ∧
  (∀ T T' t, my_type w !! T = Some t → my_type w !! T' = Some t → T = T') ∧
  (∀ l i p, isolate_data w !! iso = Some l → l !! i = Some p →
     ∃ ci, singleton_at w p ci ∧ type_ ci = N.of_nat i).

(** The worlds agree on everything but the registries, the back-references
    and the objects of the engine. *)
Definition same_directory (w w' : world) : Prop :=
  next_index w' = next_index w ∧ my_type w' = my_type w ∧
  isolate_data w' = isolate_data w ∧ ctor_ w' = ctor_ w ∧
  func_ w' = func_ w ∧ js_func_ w' = js_func_ w.

(** A world whose singletons were all made for one isolate, by the
    operations: the list of the isolate is in step, and every live
    [class_info] is in that list at its type index. *)
Definition single_isolate (w : world) (iso : isolate) : Prop :=
  directory_ok w iso ∧ populated (infos w) ∧
  (∀ p ci, infos w !! p = Some ci →
     ∃ l, isolate_data w !! iso = Some l ∧ l !! N.to_nat (type_ ci) = Some p).

(** The result of [wrap_external_object] for the outcome of [add_object]. *)
Definition wrapped (r : result unit) (o : object_id) : result handle :=
  match r with
  | Ok _ => Ok (Some o)
  | Throw e => Throw e
  | Abort m => Abort m
  end.

End Invariants.

(** * Scenarios with constructors, inheritance and scripts *)

Module MoreExamples.
Import ClassInfo V8 ClassSingleton Facade.

(** The native side as the list of the addresses destroyed, last first. *)
Definition log_destroy : pointer → list pointer → list pointer := cons.

(** A trampoline that makes its object at the address 1000. *)
Definition ctor_1000 : ctor_function := λ _, Ok 1000.

(** The world of A with that trampoline as constructor. *)
Definition world_A_ctor : world := ctor 1 ctor_1000 Examples.world_A.

(** The world after the first use of Dog in the isolate 1. *)
Definition world_dog : world :=
  match instance 1 "Dog" initial_world with
  | Some (_, w) => w
  | None => initial_world
  end.

(** Dog has its Animal at offset 8. *)
Definition Dog_to_Animal : cast_function := λ p, p + 8.

(** The world after Dog inherits Animal. *)
Definition world_dog_animal : world :=
  match inherit Dog_to_Animal false 1 "Animal" 1 world_dog with
  | Some (_, w) => w
  | None => world_dog
  end.

(** The world of the wrapped A, where a script has made the object 9 with
    the proxy 2 as its prototype. *)
Definition world_script : world :=
  set_js Examples.world_A_wrapped
    (<[9%nat := MkObject [] (Object 2%nat)]> (js Examples.world_A_wrapped)).

(** The world of A after [class_<A>::inherit<A>()]: A is its own base. *)
Definition world_self : world :=
  match inherit id false 1 "A" 1 Examples.world_A with
  | Some (_, w) => w
  | None => Examples.world_A
  end.

(** That world after an A at the address 1000 was wrapped there. *)
Definition world_self_wrapped : world :=
  match wrap_external_object false 1 1000 world_self with
  | Some (_, w) => w
  | None => world_self
  end.

End MoreExamples.

(** * The cast table *)

Module CastTable.
Import ClassInfo Hierarchy.

(** ** The two loops *)

Lemma cast_direct_found h l1 b l2 bi ptr t :
  Forall (not_of_type h t) l1 →
  h !! info b = Some bi → type_ bi = t →
  cast_direct h (l1 ++ b :: l2) ptr t = Some (Some (cast_fn b ptr)).
Proof.
  intros Hl1 Hb Ht. induction Hl1 as [|b' l1 (bi' & Hb' & Hne) _ IH]; simpl.
  - rewrite Hb. simpl. by rewrite decide_True.
  - rewrite Hb'. simpl. by rewrite decide_False.
Qed.

Lemma cast_direct_Some h bs ptr t p :
  cast_direct h bs ptr t = Some (Some p) →
  ∃ l1 b l2 bi, bs = l1 ++ b :: l2 ∧ Forall (not_of_type h t) l1 ∧
    h !! info b = Some bi ∧ type_ bi = t ∧ p = cast_fn b ptr.
Proof.
  induction bs as [|b bs IH]; simpl; [done|].
  destruct (h !! info b) as [bi|] eqn:Hb; simpl; [|done].
  case_decide as Ht.
  - intros [= <-]. exists [], b, bs, bi. by repeat split.
  - intros (l1 & b' & l2 & bi' & -> & Hl1 & ?)%IH.
    exists (b :: l1), b', l2, bi'. split; [done|]. split; [|done].
    constructor; [|done]. by exists bi.
Qed.

Lemma cast_direct_None h bs ptr t :
  cast_direct h bs ptr t = Some None ↔ Forall (not_of_type h t) bs.
Proof.
  induction bs as [|b bs IH]; simpl; [by split|].
  destruct (h !! info b) as [bi|] eqn:Hb; simpl.
  - case_decide as Ht.
    + split; [done|]. intros [(bi' & Hb' & Hne) _]%Forall_cons. congruence.
    + rewrite IH, Forall_cons. split; [|tauto]. intros ?. split; [|done]. by exists bi.
  - split; [done|]. intros [(bi' & Hb' & Hne) _]%Forall_cons. congruence.
Qed.

Lemma cast_direct_total h bs ptr t :
  (∀ b, b ∈ bs → is_Some (h !! info b)) → is_Some (cast_direct h bs ptr t).
Proof.
  induction bs as [|b bs IH]; simpl; intros Hbs; [by eexists|].
  destruct (Hbs b) as [bi Hb]; [by left|]. rewrite Hb. simpl.
  case_decide; [by eexists|]. apply IH. intros b' ?. apply Hbs. by right.
Qed.

(** The walk returns the result of the first base, in order, whose own
    cast succeeds. *)
Lemma cast_walk_found rec l1 b l2 ptr p :
  Forall (λ b', ∃ p', rec (info b') (cast_fn b' ptr) = Some (false, p')) l1 →
  rec (info b) (cast_fn b ptr) = Some (true, p) →
  cast_walk rec (l1 ++ b :: l2) ptr = Some (true, p).
Proof.
  intros Hl1 Hb. induction Hl1 as [|b' l1 (p' & Hb') _ IH]; simpl.
  - by rewrite Hb.
  - by rewrite Hb'.
Qed.

Lemma cast_walk_true rec bs ptr p :
  cast_walk rec bs ptr = Some (true, p) →
  ∃ l1 b l2, bs = l1 ++ b :: l2 ∧
    Forall (λ b', ∃ p', rec (info b') (cast_fn b' ptr) = Some (false, p')) l1 ∧
    rec (info b) (cast_fn b ptr) = Some (true, p).
Proof.
  induction bs as [|b bs IH]; simpl; [done|].
  destruct (rec (info b) (cast_fn b ptr)) as [[[] p']|] eqn:Hb; simpl; [| |done].
  - intros [= <-]. by exists [], b, bs.
  - intros (l1 & b' & l2 & -> & Hl1 & ?)%IH.
    exists (b :: l1), b', l2. split; [done|]. split; [|done].
    constructor; [|done]. by exists p'.
Qed.

Lemma cast_walk_false rec bs ptr p :
  cast_walk rec bs ptr = Some (false, p) ↔
  p = ptr ∧ Forall (λ b, ∃ p', rec (info b) (cast_fn b ptr) = Some (false, p')) bs.
Proof.
  induction bs as [|b bs IH]; simpl.
  - split; [by intros [= <-]|by intros [-> _]].
  - destruct (rec (info b) (cast_fn b ptr)) as [[[] p']|] eqn:Hb; simpl.
    + split; [done|]. intros [_ [(p'' & ?) _]%Forall_cons]. congruence.
    + rewrite IH, Forall_cons. split; [|tauto]. intros [-> ?].
      split; [done|]. split; [by exists p'|done].
    + split; [done|]. intros [_ [(p'' & ?) _]%Forall_cons]. congruence.
Qed.

Lemma cast_walk_total rec bs ptr :
  (∀ b, b ∈ bs → is_Some (rec (info b) (cast_fn b ptr))) →
  is_Some (cast_walk rec bs ptr).
Proof.
  induction bs as [|b bs IH]; simpl; intros Hbs; [by eexists|].
  destruct (Hbs b) as [[[] p'] Hb]; [by left| |]; rewrite Hb; simpl.
  - by eexists.
  - apply IH. intros b' ?. apply Hbs. by right.
Qed.

(** ** What a returned result says *)

Lemma cast_true_chain fuel h p ptr t ptr' :
  cast fuel h p ptr t = Some (true, ptr') →
  ∃ l q, chain h p l q ∧ has_type h q t ∧ ptr' = adjust l ptr.
Proof.
  revert p ptr ptr'. induction fuel as [|fuel IH]; intros p ptr ptr'; simpl; [done|].
  destruct (h !! p) as [ci|] eqn:Hp; simpl; [|done].
  case_decide as Ht.
  { intros [= <-]. exists [], p. split; [constructor|]. split; [by exists ci|done]. }
  destruct (cast_direct h (bases_ ci) ptr t) as [[p1|]|] eqn:Hd; simpl; [| |done].
  - intros [= <-].
    apply cast_direct_Some in Hd as (l1 & b & l2 & bi & Hbs & _ & Hb & Hbt & ->).
    exists [b], (info b). split; [|split; [by exists bi|done]].
    econstructor; [|constructor]. exists ci. rewrite Hbs.
    split; [done|]. split; [|done]. set_solver.
  - intros (l1 & b & l2 & Hbs & _ & Hrec)%cast_walk_true.
    apply IH in Hrec as (l & q & Hl & Hq & ->).
    exists (b :: l), q. split; [|done].
    econstructor; [|done]. exists ci. rewrite Hbs.
    split; [done|]. split; [|done]. set_solver.
Qed.

Lemma cast_false_unreachable fuel h p ptr t ptr' :
  cast fuel h p ptr t = Some (false, ptr') →
  ptr' = ptr ∧ ¬ reachable h p t.
Proof.
  revert p ptr ptr'. induction fuel as [|fuel IH]; intros p ptr ptr'; simpl; [done|].
  destruct (h !! p) as [ci|] eqn:Hp; simpl; [|done].
  case_decide as Ht; [done|].
  destruct (cast_direct h (bases_ ci) ptr t) as [[p1|]|] eqn:Hd; simpl; [done| |done].
  intros [-> Hall]%cast_walk_false. split; [done|].
  intros (l & q & Hl & cq & Hq & Hqt).
  inversion Hl as [|? b q' l' ? (ci' & Hp' & Hb & Hinfo) Hl']; simplify_eq.
  rewrite Forall_forall in Hall.
  destruct (Hall b Hb) as (p' & Hrec).
  apply IH in Hrec as [_ Hnot]. apply Hnot.
  exists l', q. split; [done|]. by exists cq.
Qed.

(** ** More fuel does not change a result *)

Lemma cast_walk_mono (rec rec' : pointer → pointer → option (bool * pointer)) bs ptr r :
  (∀ q p r, rec q p = Some r → rec' q p = Some r) →
  cast_walk rec bs ptr = Some r → cast_walk rec' bs ptr = Some r.
Proof.
  intros Hrec. induction bs as [|b bs IH]; simpl; [done|].
  destruct (rec (info b) (cast_fn b ptr)) as [[[] p']|] eqn:Hb; simpl; [| |done].
  - rewrite (Hrec _ _ _ Hb). done.
  - rewrite (Hrec _ _ _ Hb). simpl. done.
Qed.

Lemma cast_mono fuel fuel' h p ptr t r :
  (fuel ≤ fuel')%nat →
  cast fuel h p ptr t = Some r → cast fuel' h p ptr t = Some r.
Proof.
  revert fuel' p ptr r. induction fuel as [|fuel IH]; intros fuel' p ptr r Hle; simpl; [done|].
  destruct fuel' as [|fuel']; [lia|]. simpl.
  destruct (h !! p) as [ci|] eqn:Hp; simpl; [|done].
  case_decide as Ht; [done|].
  destruct (cast_direct h (bases_ ci) ptr t) as [[p1|]|] eqn:Hd; simpl; [done| |done].
  apply cast_walk_mono. intros q p' r'. apply IH. lia.
Qed.

(** ** Termination without cycles *)

Lemma cast_total_from h t :
  closed h → acyclic h →
  ∀ fuel (seen : gset pointer) p ptr,
    seen ⊆ dom h →
    (∀ q, q ∈ seen → tc (direct_base h) q p) →
    is_Some (h !! p) →
    (size (dom h ∖ seen) ≤ fuel)%nat →
    is_Some (cast fuel h p ptr t).
Proof.
  intros Hclosed Hacyc. induction fuel as [|fuel IH]; intros seen p ptr Hsub Hseen Hp Hsize.
  - exfalso. assert (p ∈ dom h ∖ seen) as Hin.
    { apply elem_of_difference. split; [by apply elem_of_dom|].
      intros Hin. apply (Hacyc p). auto. }
    assert (size (dom h ∖ seen) = 0%nat) as Hz by lia.
    apply size_empty_inv in Hz. set_solver.
  - destruct Hp as [ci Hp]. simpl. rewrite Hp. simpl.
    case_decide as Ht; [by eexists|].
    destruct (Hclosed p ci Hp) as [Hbases _].
    destruct (cast_direct_total h (bases_ ci) ptr t Hbases) as [[p1|] Hd];
      rewrite Hd; simpl; [by eexists|].
    assert (p ∉ seen) as Hnotin.
    { intros Hin. apply (Hacyc p). auto. }
    apply cast_walk_total. intros b Hb.
    apply (IH (seen ∪ {[p]})).
    + apply elem_of_dom_2 in Hp. set_solver.
    + intros q [Hq| ->%elem_of_singleton]%elem_of_union.
      * eapply tc_r; [apply Hseen, Hq|]. exists b, ci. auto.
      * apply tc_once. exists b, ci. auto.
    + by apply Hbases.
    + apply elem_of_dom_2 in Hp.
      assert (seen ∪ {[p]} ⊆ dom h) as Hsub' by set_solver.
      rewrite size_difference by done.
      rewrite size_difference in Hsize by done.
      rewrite size_union by set_solver. rewrite size_singleton.
      apply subseteq_size in Hsub'.
      rewrite size_union in Hsub' by set_solver. rewrite size_singleton in Hsub'.
      lia.
Qed.

Lemma cast_total h p ptr t fuel :
  closed h → acyclic h → is_Some (h !! p) → (size h ≤ fuel)%nat →
  is_Some (cast fuel h p ptr t).
Proof.
  intros Hclosed Hacyc Hp Hsize.
  apply (cast_total_from h t Hclosed Hacyc fuel ∅); [set_solver|set_solver|done|].
  rewrite difference_empty_L, size_dom. done.
Qed.

(** ** Stores built by the operations are closed *)

Lemma insert_live (h : gmap pointer class_info) p ci q :
  is_Some (h !! q) → is_Some (<[p := ci]> h !! q).
Proof. intros Hq. rewrite lookup_insert. by case_decide. Qed.

Lemma closed_insert h p ci :
  closed h →
  (∀ b, b ∈ bases_ ci → is_Some (<[p := ci]> h !! info b)) →
  (∀ d, d ∈ derivatives_ ci → is_Some (<[p := ci]> h !! d)) →
  closed (<[p := ci]> h).
Proof.
  intros Hc Hb Hd q cq. rewrite lookup_insert. case_decide as Hq.
  - intros [= <-]. done.
  - intros Hq'. destruct (Hc q cq Hq') as [Hb' Hd'].
    split; intros x Hx; apply insert_live; auto.
Qed.

Lemma closed_set_objects h p ci os :
  closed h → h !! p = Some ci → closed (<[p := set_objects ci os]> h).
Proof.
  intros Hc Hp. destruct (Hc p ci Hp) as [Hb Hd].
  apply closed_insert; [done| |]; simpl; intros x Hx; apply insert_live; auto.
Qed.

Lemma add_base_closed ndebug this target f h r h' :
  closed h → add_base ndebug this target f h = Some (r, h') → closed h'.
Proof.
  intros Hc. unfold add_base.
  destruct (h !! this) as [ci|] eqn:Hthis; simpl; [|done].
  destruct (has_base (bases_ ci) target).
  { destruct (assert_ ndebug false "duplicated inheritance"); by intros [= <- <-]. }
  destruct (_ !! target) as [ti|] eqn:Htarget; simpl; [|done].
  intros [= <- <-].
  destruct (Hc this ci Hthis) as [Hb Hd].
  assert (closed (<[this:=set_bases ci (bases_ ci ++ [BaseClassInfo target f])]> h)) as Hc1.
  { apply closed_insert; [done| |]; simpl.
    - intros b [Hin|Hin]%elem_of_app; [apply insert_live; auto|].
      apply list_elem_of_singleton in Hin as ->. simpl. by eexists.
    - intros d Hin. apply insert_live; auto. }
  destruct (Hc1 target ti Htarget) as [Hb1 Hd1].
  apply closed_insert; [done| |]; simpl.
  - intros b Hin. apply insert_live; auto.
  - intros d [Hin|Hin]%elem_of_app; [apply insert_live; auto|].
    apply list_elem_of_singleton in Hin as ->. apply insert_live.
    rewrite lookup_insert_eq. by eexists.
Qed.

Lemma populated_closed h : populated h → closed h.
Proof.
  induction 1 as [|h p t _ IH Hp|h ndebug this target f r h' _ IH Hadd
                  |h ndebug this object hdl r h' _ IH Hadd
                  |S h ndebug this object destroy s s' r h' _ IH Hrem
                  |S h this destroy s s' h' _ IH Hrem].
  - intros p ci. by rewrite lookup_empty.
  - apply closed_insert; [done| |]; simpl; intros x Hx; by apply not_elem_of_nil in Hx.
  - by eapply add_base_closed.
  - unfold add_object in Hadd.
    destruct (h !! this) as [ci|] eqn:Hthis; simpl in Hadd; [|done].
    destruct (assert_ _ _ _); [|by injection Hadd as <- <-|by injection Hadd as <- <-].
    destruct (objects_ ci !! object); injection Hadd as <- <-; [done|].
    by apply closed_set_objects.
  - unfold remove_object in Hrem.
    destruct (h !! this) as [ci|] eqn:Hthis; simpl in Hrem; [|done].
    destruct (assert_ _ _ _); [|by injection Hrem as <- <- <-|by injection Hrem as <- <- <-].
    destruct (objects_ ci !! object); injection Hrem as <- <- <-; [|done].
    by apply closed_set_objects.
  - unfold remove_objects in Hrem.
    destruct (h !! this) as [ci|] eqn:Hthis; simpl in Hrem; [|done].
    injection Hrem as <- <-. by apply closed_set_objects.
Qed.

(** ** Ranked stores have no cycle *)

Lemma ranked_tc rank h p q :
  ranked rank h → tc (direct_base h) p q → (rank q < rank p)%nat.
Proof.
  intros Hr. assert (∀ x y, direct_base h x y → (rank y < rank x)%nat) as Hstep.
  { intros x y (b & ci & Hx & Hb & <-).
    specialize (Hr x ci Hx). simpl in Hr. rewrite Forall_forall in Hr. auto. }
  induction 1 as [x y Hxy|x y z Hxy _ IH].
  - auto.
  - specialize (Hstep _ _ Hxy). lia.
Qed.

Lemma ranked_acyclic rank h : ranked rank h → acyclic h.
Proof. intros Hr p Hp. apply (ranked_tc rank) in Hp; [lia|done]. Qed.

(** ** The claims on cast *)

(** C9. When [cast] returns [false], the in/out argument [ptr] has the
    value it had before the call: a failed cast never adjusts the address,
    at any depth of the recursion. *)
Theorem cast_failure_keeps_ptr fuel h this ptr type r :
  cast fuel h this ptr type = Some r → r.1 = false → r.2 = ptr.
Proof.
  destruct r as [[] ptr']; simpl; [done|].
  intros Hcast _. by apply cast_false_unreachable in Hcast as [-> _].
Qed.

Lemma cast_failure_keeps_ptr_witness :
  cast 3 Examples.c_b_a 3 100 7 = Some (false, 100) ∧
  (false, 100).1 = false ∧ (false, 100).2 = 100.
Proof.
  assert (cast 3 Examples.c_b_a 3 100 7 = Some (false, 100)) as H
    by (vm_compute; reflexivity).
  split; [exact H|]. split; [reflexivity|].
  exact (cast_failure_keeps_ptr 3 Examples.c_b_a 3 100 7 (false, 100) H eq_refl).
Defined.

Lemma not_has_type_not_of_type h t b :
  is_Some (h !! info b) → ¬ has_type h (info b) t → not_of_type h t b.
Proof.
  intros [bi Hb] Hnot. exists bi. split; [done|].
  intros Ht. apply Hnot. by exists bi.
Qed.

(** C1, as stated, fails on a cast table populated by [add_base] that has
    a cycle: after [add_base] has made the object 1 its own base, the type
    index 5 is not reachable from it, and [cast] to 5 returns no failure:
    it gives no result with any fuel, the recursion does not end. *)
Lemma cast_cycle_counterexample :
  add_base true 1 1 id (<[1 := new_class_info 0]> ∅) = Some (Ok tt, Examples.loop) ∧
  populated Examples.loop ∧
  ¬ reachable Examples.loop 1 5 ∧
  ∀ fuel, cast fuel Examples.loop 1 100 5 = None.
Proof.
  assert (Examples.loop !! 1 =
    Some (set_derivatives (set_bases (new_class_info 0) [BaseClassInfo 1 id]) [1])) as H1
    by (vm_compute; reflexivity).
  assert (add_base true 1 1 id (<[1 := new_class_info 0]> ∅) = Some (Ok tt, Examples.loop))
    as Hadd by (vm_compute; reflexivity).
  split; [exact Hadd|]. split; [|split].
  - eapply (populated_add_base (<[1 := new_class_info 0]> ∅) true 1 1 id (Ok tt));
      [|exact Hadd].
    apply populated_new; [apply populated_empty|reflexivity].
  - intros (l & q & _ & cq & Hq & Ht).
    assert (map_Forall (λ _ ci, type_ ci ≠ 5) Examples.loop) as Hall.
    { apply (bool_decide_unpack _). vm_compute. exact I. }
    by apply (Hall q cq Hq).
  - intros fuel. generalize 100. induction fuel as [|fuel IH]; intros ptr; simpl; [done|].
    rewrite H1. simpl. by rewrite IH.
Qed.

(** C1, amended.  On a store built by the operations of [class_info], for
    the object [ci] at [this], an address [ptr] and a requested type index
    [type]:
    - if [type] is the object's own index, [cast] succeeds and leaves the
      address as it is;
    - otherwise the direct bases are tried first, in the order of their
      registration: the first of them that has the requested type gives
      the result, its adjustment applied once;
    - otherwise the hierarchy is walked: the first base, in order, whose
      own cast succeeds gives the result;
    - a success always returns the adjustments of a chain of base links
      from this object to one of the requested type, applied once per hop
      from the derived end;
    - a failure is returned only if no such chain exists;
    - when the base links have no cycle, a result is returned, with any
      fuel that covers the size of the store: success along a chain if the
      type is reachable, failure with the address unchanged otherwise. *)
Theorem cast_correct h this ci ptr type :
  populated h → h !! this = Some ci →
  (type = type_ ci → ∀ fuel, cast (S fuel) h this ptr type = Some (true, ptr)) ∧
  (type ≠ type_ ci → ∀ l1 b l2 fuel,
     bases_ ci = l1 ++ b :: l2 →
     Forall (λ b', ¬ has_type h (info b') type) l1 →
     has_type h (info b) type →
     cast (S fuel) h this ptr type = Some (true, cast_fn b ptr)) ∧
  (type ≠ type_ ci → ∀ l1 b l2 fuel ptr',
     Forall (λ b', ¬ has_type h (info b') type) (bases_ ci) →
     bases_ ci = l1 ++ b :: l2 →
     Forall (λ b', ∃ p', cast fuel h (info b') (cast_fn b' ptr) type = Some (false, p')) l1 →
     cast fuel h (info b) (cast_fn b ptr) type = Some (true, ptr') →
     cast (S fuel) h this ptr type = Some (true, ptr')) ∧
  (∀ fuel ptr', cast fuel h this ptr type = Some (true, ptr') →
     ∃ l q, chain h this l q ∧ has_type h q type ∧ ptr' = adjust l ptr) ∧
  (∀ fuel ptr', cast fuel h this ptr type = Some (false, ptr') →
     ¬ reachable h this type) ∧
  (acyclic h → ∀ fuel, (size h ≤ fuel)%nat →
     (reachable h this type →
        ∃ l q, chain h this l q ∧ has_type h q type ∧
          cast fuel h this ptr type = Some (true, adjust l ptr)) ∧
     (¬ reachable h this type → cast fuel h this ptr type = Some (false, ptr))).
Proof.
  intros Hpop Hthis. pose proof (populated_closed h Hpop) as Hclosed.
  destruct (Hclosed this ci Hthis) as [Hbases _].
  assert (∀ l, (∀ b, b ∈ l → b ∈ bases_ ci) →
            Forall (λ b', ¬ has_type h (info b') type) l →
            Forall (not_of_type h type) l) as Hnot.
  { intros l Hl. rewrite !Forall_forall. intros Hall b Hb.
    apply not_has_type_not_of_type; auto. }
  repeat split.
  - intros -> fuel. simpl. rewrite Hthis. simpl. by rewrite decide_True.
  - intros Hne l1 b l2 fuel Hbs Hl1 (bi & Hb & Hbt).
    simpl. rewrite Hthis. simpl. rewrite decide_False by done.
    rewrite Hbs. erewrite cast_direct_found; [done| |done|done].
    apply Hnot; [|done]. intros b' Hb'. rewrite Hbs. set_solver.
  - intros Hne l1 b l2 fuel ptr' Hall Hbs Hl1 Hb.
    simpl. rewrite Hthis. simpl. rewrite decide_False by done.
    assert (cast_direct h (bases_ ci) ptr type = Some None) as ->.
    { apply cast_direct_None. by apply Hnot. }
    simpl. rewrite Hbs. by apply cast_walk_found.
  - intros fuel ptr'. apply cast_true_chain.
  - intros fuel ptr' Hc. by apply cast_false_unreachable in Hc as [_ ?].
  - intros Hreach.
    destruct (cast_total h this ptr type fuel) as [[[] ptr'] Hc]; [done..|by eexists|done| |].
    + apply cast_true_chain in Hc as Hl. destruct Hl as (l & q & Hl & Hq & ->). eauto.
    + apply cast_false_unreachable in Hc as [_ Hnr]. done.
  - intros Hnr.
    destruct (cast_total h this ptr type fuel) as [[[] ptr'] Hc]; [done..|by eexists|done| |].
    + apply cast_true_chain in Hc as (l & q & Hl & Hq & _). destruct Hnr. by exists l, q.
    + by destruct (cast_false_unreachable _ _ _ _ _ _ Hc) as [-> _].
Qed.

(** The example hierarchy C -> B -> A. *)

Lemma c_b_a_populated : populated Examples.c_b_a.
Proof.
  eapply (populated_add_base Examples.c_b true 2 1 Examples.B_to_A (Ok tt));
    [|vm_compute; reflexivity].
  eapply (populated_add_base Examples.three true 3 2 Examples.C_to_B (Ok tt));
    [|vm_compute; reflexivity].
  repeat (apply populated_new; [|vm_compute; reflexivity]).
  apply populated_empty.
Defined.

Lemma c_b_a_acyclic : acyclic Examples.c_b_a.
Proof.
  apply (ranked_acyclic N.to_nat).
  apply (bool_decide_unpack _). vm_compute. exact I.
Defined.

Lemma c_b_a_chain :
  chain Examples.c_b_a 3
    [BaseClassInfo 2 Examples.C_to_B; BaseClassInfo 1 Examples.B_to_A] 1.
Proof.
  econstructor.
  { eexists. split; [vm_compute; reflexivity|]. split; [left|reflexivity]. }
  econstructor.
  { eexists. split; [vm_compute; reflexivity|]. split; [left|reflexivity]. }
  constructor.
Defined.

Lemma c_b_a_reachable : reachable Examples.c_b_a 3 0.
Proof.
  eexists _, _. split; [apply c_b_a_chain|].
  eexists. split; [vm_compute; reflexivity|reflexivity].
Defined.

Lemma cast_correct_witness :
  populated Examples.c_b_a ∧
  Examples.c_b_a !! 3 =
    Some (set_bases (new_class_info 2) [BaseClassInfo 2 Examples.C_to_B]) ∧
  acyclic Examples.c_b_a ∧ reachable Examples.c_b_a 3 0 ∧
  ∃ l q, chain Examples.c_b_a 3 l q ∧ has_type Examples.c_b_a q 0 ∧
    cast 3 Examples.c_b_a 3 100 0 = Some (true, adjust l 100).
Proof.
  assert (Examples.c_b_a !! 3 =
    Some (set_bases (new_class_info 2) [BaseClassInfo 2 Examples.C_to_B])) as H3
    by (vm_compute; reflexivity).
  split; [exact c_b_a_populated|]. split; [exact H3|].
  split; [exact c_b_a_acyclic|]. split; [exact c_b_a_reachable|].
  destruct (cast_correct Examples.c_b_a 3 _ 100 0 c_b_a_populated H3)
    as (_ & _ & _ & _ & _ & Hfull).
  destruct (Hfull c_b_a_acyclic 3%nat) as [Hreach _].
  { vm_compute. lia. }
  exact (Hreach c_b_a_reachable).
Defined.

(** C8, as stated, fails on a diamond without virtual bases, a store
    built by [add_base] with no cycle: two chains lead from D to A, their
    adjustments give the different addresses 100 and 108, so there is no
    unique adjusted address; [cast] returns the one of the chain through
    the base registered first. *)
Lemma cast_diamond_counterexample :
  populated Examples.diamond ∧ acyclic Examples.diamond ∧
  chain Examples.diamond 4 [BaseClassInfo 2 id; BaseClassInfo 1 id] 1 ∧
  chain Examples.diamond 4 [BaseClassInfo 3 Examples.D_to_B2; BaseClassInfo 1 id] 1 ∧
  has_type Examples.diamond 1 0 ∧
  adjust [BaseClassInfo 2 id; BaseClassInfo 1 id] 100 = 100 ∧
  adjust [BaseClassInfo 3 Examples.D_to_B2; BaseClassInfo 1 id] 100 = 108 ∧
  cast 4 Examples.diamond 4 100 0 = Some (true, 100).
Proof.
  assert (∀ p ci b q, Examples.diamond !! p = Some ci → b ∈ bases_ ci → info b = q →
            base_link Examples.diamond p b q) as Hlink.
  { intros p ci b q ? ? ?. by exists ci. }
  split; [|split; [|split; [|split; [|split]]]].
  - eapply (populated_add_base Examples.d_b1a_b2 true 3 1 id (Ok tt));
      [|vm_compute; reflexivity].
    eapply (populated_add_base Examples.d_b1_b2 true 2 1 id (Ok tt));
      [|vm_compute; reflexivity].
    eapply (populated_add_base Examples.d_b1 true 4 3 Examples.D_to_B2 (Ok tt));
      [|vm_compute; reflexivity].
    eapply (populated_add_base Examples.four true 4 2 id (Ok tt));
      [|vm_compute; reflexivity].
    repeat (apply populated_new; [|vm_compute; reflexivity]).
    apply populated_empty.
  - apply (ranked_acyclic N.to_nat).
    apply (bool_decide_unpack _). vm_compute. exact I.
  - econstructor; [eapply Hlink; [vm_compute; reflexivity|left|reflexivity]|].
    econstructor; [eapply Hlink; [vm_compute; reflexivity|left|reflexivity]|].
    constructor.
  - econstructor; [eapply Hlink; [vm_compute; reflexivity|right; left|reflexivity]|].
    econstructor; [eapply Hlink; [vm_compute; reflexivity|left|reflexivity]|].
    constructor.
  - eexists. split; [vm_compute; reflexivity|reflexivity].
  - repeat split; vm_compute; reflexivity.
Qed.

(** C8, amended.  On a store built by the operations of [class_info] that
    has no cycle among its base links, [cast] terminates on every input:
    one result [r] is returned with any fuel that covers the size of the
    store, and no amount of fuel gives another result.  When the requested
    type is reachable, [r] is a success with the adjustments of a chain
    from this object to the requested type; when all such chains agree on
    the address, as they do in single inheritance, it is that address. *)
Theorem cast_terminates h this ptr type :
  populated h → acyclic h → is_Some (h !! this) →
  ∃ r,
    (∀ fuel, (size h ≤ fuel)%nat → cast fuel h this ptr type = Some r) ∧
    (∀ fuel r', cast fuel h this ptr type = Some r' → r' = r) ∧
    (reachable h this type →
       ∃ l q, chain h this l q ∧ has_type h q type ∧ r = (true, adjust l ptr)) ∧
    (∀ ptr', reachable h this type →
       (∀ l q, chain h this l q → has_type h q type → adjust l ptr = ptr') →
       r = (true, ptr')).
Proof.
  intros Hpop Hacyc Hthis. pose proof (populated_closed h Hpop) as Hclosed.
  destruct (cast_total h this ptr type (size h)) as [r Hr]; [done..|].
  assert (reachable h this type →
          ∃ l q, chain h this l q ∧ has_type h q type ∧ r = (true, adjust l ptr)) as Hreach.
  { intros Hreach. destruct r as [[] ptr'].
    - apply cast_true_chain in Hr as (l & q & Hl & Hq & ->). eauto.
    - by apply cast_false_unreachable in Hr as [_ Hnr]. }
  exists r. repeat split.
  - intros fuel Hfuel. by apply (cast_mono (size h)).
  - intros fuel r' Hr'.
    apply (cast_mono _ (fuel `max` size h)) in Hr; [|lia].
    apply (cast_mono _ (fuel `max` size h)) in Hr'; [|lia].
    congruence.
  - done.
  - intros ptr' (l & q & Hl & Hq & ->)%Hreach Hagree.
    by rewrite (Hagree l q).
Qed.

Lemma cast_terminates_witness :
  populated Examples.c_b_a ∧ acyclic Examples.c_b_a ∧
  is_Some (Examples.c_b_a !! 3) ∧
  ∃ r, (∀ fuel, (size Examples.c_b_a ≤ fuel)%nat →
          cast fuel Examples.c_b_a 3 100 0 = Some r) ∧
       (∀ fuel r', cast fuel Examples.c_b_a 3 100 0 = Some r' → r' = r).
Proof.
  assert (is_Some (Examples.c_b_a !! 3)) as H3 by (vm_compute; eexists; reflexivity).
  split; [exact c_b_a_populated|]. split; [exact c_b_a_acyclic|].
  split; [exact H3|].
  destruct (cast_terminates Examples.c_b_a 3 100 0 c_b_a_populated c_b_a_acyclic H3)
    as (r & Hr1 & Hr2 & _).
  exists r. split; [exact Hr1|exact Hr2].
Defined.

(** With a cycle the recursion does not end: on the object that inherits
    itself, a cast to a type that is not there returns with no fuel. *)
Lemma cast_diverges_on_cycle fuel ptr :
  populated Examples.loop ∧ ¬ acyclic Examples.loop ∧
  cast fuel Examples.loop 1 ptr 5 = None.
Proof.
  assert (Examples.loop !! 1 =
    Some (set_derivatives (set_bases (new_class_info 0) [BaseClassInfo 1 id]) [1])) as H1
    by (vm_compute; reflexivity).
  split; [|split].
  - eapply (populated_add_base (<[1 := new_class_info 0]> ∅) true 1 1 id (Ok tt));
      [|vm_compute; reflexivity].
    apply populated_new; [apply populated_empty|reflexivity].
  - intros Hacyc. apply (Hacyc 1). apply tc_once.
    exists (BaseClassInfo 1 id). eexists. split; [exact H1|]. split; [left|reflexivity].
  - revert ptr. induction fuel as [|fuel IH]; intros ptr; simpl; [done|].
    rewrite H1. simpl. by rewrite IH.
Qed.

(** ** add_base *)

Lemma has_base_true bs target :
  has_base bs target = true ↔ ∃ b, b ∈ bs ∧ info b = target.
Proof.
  unfold has_base. rewrite existsb_exists. split.
  - intros (b & Hb%list_elem_of_In & Heq%N.eqb_eq). eauto.
  - intros (b & Hb%list_elem_of_In & Heq%N.eqb_eq). eauto.
Qed.

Lemma add_base_duplicate ndebug h this target f ci :
  h !! this = Some ci → (∃ b, b ∈ bases_ ci ∧ info b = target) →
  add_base ndebug this target f h = Some (duplicate_base_failure ndebug, h).
Proof.
  intros Hthis Hdup%has_base_true. unfold add_base. rewrite Hthis. simpl.
  rewrite Hdup. by destruct ndebug.
Qed.

(** C4. For live objects [this] and [target]:
    - if [target] is not yet a direct base of [this], [add_base] returns
      normally; [target] is appended to the bases of [this] with its
      adjustment function, [this] is appended to the derivatives of
      [target], no other object changes, and registering the same target
      again then fails and leaves that store as it is;
    - if [target] is already a direct base, the call fails - by the
      exception [std::runtime_error("duplicated base class")] when asserts
      are compiled out, in the failed assert otherwise - and the store,
      with all bases and derivatives, is the one before the call. *)
Theorem add_base_registers_once ndebug h this target f ci ti :
  h !! this = Some ci → h !! target = Some ti →
  ((¬ ∃ b, b ∈ bases_ ci ∧ info b = target) →
     ∃ h' ci' ti',
       add_base ndebug this target f h = Some (Ok tt, h') ∧
       h' !! this = Some ci' ∧
       bases_ ci' = bases_ ci ++ [BaseClassInfo target f] ∧
       h' !! target = Some ti' ∧
       derivatives_ ti' = derivatives_ ti ++ [this] ∧
       (∀ p, p ≠ this → p ≠ target → h' !! p = h !! p) ∧
       (∀ g, add_base ndebug this target g h' = Some (duplicate_base_failure ndebug, h'))) ∧
  ((∃ b, b ∈ bases_ ci ∧ info b = target) →
     add_base ndebug this target f h = Some (duplicate_base_failure ndebug, h)).
Proof.
  intros Hthis Htarget. split; [|by apply add_base_duplicate].
  intros Hnew.
  assert (has_base (bases_ ci) target = false) as Hfalse.
  { destruct (has_base (bases_ ci) target) eqn:Hb; [|done].
    by apply has_base_true in Hb. }
  unfold add_base at 1. rewrite Hthis. simpl. rewrite Hfalse.
  set (ci1 := set_bases ci (bases_ ci ++ [BaseClassInfo target f])).
  assert (∃ ti1, <[this:=ci1]> h !! target = Some ti1 ∧
                 derivatives_ ti1 = derivatives_ ti ∧
                 (this = target → bases_ ti1 = bases_ ci1)) as (ti1 & Hti1 & Hd1 & Hb1).
  { destruct (decide (this = target)) as [->|Hne].
    - exists ci1. rewrite lookup_insert_eq. split; [done|]. split; [|done].
      simpl. congruence.
    - exists ti. rewrite lookup_insert_ne by done. done. }
  rewrite Hti1. simpl.
  set (h' := <[target:=set_derivatives ti1 (derivatives_ ti1 ++ [this])]> (<[this:=ci1]> h)).
  assert (∃ ci', h' !! this = Some ci' ∧
                 bases_ ci' = bases_ ci ++ [BaseClassInfo target f]) as (ci' & Hci' & Hbs').
  { unfold h'. destruct (decide (this = target)) as [->|Hne].
    - eexists. rewrite lookup_insert_eq. split; [done|]. simpl. by rewrite Hb1.
    - exists ci1. rewrite lookup_insert_ne by done. by rewrite lookup_insert_eq. }
  exists h', ci', (set_derivatives ti1 (derivatives_ ti1 ++ [this])).
  split; [done|]. split; [done|]. split; [done|].
  split; [unfold h'; by rewrite lookup_insert_eq|].
  split; [simpl; by rewrite Hd1|].
  split.
  - intros p Hp1 Hp2. unfold h'. by rewrite !lookup_insert_ne.
  - intros g. apply (add_base_duplicate _ _ _ _ _ ci'); [done|].
    exists (BaseClassInfo target f). split; [|done]. rewrite Hbs'. set_solver.
Qed.

Lemma add_base_registers_once_witness :
  Examples.c_b !! 3 =
    Some (set_bases (new_class_info 2) [BaseClassInfo 2 Examples.C_to_B]) ∧
  Examples.c_b !! 2 = Some (set_derivatives (new_class_info 1) [3]) ∧
  (∃ b, b ∈ [BaseClassInfo 2 Examples.C_to_B] ∧ info b = 2) ∧
  add_base true 3 2 id Examples.c_b = Some (Throw "duplicated base class", Examples.c_b).
Proof.
  assert (Examples.c_b !! 3 =
    Some (set_bases (new_class_info 2) [BaseClassInfo 2 Examples.C_to_B])) as H3
    by (vm_compute; reflexivity).
  assert (Examples.c_b !! 2 = Some (set_derivatives (new_class_info 1) [3])) as H2
    by (vm_compute; reflexivity).
  assert (∃ b, b ∈ [BaseClassInfo 2 Examples.C_to_B] ∧ info b = 2) as Hdup.
  { eexists. split; [left|reflexivity]. }
  split; [exact H3|]. split; [exact H2|]. split; [exact Hdup|].
  exact (proj2 (add_base_registers_once true Examples.c_b 3 2 id _ _ H3 H2) Hdup).
Defined.

End CastTable.

(** * The object registry *)

Module Registry.
Import ClassInfo Hierarchy.

Lemma find_in_derivatives_found rec l1 d l2 o :
  Forall (λ d', rec d' = Some None) l1 →
  rec d = Some (Some o) →
  find_in_derivatives rec (l1 ++ d :: l2) = Some (Some o).
Proof.
  intros Hl1 Hd. induction Hl1 as [|d' l1 Hd' _ IH]; simpl.
  - by rewrite Hd.
  - by rewrite Hd'.
Qed.

Lemma find_in_derivatives_empty rec ds :
  Forall (λ d, rec d = Some None) ds →
  find_in_derivatives rec ds = Some None.
Proof.
  induction 1 as [|d ds Hd _ IH]; simpl; [done|]. by rewrite Hd.
Qed.

Lemma find_object_mono fuel fuel' h this object r :
  (fuel ≤ fuel')%nat →
  find_object fuel h this object = Some r → find_object fuel' h this object = Some r.
Proof.
  revert fuel' this r. induction fuel as [|fuel IH]; intros fuel' this r Hle; simpl; [done|].
  destruct fuel' as [|fuel']; [lia|]. simpl.
  destruct (h !! this) as [ci|]; simpl; [|done].
  destruct (objects_ ci !! object); [done|].
  generalize (derivatives_ ci). intros ds. induction ds as [|d ds IHds]; simpl; [done|].
  destruct (find_object fuel h d object) as [[o|]|] eqn:Hd; simpl; [| |done].
  - rewrite (IH fuel' d (Some o)); [done|lia|done].
  - rewrite (IH fuel' d None); [simpl; done|lia|done].
Qed.

Lemma find_object_first fuel h this ci object l1 d l2 o :
  h !! this = Some ci → objects_ ci !! object = None →
  derivatives_ ci = l1 ++ d :: l2 →
  Forall (λ d', find_object fuel h d' object = Some None) l1 →
  find_object fuel h d object = Some (Some o) →
  find_object (S fuel) h this object = Some (Some o).
Proof.
  intros Hthis Hobj Hds Hl1 Hd. simpl. rewrite Hthis. simpl. rewrite Hobj, Hds.
  by apply find_in_derivatives_found.
Qed.

(** C3. For the object [ci] at [this] and an address [object]:
    - an entry for [object] in the map of [ci] is the result;
    - without one, the derivatives are asked in order, each by the same
      function: the first non-empty result is the result and the later
      derivatives are not asked; when all results are empty, so is the
      result;
    - for three levels A <- B <- C, where the address is registered for C
      only, [find_object] on A returns the handle that [find_object] on C
      returns. *)
Theorem find_object_searches_derivatives h this ci object :
  h !! this = Some ci →
  (∀ hdl fuel, objects_ ci !! object = Some hdl →
     find_object (S fuel) h this object = Some hdl) ∧
  (objects_ ci !! object = None →
     (∀ fuel l1 d l2 o,
        derivatives_ ci = l1 ++ d :: l2 →
        Forall (λ d', find_object fuel h d' object = Some None) l1 →
        find_object fuel h d object = Some (Some o) →
        find_object (S fuel) h this object = Some (Some o)) ∧
     (∀ fuel,
        Forall (λ d, find_object fuel h d object = Some None) (derivatives_ ci) →
        find_object (S fuel) h this object = Some None)) ∧
  (∀ pb cb pc cc o fuel,
     objects_ ci !! object = None → derivatives_ ci = [pb] →
     h !! pb = Some cb → objects_ cb !! object = None → derivatives_ cb = [pc] →
     h !! pc = Some cc → objects_ cc !! object = Some (Some o) →
     (3 ≤ fuel)%nat →
     find_object fuel h this object = Some (Some o) ∧
     find_object fuel h pc object = Some (Some o)).
Proof.
  intros Hthis. split; [|split].
  - intros hdl fuel Hobj. simpl. rewrite Hthis. simpl. by rewrite Hobj.
  - intros Hobj. split.
    + intros fuel l1 d l2 o. by apply find_object_first.
    + intros fuel Hall. simpl. rewrite Hthis. simpl. rewrite Hobj.
      by apply find_in_derivatives_empty.
  - intros pb cb pc cc o fuel Hobj Hds Hpb Hobjb Hdsb Hpc Hobjc Hfuel.
    assert (find_object 1 h pc object = Some (Some o)) as Hc.
    { simpl. rewrite Hpc. simpl. by rewrite Hobjc. }
    split; [|apply (find_object_mono 1); [lia|done]].
    apply (find_object_mono 3); [done|].
    apply (find_object_first 2 h this ci object [] pb []); [done..|].
    by apply (find_object_first 1 h pb cb object [] pc []).
Qed.

Lemma find_object_searches_derivatives_witness :
  Examples.c_b_a_wrapped !! 1 = Some (set_derivatives (new_class_info 0) [2]) ∧
  find_object 3 Examples.c_b_a_wrapped 1 500 = Some (Some 7%nat) ∧
  find_object 3 Examples.c_b_a_wrapped 3 500 = Some (Some 7%nat).
Proof.
  assert (Examples.c_b_a_wrapped !! 1 = Some (set_derivatives (new_class_info 0) [2]))
    as H1 by (vm_compute; reflexivity).
  split; [exact H1|].
  destruct (find_object_searches_derivatives Examples.c_b_a_wrapped 1 _ 500 H1)
    as (_ & _ & H3).
  eapply (H3 2 _ 3 _ 7%nat 3%nat); first [lia | vm_compute; reflexivity].
Defined.

(** C7, as stated, fails on three inputs.  With asserts compiled out,
    removing an address that no registry holds returns normally and
    changes nothing, and registering an address a second time returns
    normally and keeps the first entry.  In any build, after the address
    500 is removed from the registry of B, [find_object] on B still
    returns a handle: the one registered for the derivative C. *)
Lemma registry_fail_fast_counterexample :
  remove_object (S := unit) true 1 500 None Examples.three tt
    = Some (Ok tt, Examples.three, tt) ∧
  add_object true 3 500 (Some 9%nat) Examples.c_b_a_wrapped
    = Some (Ok tt, Examples.c_b_a_wrapped) ∧
  ∃ h', remove_object (S := unit) false 2 500 None Examples.twice tt = Some (Ok tt, h', tt) ∧
        find_object 2 h' 2 500 = Some (Some 5%nat).
Proof.
  split; [vm_compute; reflexivity|]. split; [vm_compute; reflexivity|].
  eexists. split; vm_compute; reflexivity.
Qed.

(** C7, amended.  For the object [ci] at [this] and an address [object]:
    - [add_object] on an address that is registered stops in the failed
      assert; with asserts compiled out it returns normally; the store is
      unchanged either way;
    - [add_object] on an address that is not registered adds the entry;
    - [remove_object] on an address that is not registered stops in the
      failed assert; with asserts compiled out it returns normally; the
      store and the native side are unchanged either way;
    - [remove_object] on a registered address returns normally, after the
      destroy callback if there is one; the address is then not in the map
      of this object, and [find_object] for it is empty whenever every
      derivative gives an empty result, as when there is no derivative. *)
Theorem registry_add_remove ndebug h this ci object :
  h !! this = Some ci →
  (∀ old hdl, objects_ ci !! object = Some old →
     add_object ndebug this object hdl h = Some (duplicate_object_outcome ndebug, h)) ∧
  (∀ hdl, objects_ ci !! object = None →
     add_object ndebug this object hdl h
       = Some (Ok tt, <[this := set_objects ci (<[object := hdl]> (objects_ ci))]> h)) ∧
  (∀ (Native : Type) (destroy : option (pointer → Native → Native)) (s : Native),
     objects_ ci !! object = None →
     remove_object ndebug this object destroy h s = Some (no_object_outcome ndebug, h, s)) ∧
  (∀ (Native : Type) (destroy : option (pointer → Native → Native)) (s : Native) old,
     objects_ ci !! object = Some old →
     ∃ h' ci',
       remove_object ndebug this object destroy h s
         = Some (Ok tt, h', match destroy with Some d => d object s | None => s end) ∧
       h' !! this = Some ci' ∧
       objects_ ci' !! object = None ∧
       derivatives_ ci' = derivatives_ ci ∧
       (∀ fuel,
          Forall (λ d, find_object fuel h' d object = Some None) (derivatives_ ci) →
          find_object (S fuel) h' this object = Some None)).
Proof.
  intros Hthis. repeat split.
  - intros old hdl Hobj. unfold add_object. rewrite Hthis. simpl. rewrite Hobj.
    by destruct ndebug.
  - intros hdl Hobj. unfold add_object. rewrite Hthis. simpl. rewrite Hobj.
    by destruct ndebug.
  - intros Native destroy s Hobj. unfold remove_object. rewrite Hthis. simpl. rewrite Hobj.
    by destruct ndebug.
  - intros Native destroy s old Hobj.
    exists (<[this := set_objects ci (delete object (objects_ ci))]> h),
           (set_objects ci (delete object (objects_ ci))).
    split; [|split; [|split; [|split]]].
    + unfold remove_object. rewrite Hthis. simpl. rewrite Hobj. by destruct ndebug.
    + by rewrite lookup_insert_eq.
    + simpl. by rewrite lookup_delete_eq.
    + done.
    + intros fuel Hall. simpl. rewrite lookup_insert_eq. simpl.
      rewrite lookup_delete_eq. by apply find_in_derivatives_empty.
Qed.

Lemma registry_add_remove_witness :
  Examples.c_b_a_wrapped !! 3 =
    Some (set_objects (set_bases (new_class_info 2) [BaseClassInfo 2 id])
            {[500 := Some 7%nat]}) ∧
  ∃ h', remove_object (S := unit) false 3 500 None Examples.c_b_a_wrapped tt
          = Some (Ok tt, h', tt) ∧
        find_object 1 h' 3 500 = Some None.
Proof.
  assert (Examples.c_b_a_wrapped !! 3 =
    Some (set_objects (set_bases (new_class_info 2) [BaseClassInfo 2 id])
            {[500 := Some 7%nat]})) as H3 by (vm_compute; reflexivity).
  split; [exact H3|].
  destruct (registry_add_remove false Examples.c_b_a_wrapped 3 _ 500 H3)
    as (_ & _ & _ & Hrem).
  destruct (Hrem unit None tt (Some 7%nat)) as (h' & ci' & Hr & _ & _ & _ & Hfind).
  { vm_compute; reflexivity. }
  exists h'. split; [exact Hr|]. apply (Hfind 0%nat). constructor.
Defined.

End Registry.

(** * Proxy objects *)

Module Proxy.
Import ClassInfo V8 ClassSingleton Hierarchy Prototypes.

(** C2, as stated, fails for an address that is wrapped a second time.
    The first wrap of the address 1000 gives the proxy 2.  With asserts
    compiled out the second wrap returns a new proxy, the object 3 with
    the slots 1000 and [this], but [find_object] of 1000 still returns
    the proxy 2; with asserts compiled in the second wrap returns no proxy,
    it stops in the assert of [add_object]. *)
Lemma wrap_round_trip_counterexample :
  wrap_external_object true 1 1000 Examples.world_A
    = Some (Ok (Some 2%nat), Examples.world_A_wrapped) ∧
  (∃ w', wrap_external_object true 1 1000 Examples.world_A_wrapped
           = Some (Ok (Some 3%nat), w') ∧
         js w' !! 3%nat = Some (MkObject [1000; 1] (Object 0%nat)) ∧
         find_object 1 1 1000 w' = Some (Some 2%nat)) ∧
  (∃ w', wrap_external_object false 1 1000 Examples.world_A_wrapped
           = Some (Abort "duplicate object", w')).
Proof.
  split; [vm_compute; reflexivity|]. split.
  - eexists. split; [vm_compute; reflexivity|]. split; vm_compute; reflexivity.
  - eexists. vm_compute. reflexivity.
Qed.

(** C2, amended.  For a live singleton at [this] (its template gives two
    internal fields) and a native address [wrap] not yet in its registry,
    [wrap_external_object] and [wrap_object] return the handle of a new
    object whose slot 0 holds [wrap] and whose slot 1 holds [this];
    [unwrap_object] of that object at the type of the singleton returns
    [wrap], and [find_object] of [wrap] on the singleton returns the handle
    of the same object. *)
Theorem wrap_round_trip ndebug w this ci wrap :
  singleton_at w this ci → objects_ ci !! wrap = None →
  ∃ o w' obj,
    wrap_external_object ndebug this wrap w = Some (Ok (Some o), w') ∧
    wrap_object ndebug this wrap w
      = Some (Ok (Some o), set_weak w' (weak w' ++ [(o, wrap)])) ∧
    js w !! o = None ∧
    internal_fields obj = [wrap; this] ∧
    ∀ w'', w'' = w' ∨ w'' = set_weak w' (weak w' ++ [(o, wrap)]) →
      js w'' !! o = Some obj ∧
      (∀ fuel cast_fuel,
         (unwrap_object (S fuel) (S cast_fuel) w'' (type_ ci) (Object o)).2 = Some wrap) ∧
      (∀ fuel, find_object (S fuel) this wrap w'' = Some (Some o)).
Proof.
  intros (Hnull & Hthis & [n proto] & Hfunc & Hcount) Hwrap. simpl in Hcount. subst n.
  set (o := fresh (dom (js w))).
  assert (js w !! o = None) as Hfresh.
  { apply not_elem_of_dom, is_fresh. }
  set (obj := MkObject [wrap; this] proto).
  set (jsf := <[o := obj]> (<[o := MkObject [wrap; nullptr] proto]>
               (<[o := MkObject [nullptr; nullptr] proto]> (js w)))).
  set (hf := <[this := set_objects ci (<[wrap := Some o]> (objects_ ci))]> (infos w)).
  exists o, (set_infos (set_js w jsf) hf), obj.
  assert (wrap_external_object ndebug this wrap w
          = Some (Ok (Some o), set_infos (set_js w jsf) hf)) as Hrun.
  { unfold wrap_external_object. rewrite Hfunc. simpl.
    unfold SetAlignedPointerInInternalField. fold o.
    rewrite (lookup_insert_eq (M:=gmap nat)). simpl.
    rewrite (lookup_insert_eq (M:=gmap nat)). simpl.
    unfold on_infos, add_object. simpl. rewrite Hthis. simpl. rewrite Hwrap.
    by destruct ndebug. }
  assert (jsf !! o = Some obj) as Hobj
    by (unfold jsf; apply (lookup_insert_eq (M:=gmap nat))).
  assert (hf !! this = Some (set_objects ci (<[wrap := Some o]> (objects_ ci)))) as Hci
    by (unfold hf; apply lookup_insert_eq).
  clearbody jsf hf.
  split; [exact Hrun|].
  split; [unfold wrap_object; by rewrite Hrun|].
  split; [exact Hfresh|]. split; [done|].
  intros w'' Hw''.
  assert (js w'' = jsf ∧ infos w'' = hf) as [Hjs Hinfos] by (by destruct Hw'' as [->| ->]).
  split; [by rewrite Hjs|]. split.
  - intros fuel cast_fuel. simpl. rewrite Hjs, Hobj. simpl.
    rewrite decide_False by done. rewrite Hinfos, Hci. simpl.
    by rewrite decide_True.
  - intros fuel. unfold find_object. simpl. rewrite Hinfos, Hci. simpl.
    by rewrite lookup_insert_eq.
Qed.

(** The constructor of [class_singleton] makes such a singleton. *)
Lemma new_class_singleton_at type w this w' :
  new_class_singleton type w = (this, w') →
  singleton_at w' this (new_class_info type) ∧ ctor_ w' !! this = None.
Proof.
  unfold new_class_singleton. simpl. intros [= <- <-]. unfold singleton_at. simpl.
  split; [split; [|split]|].
  - pose proof (is_fresh ({[nullptr]} ∪ dom (infos w))) as Hfresh.
    intros Heq. apply Hfresh. rewrite Heq. set_solver.
  - by rewrite lookup_insert_eq.
  - eexists. split; [by rewrite lookup_insert_eq|done].
  - by rewrite lookup_delete_eq.
Qed.

Lemma world_A_singleton :
  singleton_at Examples.world_A 1 (new_class_info 0).
Proof.
  split; [done|]. split; [vm_compute; reflexivity|].
  eexists. split; [vm_compute; reflexivity|reflexivity].
Defined.

Lemma wrap_round_trip_witness :
  singleton_at Examples.world_A 1 (new_class_info 0) ∧
  objects_ (new_class_info 0) !! 1000 = None ∧
  ∃ o w',
    wrap_external_object false 1 1000 Examples.world_A = Some (Ok (Some o), w') ∧
    (unwrap_object 1 1 w' 0 (Object o)).2 = Some 1000 ∧
    find_object 1 1 1000 w' = Some (Some o).
Proof.
  assert (objects_ (new_class_info 0) !! 1000 = None) as Hfree by reflexivity.
  split; [exact world_A_singleton|]. split; [exact Hfree|].
  destruct (wrap_round_trip false Examples.world_A 1 (new_class_info 0) 1000
              world_A_singleton Hfree)
    as (o & w' & obj & Hrun & _ & _ & _ & Hboth).
  destruct (Hboth w' (or_introl eq_refl)) as (_ & Hunwrap & Hfind).
  exists o, w'. split; [exact Hrun|].
  split; [exact (Hunwrap 0%nat 0%nat)|exact (Hfind 0%nat)].
Defined.

(** ** unwrap_object *)

Lemma unwrap_object_trace fuel cast_fuel w class_type v o i :
  (o, i) ∈ (unwrap_object fuel cast_fuel w class_type v).1 →
  on_prototype_chain w v o ∧ two_fields w o ∧ (i < 2)%nat.
Proof.
  revert v. induction fuel as [|fuel IH]; intros [|o0]; simpl;
    try (by intros ?%not_elem_of_nil).
  destruct (js w !! o0) as [obj|] eqn:Ho0; [|by intros ?%not_elem_of_nil].
  assert ((o, i) ∈ (unwrap_object fuel cast_fuel w class_type (prototype obj)).1 ∨
          InternalFieldCount obj = 2%nat ∧ (o, i) ∈ [(o0, 0%nat); (o0, 1%nat)] →
          on_prototype_chain w (Object o0) o ∧ two_fields w o ∧ (i < 2)%nat) as Hcases.
  { intros [Hrec|[Hcount Hin]].
    - apply IH in Hrec as (Hchain & Htwo & Hi).
      split; [by eapply on_chain_up|done].
    - assert (o = o0 ∧ (i < 2)%nat) as [-> Hi].
      { apply elem_of_cons in Hin as [[= -> ->]|Hin]; [split; [done|lia]|].
        apply list_elem_of_singleton in Hin as [= -> ->]. split; [done|lia]. }
      split; [constructor|]. split; [by exists obj|done]. }
  case_decide as Hcount; [|intros Hin; apply Hcases; by left].
  destruct (GetAlignedPointerFromInternalField obj 0) as [ptr|].
  2:{ intros Hin. apply Hcases. right. split; [done|]. set_solver. }
  destruct (GetAlignedPointerFromInternalField obj 1) as [info|].
  2:{ intros Hin. apply Hcases. by right. }
  destruct (unwrap_object fuel cast_fuel w class_type (prototype obj)) as [t r] eqn:Hrec.
  assert ((o, i) ∈ [(o0, 0%nat); (o0, 1%nat)] ++ t →
          on_prototype_chain w (Object o0) o ∧ two_fields w o ∧ (i < 2)%nat) as Hcont.
  { intros Hin. apply Hcases.
    apply elem_of_app in Hin as [Hin|Hin]; [by right|by left]. }
  case_decide as Hinfo; [done|].
  destruct (cast cast_fuel (infos w) info ptr class_type) as [[[] p]|]; simpl.
  - intros Hin. apply Hcases. by right.
  - done.
  - intros Hin. apply Hcases. by right.
Qed.



Lemma unwrap_object_primitive fuel cast_fuel w class_type :
  unwrap_object fuel cast_fuel w class_type Primitive = ([], Some nullptr).
Proof. by destruct fuel. Qed.

Lemma unwrap_object_miss w class_type cast_fuel v l :
  closed (infos w) → acyclic (infos w) → (size (infos w) ≤ cast_fuel)%nat →
  prototype_chain w v l →
  descriptors_live w l →
  (∀ o, o ∈ l → ¬ castable w class_type o) →
  ∀ fuel, (length l ≤ fuel)%nat →
    (unwrap_object fuel cast_fuel w class_type v).2 = Some nullptr.
Proof.
  intros Hclosed Hacyc Hsize Hchain.
  induction Hchain as [|o obj l Ho Hchain IH]; intros Hlive Hmiss fuel Hfuel.
  { by rewrite unwrap_object_primitive. }
  destruct fuel as [|fuel]; simpl in Hfuel; [lia|].
  assert ((unwrap_object fuel cast_fuel w class_type (prototype obj)).2 = Some nullptr)
    as Hrest.
  { apply IH; [| |lia].
    - intros o' obj' ptr' info' Hin. apply Hlive. by right.
    - intros o' Hin. apply Hmiss. by right. }
  simpl. rewrite Ho. case_decide as Hcount; [|done].
  unfold InternalFieldCount in Hcount.
  destruct (internal_fields obj) as [|ptr [|info [|]]] eqn:Hfields; simplify_eq/=.
  unfold GetAlignedPointerFromInternalField. rewrite Hfields. simpl.
  destruct (unwrap_object fuel cast_fuel w class_type (prototype obj)) as [t r].
  simpl in Hrest. subst r.
  case_decide as Hinfo; [done|].
  assert (is_Some (infos w !! info)) as Hinfo'.
  { apply (Hlive o obj ptr info); [by left|done..]. }
  destruct (CastTable.cast_total (infos w) info ptr class_type cast_fuel
              Hclosed Hacyc Hinfo' Hsize) as [[[] p] Hcast]; rewrite Hcast; [|done].
  exfalso. apply (Hmiss o); [by left|].
  apply CastTable.cast_true_chain in Hcast as (l' & q & Hl' & Hq & _).
  exists obj, ptr, info. repeat split; [done..|]. by exists l', q.
Qed.

(** C10, as stated, fails on a proxy of a class that inherits itself.  In
    the world where A is its own base and the proxy 2 wraps an A, no object
    at all has a descriptor that can be cast to the type index 5, the
    descriptor of the proxy is live and the prototype chain of the proxy is
    the two objects 2 and 0; yet [unwrap_object] for the type 5 does not
    yield [nullptr] on the proxy: it gives no result, with any fuel, since
    the [cast] it calls does not return. *)
Lemma unwrap_object_cycle_counterexample :
  Facade.inherit id false 1 "A" 1 Examples.world_A
    = Some (Ok tt, MoreExamples.world_self) ∧
  wrap_external_object false 1 1000 MoreExamples.world_self
    = Some (Ok (Some 2%nat), MoreExamples.world_self_wrapped) ∧
  prototype_chain MoreExamples.world_self_wrapped (Object 2%nat) [2; 0]%nat ∧
  populated (infos MoreExamples.world_self_wrapped) ∧
  descriptors_live MoreExamples.world_self_wrapped [2; 0]%nat ∧
  (∀ o, ¬ castable MoreExamples.world_self_wrapped 5 o) ∧
  ∀ fuel cast_fuel,
    (unwrap_object fuel cast_fuel MoreExamples.world_self_wrapped 5 (Object 2%nat)).2 = None.
Proof.
  assert (infos MoreExamples.world_self_wrapped !! 1 =
    Some (set_objects (set_derivatives (set_bases (new_class_info 0) [BaseClassInfo 1 id]) [1])
            {[1000 := Some 2%nat]})) as H1 by (vm_compute; reflexivity).
  assert (map_Forall (λ _ ci, type_ ci ≠ 5) (infos MoreExamples.world_self_wrapped)) as Hall.
  { apply (bool_decide_unpack _). vm_compute. exact I. }
  assert (∀ fuel ptr, cast fuel (infos MoreExamples.world_self_wrapped) 1 ptr 5 = None)
    as Hcast.
  { induction fuel as [|fuel IH]; intros ptr; simpl; [done|].
    rewrite H1. simpl. by rewrite IH. }
  split; [vm_compute; reflexivity|]. split; [vm_compute; reflexivity|].
  split; [|split; [|split; [|split]]].
  - econstructor; [vm_compute; reflexivity|]. simpl.
    econstructor; [vm_compute; reflexivity|]. simpl.
    constructor.
  - eapply (populated_add_object (infos MoreExamples.world_self) false 1 1000
              (Some 2%nat) (Ok tt)); [|vm_compute; reflexivity].
    eapply (populated_add_base (<[1 := new_class_info 0]> ∅) false 1 1 id (Ok tt));
      [|vm_compute; reflexivity].
    apply populated_new; [apply populated_empty|reflexivity].
  - intros o obj ptr info Hin Hjs Hfields Hinfo.
    apply elem_of_cons in Hin as [->|Hin].
    + vm_compute in Hjs. injection Hjs as <-. simpl in Hfields.
      injection Hfields as <- <-. rewrite H1. by eexists.
    + apply list_elem_of_singleton in Hin as ->.
      vm_compute in Hjs. injection Hjs as <-. discriminate Hfields.
  - intros o (obj & ptr & info & _ & _ & _ & l & q & _ & cq & Hq & Ht).
    by apply (Hall q cq Hq).
  - intros fuel cast_fuel. destruct fuel as [|fuel]; [done|].
    assert (js MoreExamples.world_self_wrapped !! 2%nat
            = Some (MkObject [1000; 1] (Object 0%nat))) as H2
      by (vm_compute; reflexivity).
    simpl. rewrite H2. simpl.
    destruct (unwrap_object fuel cast_fuel MoreExamples.world_self_wrapped 5 (Object 0%nat))
      as [t r].
    by rewrite Hcast.
Qed.

(** C10, amended.  For every value given to [unwrap_object]:
    - an internal field is read only of an object met on the prototype
      chain of the value that has exactly two internal fields, and only at
      index 0 or 1; this holds of every read made, whether or not the call
      returns;
    - a value that is not an object gives [nullptr] with no read at all;
    - when the prototype chain of the value has no two-field object with a
      non-null descriptor that can be cast to the requested type, the call
      returns [nullptr], provided the descriptors are live objects of a
      store whose base links have no cycle. *)
Theorem unwrap_object_reads_proxies_only fuel cast_fuel w class_type v :
  (∀ o i, (o, i) ∈ (unwrap_object fuel cast_fuel w class_type v).1 →
     on_prototype_chain w v o ∧ two_fields w o ∧ (i < 2)%nat) ∧
  (IsObject v = false →
     unwrap_object fuel cast_fuel w class_type v = ([], Some nullptr)) ∧
  (∀ l, prototype_chain w v l → (length l ≤ fuel)%nat →
     populated (infos w) → acyclic (infos w) → (size (infos w) ≤ cast_fuel)%nat →
     descriptors_live w l →
     (∀ o, o ∈ l → ¬ castable w class_type o) →
     (unwrap_object fuel cast_fuel w class_type v).2 = Some nullptr).
Proof.
  split; [|split].
  - intros o i. apply unwrap_object_trace.
  - destruct v; [|done]. intros _. apply unwrap_object_primitive.
  - intros l Hchain Hfuel Hpop Hacyc Hsize Hlive Hmiss.
    apply (unwrap_object_miss w class_type cast_fuel v l); try done.
    by apply CastTable.populated_closed.
Qed.

Lemma world_A_wrapped_populated : populated (infos Examples.world_A_wrapped).
Proof.
  eapply (populated_add_object (<[1 := new_class_info 0]> ∅) false 1 1000 (Some 2%nat) (Ok tt));
    [|vm_compute; reflexivity].
  apply populated_new; [apply populated_empty|reflexivity].
Defined.

Lemma world_A_wrapped_acyclic : acyclic (infos Examples.world_A_wrapped).
Proof.
  apply (CastTable.ranked_acyclic N.to_nat).
  apply (bool_decide_unpack _). vm_compute. exact I.
Defined.

Lemma world_A_wrapped_chain :
  prototype_chain Examples.world_A_wrapped (Object 2) [2; 0]%nat.
Proof.
  econstructor; [vm_compute; reflexivity|]. simpl.
  econstructor; [vm_compute; reflexivity|]. simpl.
  constructor.
Defined.

Lemma world_A_wrapped_live : descriptors_live Examples.world_A_wrapped [2; 0]%nat.
Proof.
  intros o obj ptr info Hin Hjs Hfields Hinfo.
  apply elem_of_cons in Hin as [->|Hin].
  - vm_compute in Hjs. injection Hjs as <-. simpl in Hfields.
    injection Hfields as <- <-. vm_compute. eexists. reflexivity.
  - apply list_elem_of_singleton in Hin as ->.
    vm_compute in Hjs. injection Hjs as <-. discriminate Hfields.
Defined.

Lemma world_A_wrapped_miss o :
  o ∈ [2; 0]%nat → ¬ castable Examples.world_A_wrapped 5 o.
Proof.
  intros Hin (obj & ptr & info & Hjs & Hfields & Hinfo & l & q & Hchain & cq & Hq & Ht).
  apply elem_of_cons in Hin as [->|Hin].
  - vm_compute in Hjs. injection Hjs as <-. simpl in Hfields.
    injection Hfields as <- <-.
    inversion Hchain as [|? b q' l' ? (ci & Hp & Hb & _) _]; subst.
    + vm_compute in Hq. injection Hq as <-. discriminate Ht.
    + vm_compute in Hp. injection Hp as <-. simpl in Hb.
      by apply not_elem_of_nil in Hb.
  - apply list_elem_of_singleton in Hin as ->.
    vm_compute in Hjs. injection Hjs as <-. discriminate Hfields.
Defined.

Lemma unwrap_object_reads_proxies_only_witness :
  prototype_chain Examples.world_A_wrapped (Object 2) [2; 0]%nat ∧
  populated (infos Examples.world_A_wrapped) ∧
  acyclic (infos Examples.world_A_wrapped) ∧
  descriptors_live Examples.world_A_wrapped [2; 0]%nat ∧
  (∀ o, o ∈ [2; 0]%nat → ¬ castable Examples.world_A_wrapped 5 o) ∧
  (unwrap_object 2 1 Examples.world_A_wrapped 5 (Object 2)).2 = Some nullptr.
Proof.
  split; [exact world_A_wrapped_chain|].
  split; [exact world_A_wrapped_populated|].
  split; [exact world_A_wrapped_acyclic|].
  split; [exact world_A_wrapped_live|].
  split; [exact world_A_wrapped_miss|].
  destruct (unwrap_object_reads_proxies_only 2 1 Examples.world_A_wrapped 5 (Object 2))
    as (_ & _ & Hmiss).
  apply (Hmiss [2; 0]%nat).
  - exact world_A_wrapped_chain.
  - simpl. lia.
  - exact world_A_wrapped_populated.
  - exact world_A_wrapped_acyclic.
  - vm_compute. lia.
  - exact world_A_wrapped_live.
  - exact world_A_wrapped_miss.
Defined.

End Proxy.

(** * Construction from script *)

Module Constructor.
Import ClassInfo V8 ClassSingleton.

(** C5. When the singleton of [T] in the isolate has no constructor
    trampoline, [wrap_object(args)] throws "create is not allowed", and the
    callback of the template returns normally: the exception is caught, no
    exception and no failed assert leaves the callback, and the return
    value is the value that [throw_ex] gives for that message, in the state
    [throw_ex] leaves. *)
Theorem construction_without_ctor throw_ex ndebug T iso args w this w1 :
  instance iso T w = Some (this, w1) → ctor_ w1 !! this = None →
  wrap_object_args ndebug this args w1 = Some (Throw "create is not allowed", w1) ∧
  js_func_callback throw_ex ndebug T iso args w
    = Some (Ok (throw_ex iso "create is not allowed" w1).1,
            (throw_ex iso "create is not allowed" w1).2).
Proof.
  intros Hinst Hctor.
  assert (wrap_object_args ndebug this args w1
          = Some (Throw "create is not allowed", w1)) as Hwrap.
  { unfold wrap_object_args. by rewrite Hctor. }
  split; [exact Hwrap|].
  unfold js_func_callback. rewrite Hinst. simpl. rewrite Hwrap. simpl.
  by destruct (throw_ex iso "create is not allowed" w1).
Qed.

Lemma construction_without_ctor_witness :
  instance 1 "A" initial_world = Some (1, Examples.world_A) ∧
  ctor_ Examples.world_A !! 1 = None ∧
  js_func_callback Examples.throw_ex_undefined false "A" 1 [] initial_world
    = Some (Ok Primitive, Examples.world_A).
Proof.
  assert (instance 1 "A" initial_world = Some (1, Examples.world_A)) as Hinst
    by (vm_compute; reflexivity).
  assert (ctor_ Examples.world_A !! 1 = None) as Hctor by (vm_compute; reflexivity).
  split; [exact Hinst|]. split; [exact Hctor|].
  exact (proj2 (construction_without_ctor Examples.throw_ex_undefined false "A" 1 []
                  initial_world 1 Examples.world_A Hinst Hctor)).
Defined.

End Constructor.

(** * The singletons of an isolate *)

Module Directory.
Import ClassInfo V8 ClassSingleton Singletons.

(** While the list of an isolate is in step with the type indices,
    [instance] does what is expected of it: the singleton is stored at
    its index, and the next call returns it again. *)

Lemma instance_known iso T w t l p :
  isolate_data w !! iso = Some l → my_type w !! T = Some t →
  l !! N.to_nat t = Some p →
  instance iso T w = Some (p, w).
Proof.
  intros Hdata HT Hp. unfold instance, class_type. rewrite Hdata, HT.
  apply lookup_lt_Some in Hp as Hlt.
  rewrite decide_True by lia. rewrite Hp. done.
Qed.

(** The first step of [instance]: the list of the isolate, made if the
    data slot is null. *)
Lemma singletons_of_isolate w iso :
  in_step w iso →
  ∃ l w1,
    match isolate_data w !! iso with
    | Some l => (l, w)
    | None => ([], set_isolate_data w (<[iso:=[]]> (isolate_data w)))
    end = (l, w1) ∧
    isolate_data w1 !! iso = Some l ∧ my_type w1 = my_type w ∧
    next_index w1 = next_index w ∧ N.of_nat (length l) = next_index w.
Proof.
  intros (Hlen & _). destruct (isolate_data w !! iso) as [l|] eqn:Hd; simpl in Hlen.
  - by exists l, w.
  - eexists [], _. split; [done|]. simpl. by rewrite lookup_insert_eq.
Qed.

Lemma instance_stored iso T w p w' :
  in_step w iso → instance iso T w = Some (p, w') →
  stored_at_index w' iso T p.
Proof.
  intros Hstep. pose proof Hstep as (Hlen & Hknown). unfold instance.
  destruct (singletons_of_isolate w iso Hstep)
    as (l & w1 & -> & Hdata & Hmy & Hnext & Hl).
  unfold class_type. rewrite Hmy.
  destruct (my_type w !! T) as [t|] eqn:HT.
  - specialize (Hknown T t HT). rewrite decide_True by lia.
    destruct (l !! N.to_nat t) as [q|] eqn:Hq; simpl; [|done].
    intros [= <- <-]. exists t, l. by rewrite Hmy.
  - simpl. rewrite Hnext. rewrite decide_False by lia.
    unfold new_class_singleton. simpl. intros [= <- <-].
    exists (next_index w), (l ++ [fresh ({[nullptr]} ∪ dom (infos w1))]). simpl.
    rewrite !lookup_insert_eq. split; [done|]. split; [done|].
    rewrite lookup_app_r by lia.
    replace (N.to_nat (next_index w) - length l)%nat with 0%nat by lia. done.
Qed.

Lemma instance_stable iso T w p w' :
  in_step w iso → instance iso T w = Some (p, w') →
  instance iso T w' = Some (p, w').
Proof.
  intros Hstep Hinst.
  destruct (instance_stored iso T w p w' Hstep Hinst) as (t & l & HT & Hdata & Hp).
  by apply (instance_known iso T w' t l).
Qed.

Lemma instance_in_step iso T w p w' :
  in_step w iso → next_index w + 1 < UINT_MAX_plus_1 →
  instance iso T w = Some (p, w') → in_step w' iso.
Proof.
  intros Hstep Hmax. pose proof Hstep as (Hlen & Hknown). unfold instance.
  destruct (singletons_of_isolate w iso Hstep)
    as (l & w1 & -> & Hdata & Hmy & Hnext & Hl).
  unfold class_type. rewrite Hmy.
  destruct (my_type w !! T) as [t|] eqn:HT.
  - specialize (Hknown T t HT) as Ht. rewrite decide_True by lia.
    destruct (l !! N.to_nat t) as [q|] eqn:Hq; simpl; [|done].
    intros [= <- <-]. split.
    + rewrite Hdata, Hnext. done.
    + rewrite Hmy, Hnext. done.
  - simpl. rewrite Hnext. rewrite decide_False by lia.
    unfold new_class_singleton. simpl. intros [= <- <-]. split; simpl.
    + rewrite lookup_insert_eq. simpl. rewrite length_app. simpl.
      rewrite N.mod_small by done. lia.
    + intros T' t'. rewrite N.mod_small by done. rewrite lookup_insert.
      case_decide.
      * intros [= <-]. lia.
      * intros Ht'%Hknown. lia.
Qed.

Lemma initial_world_in_step iso : in_step initial_world iso.
Proof. split; [done|]. intros T t. simpl. by rewrite lookup_empty. Qed.

(** C6 fails when a second isolate meets the types in another order.  A
    and B are first used in the isolate 1, so that B has the index 1.  The
    first use of B in the isolate 2 puts its singleton (at 3) at the
    position 0 of the list of that isolate, not at 1; the next call for B
    there makes a second singleton (at 4); the call for A there returns
    the singleton of B, whose type index is 1 and not 0. *)
Theorem instance_in_second_isolate :
  ∃ w3 w4 w5,
    my_type Examples.world_AB !! "A" = Some 0 ∧
    my_type Examples.world_AB !! "B" = Some 1 ∧
    instance 2 "B" Examples.world_AB = Some (3, w3) ∧
    isolate_data w3 !! 2 = Some [3] ∧
    instance 2 "B" w3 = Some (4, w4) ∧
    instance 2 "A" w4 = Some (3, w5) ∧
    type_ <$> infos w5 !! 3 = Some 1.
Proof.
  do 3 eexists.
  split; [vm_compute; reflexivity|]. split; [vm_compute; reflexivity|].
  split; [vm_compute; reflexivity|]. split; [vm_compute; reflexivity|].
  split; [vm_compute; reflexivity|]. split; vm_compute; reflexivity.
Qed.

End Directory.

(** * The store under registration and inheritance *)

Module Store.
Import ClassInfo Hierarchy Invariants MoreExamples.

Lemma same_tables_set_objects h p ci os :
  h !! p = Some ci → same_tables h (<[p := set_objects ci os]> h).
Proof.
  intros Hp q. rewrite lookup_insert. case_decide as Hq; [|done].
  subst q. by rewrite Hp.
Qed.

Lemma cast_direct_same_tables h h' bs ptr t :
  same_tables h h' → cast_direct h' bs ptr t = cast_direct h bs ptr t.
Proof.
  intros Hsame. induction bs as [|b bs IH]; simpl; [done|].
  specialize (Hsame (info b)).
  destruct (h' !! info b) as [bi'|], (h !! info b) as [bi|]; simplify_eq/=; [|done].
  rewrite IH. replace (type_ bi') with (type_ bi) by congruence. done.
Qed.

Lemma cast_walk_ext (rec rec' : pointer → pointer → option (bool * pointer)) bs ptr :
  (∀ q p, rec q p = rec' q p) → cast_walk rec bs ptr = cast_walk rec' bs ptr.
Proof.
  intros Hrec. induction bs as [|b bs IH]; simpl; [done|]. by rewrite Hrec, IH.
Qed.

Lemma cast_same_tables h h' fuel p ptr t :
  same_tables h h' → cast fuel h' p ptr t = cast fuel h p ptr t.
Proof.
  intros Hsame. revert p ptr. induction fuel as [|fuel IH]; intros p ptr; simpl; [done|].
  pose proof (Hsame p) as Hp.
  destruct (h' !! p) as [ci'|], (h !! p) as [ci|]; simplify_eq/=; [|done].
  assert (type_ ci' = type_ ci ∧ bases_ ci' = bases_ ci) as [-> ->] by (split; congruence).
  case_decide; [done|].
  rewrite (cast_direct_same_tables h h') by done.
  destruct (cast_direct h (bases_ ci) ptr t) as [[?|]|]; simpl; try done.
  by apply cast_walk_ext.
Qed.

Lemma add_object_same_tables ndebug this object hdl h r h' :
  add_object ndebug this object hdl h = Some (r, h') → same_tables h h'.
Proof.
  unfold add_object. destruct (h !! this) as [ci|] eqn:Hthis; simpl; [|done].
  destruct (assert_ _ _ _); [|by intros [= <- <-]..].
  destruct (objects_ ci !! object); intros [= <- <-]; [done|].
  by apply same_tables_set_objects.
Qed.

Lemma remove_object_same_tables {S} ndebug this object destroy h (s s' : S) r h' :
  remove_object ndebug this object destroy h s = Some (r, h', s') → same_tables h h'.
Proof.
  unfold remove_object. destruct (h !! this) as [ci|] eqn:Hthis; simpl; [|done].
  destruct (assert_ _ _ _); [|by intros [= <- <- <-]..].
  destruct (objects_ ci !! object); intros [= <- <- <-]; [|done].
  by apply same_tables_set_objects.
Qed.

Lemma remove_objects_same_tables {S} this destroy h (s s' : S) h' :
  remove_objects this destroy h s = Some (h', s') → same_tables h h'.
Proof.
  unfold remove_objects. destruct (h !! this) as [ci|] eqn:Hthis; simpl; [|done].
  intros [= <- <-]. by apply same_tables_set_objects.
Qed.

Lemma same_tables_same_types h h' : same_tables h h' → same_types h h'.
Proof.
  intros Hsame p. specialize (Hsame p).
  destruct (h' !! p), (h !! p); simplify_eq/=; congruence.
Qed.

(** X1. The registry operations leave the cast table alone: whatever
    [add_object], [remove_object] or [remove_objects] returns, every [cast]
    gives, in the store they leave, the result it gave before with the same
    fuel. *)
Theorem cast_unchanged_by_registry fuel h p ptr type :
  (∀ ndebug this object hdl r h',
     add_object ndebug this object hdl h = Some (r, h') →
     cast fuel h' p ptr type = cast fuel h p ptr type) ∧
  (∀ (Native : Type) ndebug this object destroy (s s' : Native) r h',
     remove_object ndebug this object destroy h s = Some (r, h', s') →
     cast fuel h' p ptr type = cast fuel h p ptr type) ∧
  (∀ (Native : Type) this destroy (s s' : Native) h',
     remove_objects this destroy h s = Some (h', s') →
     cast fuel h' p ptr type = cast fuel h p ptr type).
Proof.
  split; [|split].
  - intros ndebug this object hdl r h' Hadd.
    by apply cast_same_tables, (add_object_same_tables ndebug this object hdl h r).
  - intros Native ndebug this object destroy s s' r h' Hrem.
    by apply cast_same_tables, (remove_object_same_tables ndebug this object destroy h s s' r).
  - intros Native this destroy s s' h' Hrem.
    by apply cast_same_tables, (remove_objects_same_tables this destroy h s s').
Qed.

Lemma cast_unchanged_by_registry_witness :
  add_object true 3 500 (Some 7%nat) Examples.single_c_b_a
    = Some (Ok tt, Examples.c_b_a_wrapped) ∧
  cast 3 Examples.c_b_a_wrapped 3 100 0 = cast 3 Examples.single_c_b_a 3 100 0.
Proof.
  assert (add_object true 3 500 (Some 7%nat) Examples.single_c_b_a
          = Some (Ok tt, Examples.c_b_a_wrapped)) as Hadd by (vm_compute; reflexivity).
  split; [exact Hadd|].
  exact (proj1 (cast_unchanged_by_registry 3 Examples.single_c_b_a 3 100 0)
           true 3 500 (Some 7%nat) (Ok tt) Examples.c_b_a_wrapped Hadd).
Defined.

(** What a normal return of [add_base] has done. *)
Lemma add_base_Ok ndebug this target f h h' :
  add_base ndebug this target f h = Some (Ok tt, h') →
  ∃ ci ti1,
    h !! this = Some ci ∧ has_base (bases_ ci) target = false ∧
    <[this := set_bases ci (bases_ ci ++ [BaseClassInfo target f])]> h !! target = Some ti1 ∧
    h' = <[target := set_derivatives ti1 (derivatives_ ti1 ++ [this])]>
           (<[this := set_bases ci (bases_ ci ++ [BaseClassInfo target f])]> h).
Proof.
  unfold add_base. destruct (h !! this) as [ci|] eqn:Hthis; simpl; [|done].
  destruct (has_base (bases_ ci) target) eqn:Hdup.
  { by destruct ndebug. }
  destruct (_ !! target) as [ti1|] eqn:Htarget; simpl; [|done].
  intros [= <-]. by exists ci, ti1.
Qed.

Lemma add_base_failed ndebug this target f h r h' :
  add_base ndebug this target f h = Some (r, h') → r ≠ Ok tt → h' = h.
Proof.
  unfold add_base. destruct (h !! this) as [ci|] eqn:Hthis; simpl; [|done].
  destruct (has_base (bases_ ci) target) eqn:Hdup.
  { destruct ndebug; by intros [= <- <-]. }
  destruct (_ !! target) as [ti1|] eqn:Htarget; simpl; [|done].
  by intros [= <- <-].
Qed.

Lemma add_base_extends ndebug this target f h r h' p ci :
  add_base ndebug this target f h = Some (r, h') → h !! p = Some ci →
  ∃ ci', h' !! p = Some ci' ∧ extends ci ci'.
Proof.
  intros Hadd Hp.
  destruct r as [[]|what|msg];
    [|rewrite (add_base_failed _ _ _ _ _ _ _ Hadd); [by exists ci|done]..].
  apply add_base_Ok in Hadd as (ci0 & ti1 & Hthis & _ & Hti1 & ->).
  set (ci1 := set_bases ci0 (bases_ ci0 ++ [BaseClassInfo target f])) in *.
  assert (∃ c1, <[this:=ci1]> h !! p = Some c1 ∧ extends ci c1) as (c1 & Hc1 & Hext1).
  { rewrite lookup_insert. case_decide as Hq.
    - subst p. rewrite Hthis in Hp. injection Hp as <-. exists ci1. split; [done|].
      repeat split; simpl; [by apply prefix_app_r|done].
    - by exists ci. }
  rewrite lookup_insert. case_decide as Hq.
  - subst p. rewrite Hti1 in Hc1. injection Hc1 as <-. eexists. split; [done|].
    destruct Hext1 as (? & ? & ? & ?). repeat split; simpl; try done.
    by apply prefix_app_r.
  - by exists c1.
Qed.

Lemma add_base_dom ndebug this target f h r h' :
  add_base ndebug this target f h = Some (r, h') → dom h' = dom h.
Proof.
  intros Hadd.
  destruct r as [[]|what|msg];
    [|by rewrite (add_base_failed _ _ _ _ _ _ _ Hadd)..].
  apply add_base_Ok in Hadd as (ci0 & ti1 & Hthis & _ & Hti1 & ->).
  rewrite !dom_insert_L.
  apply elem_of_dom_2 in Hthis. apply elem_of_dom_2 in Hti1.
  rewrite dom_insert_L in Hti1. set_solver.
Qed.

Lemma add_base_same_types ndebug this target f h r h' :
  add_base ndebug this target f h = Some (r, h') → same_types h h'.
Proof.
  intros Hadd p. destruct (h !! p) as [ci|] eqn:Hp.
  - destruct (add_base_extends _ _ _ _ _ _ _ p ci Hadd Hp) as (ci' & -> & Hty & _).
    simpl. by rewrite Hty.
  - apply add_base_dom in Hadd. apply not_elem_of_dom in Hp. rewrite <-Hadd in Hp.
    apply not_elem_of_dom in Hp. by rewrite Hp.
Qed.

(** X2. [add_base] only appends: whatever it returns, the store has the
    same live objects, every object keeps its type index and its registry,
    and its bases and its derivatives from before are a prefix of the new
    ones. *)
Theorem add_base_only_appends ndebug this target f h r h' :
  add_base ndebug this target f h = Some (r, h') →
  dom h' = dom h ∧
  ∀ p ci, h !! p = Some ci → ∃ ci', h' !! p = Some ci' ∧ extends ci ci'.
Proof.
  intros Hadd. split; [by eapply add_base_dom|].
  intros p ci. by eapply add_base_extends.
Qed.

Lemma add_base_only_appends_witness :
  add_base true 3 2 Examples.C_to_B Examples.three = Some (Ok tt, Examples.c_b) ∧
  dom Examples.c_b = dom Examples.three.
Proof.
  assert (add_base true 3 2 Examples.C_to_B Examples.three = Some (Ok tt, Examples.c_b))
    as Hadd by (vm_compute; reflexivity).
  split; [exact Hadd|].
  exact (proj1 (add_base_only_appends true 3 2 Examples.C_to_B Examples.three (Ok tt)
                  Examples.c_b Hadd)).
Defined.

Lemma three_populated : populated Examples.three.
Proof.
  repeat (apply populated_new; [|vm_compute; reflexivity]). apply populated_empty.
Defined.

(** The cast along a base link that [add_base] has just made. *)
Lemma cast_added_base ndebug h this target f ci ti h' ptr fuel :
  populated h → h !! this = Some ci → h !! target = Some ti →
  add_base ndebug this target f h = Some (Ok tt, h') →
  type_ ti ≠ type_ ci →
  Forall (λ b, ¬ has_type h (info b) (type_ ti)) (bases_ ci) →
  cast (S fuel) h' this ptr (type_ ti) = Some (true, f ptr).
Proof.
  intros Hpop Hthis Htarget Hadd Hne Hnone.
  pose proof (CastTable.populated_closed h Hpop) as Hclosed.
  destruct (Hclosed this ci Hthis) as [Hlive _].
  destruct (add_base_extends _ _ _ _ _ _ _ target ti Hadd Htarget) as (ti' & Hti' & Htt & _).
  apply add_base_Ok in Hadd as Hinv.
  destruct Hinv as (ci0 & ti1 & Hthis0 & _ & Hti1 & Hh').
  assert (ci0 = ci) as -> by congruence.
  assert (∃ ci', h' !! this = Some ci' ∧ type_ ci' = type_ ci ∧
            bases_ ci' = bases_ ci ++ [BaseClassInfo target f]) as (ci' & Hci' & Hty & Hbs).
  { rewrite Hh'. rewrite lookup_insert. case_decide as Hq.
    - subst target. rewrite lookup_insert_eq in Hti1. injection Hti1 as <-.
      eexists. split; [done|]. done.
    - rewrite lookup_insert_eq. eexists. split; [done|]. done. }
  simpl. rewrite Hci'. simpl. rewrite decide_False by congruence.
  rewrite Hbs. erewrite (CastTable.cast_direct_found h' (bases_ ci) (BaseClassInfo target f) []);
    [done| |exact Hti'|done].
  rewrite Forall_forall in Hnone. apply Forall_forall. intros b Hb.
  destruct (Hlive b Hb) as [bi Hbi].
  destruct (add_base_extends _ _ _ _ _ _ _ (info b) bi Hadd Hbi) as (bi' & Hbi' & Hbt & _).
  exists bi'. split; [done|]. rewrite Hbt. intros Heq.
  apply (Hnone b Hb). by exists bi.
Qed.

(** X3. In a store built by the operations, after [add_base] has returned
    normally for a target of another type index than [this], when no base
    [this] had before is of that type index, [cast] from [this] to the type
    of the target succeeds with any fuel of at least one, and gives the
    address adjusted by the function registered with the link. *)
Theorem cast_to_added_base ndebug h this target f ci ti h' ptr fuel :
  populated h → h !! this = Some ci → h !! target = Some ti →
  add_base ndebug this target f h = Some (Ok tt, h') →
  type_ ti ≠ type_ ci →
  Forall (λ b, ¬ has_type h (info b) (type_ ti)) (bases_ ci) →
  cast (S fuel) h' this ptr (type_ ti) = Some (true, f ptr).
Proof. apply cast_added_base. Qed.

Lemma cast_to_added_base_witness :
  populated Examples.three ∧
  Examples.three !! 3 = Some (new_class_info 2) ∧
  Examples.three !! 2 = Some (new_class_info 1) ∧
  add_base true 3 2 Examples.C_to_B Examples.three = Some (Ok tt, Examples.c_b) ∧
  cast 1 Examples.c_b 3 100 1 = Some (true, 108).
Proof.
  assert (Examples.three !! 3 = Some (new_class_info 2)) as H3 by (vm_compute; reflexivity).
  assert (Examples.three !! 2 = Some (new_class_info 1)) as H2 by (vm_compute; reflexivity).
  assert (add_base true 3 2 Examples.C_to_B Examples.three = Some (Ok tt, Examples.c_b))
    as Hadd by (vm_compute; reflexivity).
  split; [exact three_populated|]. split; [exact H3|]. split; [exact H2|].
  split; [exact Hadd|].
  apply (cast_to_added_base true Examples.three 3 2 Examples.C_to_B
           (new_class_info 2) (new_class_info 1) Examples.c_b 100 0 three_populated H3 H2 Hadd).
  - discriminate.
  - constructor.
Defined.

Lemma set_objects_same ci : set_objects ci (objects_ ci) = ci.
Proof. by destruct ci. Qed.

Lemma set_objects_twice ci os os' : set_objects (set_objects ci os) os' = set_objects ci os'.
Proof. done. Qed.

Lemma remove_after_add (Native : Type) ndebug h this ci object hdl
    (destroy : option (pointer → Native → Native)) (s : Native) :
  h !! this = Some ci → objects_ ci !! object = None →
  remove_object ndebug this object destroy
      (<[this := set_objects ci (<[object := hdl]> (objects_ ci))]> h) s
    = Some (Ok tt, h, match destroy with Some d => d object s | None => s end).
Proof.
  intros Hthis Hobj. unfold remove_object. rewrite lookup_insert_eq. simpl.
  rewrite lookup_insert_eq.
  assert (assert_ ndebug (bool_decide (Some hdl ≠ None)) "no object" = Ok tt) as ->
    by (by destruct ndebug).
  rewrite insert_insert_eq, set_objects_twice, delete_insert_id by done.
  by rewrite set_objects_same, insert_id.
Qed.

Lemma remove_absent (Native : Type) ndebug h this ci object
    (destroy : option (pointer → Native → Native)) (s : Native) :
  h !! this = Some ci → objects_ ci !! object = None →
  remove_object ndebug this object destroy h s = Some (no_object_outcome ndebug, h, s).
Proof.
  intros Hthis Hobj. unfold remove_object. rewrite Hthis. simpl. rewrite Hobj.
  by destruct ndebug.
Qed.

(** X4. For an address the object has not registered: [add_object] returns
    normally; [find_object] then gives the handle; [remove_object] then
    returns normally, gives the store back as it was, and has called the
    destroy function, if one is given, once, on that address. *)
Theorem add_then_remove_object (Native : Type) ndebug h this ci object hdl
    (destroy : option (pointer → Native → Native)) (s : Native) :
  h !! this = Some ci → objects_ ci !! object = None →
  ∃ h1,
    add_object ndebug this object hdl h = Some (Ok tt, h1) ∧
    find_object 1 h1 this object = Some hdl ∧
    remove_object ndebug this object destroy h1 s
      = Some (Ok tt, h, match destroy with Some d => d object s | None => s end).
Proof.
  intros Hthis Hobj.
  exists (<[this := set_objects ci (<[object := hdl]> (objects_ ci))]> h).
  split; [|split].
  - unfold add_object. rewrite Hthis. simpl. rewrite Hobj. by destruct ndebug.
  - simpl. rewrite lookup_insert_eq. simpl. by rewrite lookup_insert_eq.
  - unfold remove_object. rewrite lookup_insert_eq. simpl.
    rewrite lookup_insert_eq.
    assert (assert_ ndebug (bool_decide (Some hdl ≠ None)) "no object" = Ok tt) as ->
      by (by destruct ndebug).
    rewrite insert_insert_eq, set_objects_twice, delete_insert_id by done.
    by rewrite set_objects_same, insert_id.
Qed.

Lemma add_then_remove_object_witness :
  Examples.three !! 3 = Some (new_class_info 2) ∧
  objects_ (new_class_info 2) !! 500 = None ∧
  ∃ h1,
    add_object false 3 500 (Some 7%nat) Examples.three = Some (Ok tt, h1) ∧
    ClassInfo.find_object 1 h1 3 500 = Some (Some 7%nat) ∧
    remove_object false 3 500 (Some log_destroy) h1 [] = Some (Ok tt, Examples.three, [500]).
Proof.
  assert (Examples.three !! 3 = Some (new_class_info 2)) as H3 by (vm_compute; reflexivity).
  assert (objects_ (new_class_info 2) !! 500 = None) as Hfree by reflexivity.
  split; [exact H3|]. split; [exact Hfree|].
  exact (add_then_remove_object (list pointer) false Examples.three 3 (new_class_info 2) 500
           (Some 7%nat) (Some log_destroy) [] H3 Hfree).
Defined.

(** What [remove_objects] does on a live object. *)
Lemma remove_objects_run (Native : Type) h this ci
    (destroy : pointer → Native → Native) (s : Native) :
  h !! this = Some ci →
  remove_objects this (Some destroy) h s
    = Some (<[this := set_objects ci ∅]> h,
            foldl (λ acc a, destroy a acc) s (map_to_list (objects_ ci)).*1).
Proof.
  intros Hthis. unfold remove_objects. rewrite Hthis. simpl. do 2 f_equal.
  generalize (map_to_list (objects_ ci)). intros l. revert s.
  induction l as [|[a x] l IH]; intros s; simpl; [done|]. apply IH.
Qed.

(** X5. [remove_objects] on a live object returns; the destroy function
    has run once for every registered address and for no other, in some
    order; the registry of the object is empty and every other object is
    unchanged; when the object has no derivatives, [find_object] on it then
    finds nothing. *)
Theorem remove_objects_destroys_each_once (Native : Type) h this ci
    (destroy : pointer → Native → Native) (s : Native) :
  h !! this = Some ci →
  ∃ h' l,
    remove_objects this (Some destroy) h s = Some (h', foldl (λ acc a, destroy a acc) s l) ∧
    NoDup l ∧ (∀ a, a ∈ l ↔ is_Some (objects_ ci !! a)) ∧
    h' !! this = Some (set_objects ci ∅) ∧
    (∀ p, p ≠ this → h' !! p = h !! p) ∧
    (∀ object, derivatives_ ci = [] → find_object 1 h' this object = Some None).
Proof.
  intros Hthis.
  exists (<[this := set_objects ci ∅]> h), ((map_to_list (objects_ ci)).*1).
  split; [|split; [|split; [|split; [|split]]]].
  - unfold remove_objects. rewrite Hthis. simpl. do 2 f_equal.
    generalize (map_to_list (objects_ ci)). intros l. revert s.
    induction l as [|[a x] l IH]; intros s; simpl; [done|]. apply IH.
  - apply NoDup_fst_map_to_list.
  - intros a. rewrite list_elem_of_fmap. split.
    + intros ([a' x] & -> & Hin%elem_of_map_to_list). by exists x.
    + intros [x Hx]. exists (a, x). split; [done|]. by apply elem_of_map_to_list.
  - by rewrite lookup_insert_eq.
  - intros p Hp. by rewrite lookup_insert_ne.
  - intros object Hds. simpl. rewrite lookup_insert_eq. simpl.
    rewrite lookup_empty, Hds. done.
Qed.

Lemma remove_objects_destroys_each_once_witness :
  Examples.c_b_a_wrapped !! 3 =
    Some (set_objects (set_bases (new_class_info 2) [BaseClassInfo 2 id])
            {[500 := Some 7%nat]}) ∧
  ∃ h' l,
    remove_objects 3 (Some log_destroy) Examples.c_b_a_wrapped []
      = Some (h', foldl (λ acc a, log_destroy a acc) [] l) ∧
    NoDup l ∧ (∀ object, ClassInfo.find_object 1 h' 3 object = Some None).
Proof.
  assert (Examples.c_b_a_wrapped !! 3 =
    Some (set_objects (set_bases (new_class_info 2) [BaseClassInfo 2 id])
            {[500 := Some 7%nat]})) as H3 by (vm_compute; reflexivity).
  split; [exact H3|].
  destruct (remove_objects_destroys_each_once (list pointer) Examples.c_b_a_wrapped 3 _
              log_destroy [] H3) as (h' & l & Hrun & Hnodup & _ & _ & _ & Hfind).
  exists h', l. split; [exact Hrun|]. split; [exact Hnodup|].
  intros object. apply Hfind. reflexivity.
Defined.

Lemma links_to_has_base cp q : links_to cp q ↔ has_base (bases_ cp) q = true.
Proof. symmetry. apply CastTable.has_base_true. Qed.

Lemma links_to_fmap cp q : links_to cp q ↔ q ∈ info <$> bases_ cp.
Proof.
  rewrite list_elem_of_fmap. split.
  - intros (b & Hb & <-). by exists b.
  - intros (b & -> & Hb). by exists b.
Qed.

Lemma add_link_id this target f p ci :
  p ≠ this → p ≠ target → add_link this target f p ci = ci.
Proof.
  intros H1 H2. unfold add_link. rewrite !decide_False by done.
  rewrite !app_nil_r. by destruct ci.
Qed.

(** The store after a normal return of [add_base], object by object. *)
Lemma add_base_Ok_lookup ndebug this target f h h' :
  add_base ndebug this target f h = Some (Ok tt, h') →
  (∃ ci, h !! this = Some ci ∧ ¬ links_to ci target) ∧
  is_Some (h !! target) ∧
  ∀ p, h' !! p = add_link this target f p <$> h !! p.
Proof.
  unfold add_base. destruct (h !! this) as [ci|] eqn:Hthis; simpl; [|done].
  destruct (has_base (bases_ ci) target) eqn:Hdup.
  { by destruct ndebug. }
  destruct (_ !! target) as [ti1|] eqn:Htarget; simpl; [|done].
  intros [= <-]. split; [|split].
  - exists ci. split; [done|]. rewrite links_to_has_base. by rewrite Hdup.
  - rewrite lookup_insert in Htarget. case_decide; [subst; by eexists|by eexists].
  - intros p. rewrite lookup_insert in Htarget.
    destruct (decide (p = target)) as [->|Hpt].
    + rewrite lookup_insert_eq. destruct (decide (this = target)) as [Htt|Htt].
      * subst target. injection Htarget as <-. rewrite Hthis. simpl.
        unfold add_link. by rewrite !decide_True.
      * rewrite Htarget. simpl. unfold add_link.
        rewrite decide_False, decide_True by done. by rewrite app_nil_r.
    + rewrite lookup_insert_ne by done. clear Htarget.
      rewrite lookup_insert. destruct (decide (this = p)) as [Hpthis|Hpthis].
      * subst p. rewrite Hthis. simpl. unfold add_link.
        rewrite decide_True, decide_False by done. by rewrite app_nil_r.
      * destruct (h !! p) as [cp|]; simpl; [|done]. by rewrite add_link_id.
Qed.

Lemma linked_set_objects h p ci os :
  linked h → h !! p = Some ci → linked (<[p := set_objects ci os]> h).
Proof.
  intros [Hmirror Hnodup] Hp.
  assert (∀ q cq', <[p := set_objects ci os]> h !! q = Some cq' →
            ∃ cq, h !! q = Some cq ∧ bases_ cq' = bases_ cq ∧
                  derivatives_ cq' = derivatives_ cq) as Hback.
  { intros q cq'. rewrite lookup_insert. case_decide.
    - intros [= <-]. subst q. by exists ci.
    - intros Hq. by exists cq'. }
  split.
  - intros q1 q2 c1' c2' (c1 & H1 & Hb1 & _)%Hback (c2 & H2 & _ & Hd2)%Hback.
    unfold links_to. rewrite Hb1, Hd2. by apply Hmirror.
  - intros q cq' (cq & Hq & -> & ->)%Hback. by apply (Hnodup q).
Qed.

Lemma add_base_linked ndebug this target f h r h' :
  linked h → add_base ndebug this target f h = Some (r, h') → linked h'.
Proof.
  intros Hlinked Hadd.
  destruct r as [[]|what|msg];
    [|by rewrite (add_base_failed _ _ _ _ _ _ _ Hadd)..].
  destruct Hlinked as [Hmirror Hnodup].
  apply add_base_Ok_lookup in Hadd as ((ci & Hthis & Hnew) & [ti Htarget] & Hlook).
  assert (∀ p cp', h' !! p = Some cp' →
            ∃ cp, h !! p = Some cp ∧ cp' = add_link this target f p cp) as Hback.
  { intros p cp'. rewrite Hlook. destruct (h !! p) as [cp|]; simpl; [|done].
    intros [= <-]. by exists cp. }
  assert (∀ p cp q, links_to (add_link this target f p cp) q ↔
            links_to cp q ∨ (p = this ∧ q = target)) as Hlinks.
  { intros p cp q. rewrite !links_to_fmap. simpl. rewrite fmap_app, elem_of_app.
    case_decide; simpl; set_solver. }
  assert (∀ p q cq, p ∈ derivatives_ (add_link this target f q cq) ↔
            p ∈ derivatives_ cq ∨ (p = this ∧ q = target)) as Hders.
  { intros p q cq. simpl. rewrite elem_of_app. case_decide; simpl; set_solver. }
  split.
  - intros p q cp' cq' (cp & Hp & ->)%Hback (cq & Hq & ->)%Hback.
    rewrite Hlinks, Hders. by rewrite (Hmirror p q cp cq).
  - intros p cp' (cp & Hp & ->)%Hback. destruct (Hnodup p cp Hp) as [Hb Hd].
    split; simpl.
    + rewrite fmap_app. case_decide as Hpt; simpl; [|by rewrite app_nil_r].
      subst p. assert (cp = ci) as -> by congruence.
      apply NoDup_app. split; [done|]. split; [|apply NoDup_singleton].
      intros q Hq ->%list_elem_of_singleton. by apply Hnew, links_to_fmap.
    + case_decide as Hpt; simpl; [|by rewrite app_nil_r].
      subst p. apply NoDup_app. split; [done|]. split; [|apply NoDup_singleton].
      intros q Hq ->%list_elem_of_singleton.
      apply Hnew. by apply (Hmirror this target ci cp).
Qed.

Lemma populated_linked h : populated h → linked h.
Proof.
  intros Hpop. pose proof (CastTable.populated_closed h Hpop) as Hclosed_final.
  clear Hclosed_final.
  induction Hpop as [|h p t Hpop IH Hp|h ndebug this target f r h' _ IH Hadd
                  |h ndebug this object hdl r h' _ IH Hadd
                  |S h ndebug this object destroy s s' r h' _ IH Hrem
                  |S h this destroy s s' h' _ IH Hrem].
  - split; intros p; intros; by rewrite lookup_empty in *.
  - pose proof (CastTable.populated_closed h Hpop) as Hclosed.
    destruct IH as [Hmirror Hnodup]. split.
    + intros q1 q2 c1 c2. rewrite !lookup_insert.
      case_decide as H1; case_decide as H2; intros ? ?; simplify_eq/=.
      * split; [intros (b & Hb & _); by apply not_elem_of_nil in Hb|].
        by intros ?%not_elem_of_nil.
      * split; [intros (b & Hb & _); by apply not_elem_of_nil in Hb|].
        intros Hin. destruct (Hclosed q2 c2) as [_ Hd]; [done|].
        destruct (Hd _ Hin) as [? ?]. congruence.
      * split; [|by intros ?%not_elem_of_nil].
        intros (b & Hb & Hinfo). destruct (Hclosed q1 c1) as [Hbl _]; [done|].
        destruct (Hbl _ Hb) as [? ?]. congruence.
      * by apply Hmirror.
    + intros q cq. rewrite lookup_insert. case_decide.
      * intros [= <-]. simpl. split; apply NoDup_nil_2.
      * apply Hnodup.
  - by eapply add_base_linked.
  - unfold add_object in Hadd.
    destruct (h !! this) as [ci|] eqn:Hthis; simpl in Hadd; [|done].
    destruct (assert_ _ _ _); [|by injection Hadd as <- <-|by injection Hadd as <- <-].
    destruct (objects_ ci !! object); injection Hadd as <- <-; [done|].
    by apply linked_set_objects.
  - unfold remove_object in Hrem.
    destruct (h !! this) as [ci|] eqn:Hthis; simpl in Hrem; [|done].
    destruct (assert_ _ _ _); [|by injection Hrem as <- <- <-|by injection Hrem as <- <- <-].
    destruct (objects_ ci !! object); injection Hrem as <- <- <-; [|done].
    by apply linked_set_objects.
  - unfold remove_objects in Hrem.
    destruct (h !! this) as [ci|] eqn:Hthis; simpl in Hrem; [|done].
    injection Hrem as <- <-. by apply linked_set_objects.
Qed.

(** X6. In a store built by the operations, an object has no two base
    links to the same target and no derivative twice; the targets of its
    base links are exactly the live objects that have it among their
    derivatives, and its derivatives are exactly the live objects with a
    base link to it. *)
Theorem links_mirrored h p cp :
  populated h → h !! p = Some cp →
  NoDup (info <$> bases_ cp) ∧ NoDup (derivatives_ cp) ∧
  (∀ q, links_to cp q ↔ ∃ cq, h !! q = Some cq ∧ p ∈ derivatives_ cq) ∧
  (∀ d, d ∈ derivatives_ cp ↔ ∃ cd, h !! d = Some cd ∧ links_to cd p).
Proof.
  intros Hpop Hp. pose proof (CastTable.populated_closed h Hpop) as Hclosed.
  destruct (populated_linked h Hpop) as [Hmirror Hnodup].
  destruct (Hnodup p cp Hp) as [Hb Hd]. destruct (Hclosed p cp Hp) as [Hbl Hdl].
  split; [done|]. split; [done|]. split.
  - intros q. split.
    + intros Hq. destruct Hq as (b & Hin & Hinfo).
      destruct (Hbl b Hin) as [cq Hcq]. rewrite Hinfo in Hcq.
      exists cq. split; [done|]. apply (Hmirror p q cp cq); [done..|]. by exists b.
    + intros (cq & Hq & Hin). by apply (Hmirror p q cp cq).
  - intros d. split.
    + intros Hin. destruct (Hdl d Hin) as [cd Hcd].
      exists cd. split; [done|]. by apply (Hmirror d p cd cp).
    + intros (cd & Hcd & Hl). by apply (Hmirror d p cd cp).
Qed.

Lemma links_mirrored_witness :
  populated Examples.c_b_a ∧
  Examples.c_b_a !! 2 =
    Some (set_derivatives (set_bases (new_class_info 1) [BaseClassInfo 1 Examples.B_to_A]) [3]) ∧
  (∀ d, d ∈ [3] ↔ ∃ cd, Examples.c_b_a !! d = Some cd ∧ links_to cd 2).
Proof.
  assert (Examples.c_b_a !! 2 =
    Some (set_derivatives (set_bases (new_class_info 1) [BaseClassInfo 1 Examples.B_to_A]) [3]))
    as H2 by (vm_compute; reflexivity).
  split; [exact CastTable.c_b_a_populated|]. split; [exact H2|].
  exact (proj2 (proj2 (proj2 (links_mirrored Examples.c_b_a 2 _ CastTable.c_b_a_populated H2)))).
Defined.

Lemma find_in_derivatives_total (rec : pointer → option handle) ds :
  (∀ d, d ∈ ds → is_Some (rec d)) → is_Some (find_in_derivatives rec ds).
Proof.
  induction ds as [|d ds IH]; simpl; intros Hds; [by eexists|].
  destruct (Hds d) as [[o|] Hd]; [by left| |]; rewrite Hd; simpl; [by eexists|].
  apply IH. intros d' ?. apply Hds. by right.
Qed.

Lemma find_in_derivatives_Some (rec : pointer → option handle) ds o :
  find_in_derivatives rec ds = Some (Some o) →
  ∃ d, d ∈ ds ∧ rec d = Some (Some o).
Proof.
  induction ds as [|d ds IH]; simpl; [done|].
  destruct (rec d) as [[o'|]|] eqn:Hd; simpl; [| |done].
  - intros [= <-]. exists d. split; [by left|done].
  - intros (d' & Hin & Hd')%IH. exists d'. split; [by right|done].
Qed.

Lemma find_object_total_from h object :
  closed h → linked h → acyclic h →
  ∀ fuel (seen : gset pointer) p,
    seen ⊆ dom h →
    (∀ q, q ∈ seen → tc (direct_base h) p q) →
    is_Some (h !! p) →
    (size (dom h ∖ seen) ≤ fuel)%nat →
    is_Some (find_object fuel h p object).
Proof.
  intros Hclosed [Hmirror _] Hacyc.
  induction fuel as [|fuel IH]; intros seen p Hsub Hseen Hp Hsize.
  - exfalso. assert (p ∈ dom h ∖ seen) as Hin.
    { apply elem_of_difference. split; [by apply elem_of_dom|].
      intros Hin. apply (Hacyc p). auto. }
    assert (size (dom h ∖ seen) = 0%nat) as Hz by lia.
    apply size_empty_inv in Hz. set_solver.
  - destruct Hp as [ci Hp]. simpl. rewrite Hp. simpl.
    destruct (objects_ ci !! object); [by eexists|].
    destruct (Hclosed p ci Hp) as [_ Hders].
    assert (p ∉ seen) as Hnotin.
    { intros Hin. apply (Hacyc p). auto. }
    apply find_in_derivatives_total. intros d Hd.
    destruct (Hders d Hd) as [cd Hcd].
    assert (direct_base h d p) as Hedge.
    { destruct (proj2 (Hmirror d p cd ci Hcd Hp) Hd) as (b & Hb & Hinfo).
      exists b, cd. done. }
    apply (IH (seen ∪ {[p]})).
    + apply elem_of_dom_2 in Hp. set_solver.
    + intros q [Hq| ->%elem_of_singleton]%elem_of_union.
      * eapply tc_l; [exact Hedge|]. auto.
      * by apply tc_once.
    + by eexists.
    + apply elem_of_dom_2 in Hp.
      assert (seen ∪ {[p]} ⊆ dom h) as Hsub' by set_solver.
      rewrite size_difference by done.
      rewrite size_difference in Hsize by done.
      rewrite size_union by set_solver. rewrite size_singleton.
      apply subseteq_size in Hsub'.
      rewrite size_union in Hsub' by set_solver. rewrite size_singleton in Hsub'.
      lia.
Qed.

Lemma chain_snoc h p l q b r :
  chain h p l q → base_link h q b r → chain h p (l ++ [b]) r.
Proof.
  induction 1 as [p|p b' q' l r' Hlink _ IH]; intros Hb; simpl.
  - econstructor; [done|constructor].
  - econstructor; [done|]. by apply IH.
Qed.

Lemma find_object_registered h fuel this object o :
  linked h → closed h →
  find_object fuel h this object = Some (Some o) →
  ∃ q cq l, chain h q l this ∧ h !! q = Some cq ∧ objects_ cq !! object = Some (Some o).
Proof.
  intros [Hmirror _] Hclosed. revert this.
  induction fuel as [|fuel IH]; intros this; simpl; [done|].
  destruct (h !! this) as [ci|] eqn:Hthis; simpl; [|done].
  destruct (objects_ ci !! object) as [hdl|] eqn:Hobj.
  - intros [= ->]. exists this, ci, []. split; [constructor|done].
  - intros (d & Hd & Hrec)%find_in_derivatives_Some.
    apply IH in Hrec as (q & cq & l & Hl & Hq & Hqo).
    destruct (Hclosed this ci Hthis) as [_ Hders].
    destruct (Hders d Hd) as [cd Hcd].
    destruct (proj2 (Hmirror d this cd ci Hcd Hthis) Hd) as (b & Hb & Hinfo).
    exists q, cq, (l ++ [b]). split; [|done].
    eapply chain_snoc; [done|]. by exists cd.
Qed.

Lemma c_b_a_wrapped_populated : populated Examples.c_b_a_wrapped.
Proof.
  eapply (populated_add_object Examples.single_c_b_a true 3 500 (Some 7%nat) (Ok tt));
    [|vm_compute; reflexivity].
  eapply (populated_add_base Examples.single_c_b true 2 1 id (Ok tt));
    [|vm_compute; reflexivity].
  eapply (populated_add_base Examples.three true 3 2 id (Ok tt));
    [|vm_compute; reflexivity].
  exact three_populated.
Defined.

Lemma c_b_a_wrapped_acyclic : acyclic Examples.c_b_a_wrapped.
Proof.
  apply (CastTable.ranked_acyclic N.to_nat).
  apply (bool_decide_unpack _). vm_compute. exact I.
Defined.

(** X7. In a store built by the operations and free of inheritance cycles,
    [find_object] on a live object returns: with any fuel of at least the
    number of live objects it gives one and the same result, no fuel gives
    another, and a handle it returns is registered for that address with an
    object that has a chain of base links to [this] (the empty chain for
    [this] itself). *)
Theorem find_object_terminates h this object :
  populated h → acyclic h → is_Some (h !! this) →
  ∃ r,
    (∀ fuel, (size h ≤ fuel)%nat → find_object fuel h this object = Some r) ∧
    (∀ fuel r', find_object fuel h this object = Some r' → r' = r) ∧
    (∀ o, r = Some o →
       ∃ q cq l, chain h q l this ∧ h !! q = Some cq ∧
                 objects_ cq !! object = Some (Some o)).
Proof.
  intros Hpop Hacyc Hthis.
  pose proof (CastTable.populated_closed h Hpop) as Hclosed.
  pose proof (populated_linked h Hpop) as Hlinked.
  destruct (find_object_total_from h object Hclosed Hlinked Hacyc (size h) ∅ this)
    as [r Hr]; [set_solver|set_solver|done| |].
  { rewrite difference_empty_L, size_dom. done. }
  exists r. split; [|split].
  - intros fuel Hfuel. by apply (Registry.find_object_mono (size h)).
  - intros fuel r' Hr'.
    apply (Registry.find_object_mono _ (fuel `max` size h)) in Hr; [|lia].
    apply (Registry.find_object_mono _ (fuel `max` size h)) in Hr'; [|lia].
    congruence.
  - intros o ->. by eapply find_object_registered.
Qed.

Lemma find_object_terminates_witness :
  populated Examples.c_b_a_wrapped ∧ acyclic Examples.c_b_a_wrapped ∧
  is_Some (Examples.c_b_a_wrapped !! 1) ∧
  ∃ r, (∀ fuel, (size Examples.c_b_a_wrapped ≤ fuel)%nat →
          ClassInfo.find_object fuel Examples.c_b_a_wrapped 1 500 = Some r) ∧
       (∀ fuel r', ClassInfo.find_object fuel Examples.c_b_a_wrapped 1 500 = Some r' → r' = r).
Proof.
  assert (is_Some (Examples.c_b_a_wrapped !! 1)) as H1 by (vm_compute; eexists; reflexivity).
  split; [exact c_b_a_wrapped_populated|]. split; [exact c_b_a_wrapped_acyclic|].
  split; [exact H1|].
  destruct (find_object_terminates Examples.c_b_a_wrapped 1 500
              c_b_a_wrapped_populated c_b_a_wrapped_acyclic H1) as (r & Hr1 & Hr2 & _).
  exists r. split; [exact Hr1|exact Hr2].
Defined.

Lemma chain_snoc_inv h p l q :
  chain h p l q →
  l = [] ∧ p = q ∨ ∃ l' b d, l = l' ++ [b] ∧ chain h p l' d ∧ base_link h d b q.
Proof.
  induction 1 as [p|p b q' l r Hlink Hchain IH]; [by left|]. right.
  destruct IH as [[-> ->]|(l' & b' & d & -> & Hl' & Hb')].
  - exists [], b, p. split; [done|]. split; [constructor|done].
  - exists (b :: l'), b', d. split; [done|]. split; [|done]. by econstructor.
Qed.

Lemma find_in_derivatives_first (rec : pointer → option handle) ds d o :
  d ∈ ds → rec d = Some (Some o) →
  (∀ d', d' ∈ ds → rec d' = Some None ∨ rec d' = Some (Some o)) →
  find_in_derivatives rec ds = Some (Some o).
Proof.
  induction ds as [|d0 ds IH]; intros Hin Hd Hall; [by apply not_elem_of_nil in Hin|].
  simpl. destruct (Hall d0) as [H0|H0]; [by left| |]; rewrite H0; simpl; [|done].
  apply elem_of_cons in Hin as [->|Hin]; [congruence|].
  apply IH; [done..|]. intros d' Hd'. apply Hall. by right.
Qed.

Lemma find_object_total h object p fuel :
  closed h → linked h → acyclic h → is_Some (h !! p) → (size h ≤ fuel)%nat →
  is_Some (ClassInfo.find_object fuel h p object).
Proof.
  intros Hclosed Hlinked Hacyc Hp Hsize.
  apply (find_object_total_from h object Hclosed Hlinked Hacyc fuel ∅);
    [set_solver|set_solver|done|].
  by rewrite difference_empty_L, size_dom.
Qed.

Lemma find_object_complete_chain h object o :
  closed h → linked h → acyclic h →
  (∀ q cq hdl, h !! q = Some cq → objects_ cq !! object = Some hdl → hdl = Some o) →
  ∀ l q cq this fuel,
    chain h q l this → h !! q = Some cq → objects_ cq !! object = Some (Some o) →
    is_Some (h !! this) →
    (size h + length l < fuel)%nat →
    ClassInfo.find_object fuel h this object = Some (Some o).
Proof.
  intros Hclosed Hlinked Hacyc Huniq l.
  induction l as [|b l IH] using rev_ind; intros q cq this fuel Hchain Hq Hobj Hthis Hfuel.
  - inversion Hchain; subst. destruct fuel as [|fuel]; [simpl in Hfuel; lia|].
    simpl. rewrite Hq. simpl. by rewrite Hobj.
  - apply chain_snoc_inv in Hchain as [[Hnil _]|(l' & b' & d & Heq & Hl' & Hlink)].
    { by destruct l. }
    apply app_inj_tail in Heq as [<- <-].
    destruct Hlink as (cd & Hd & Hb & Hinfo).
    rewrite length_app in Hfuel. simpl in Hfuel.
    destruct fuel as [|fuel]; [lia|].
    destruct Hthis as [ci Hthis]. simpl. rewrite Hthis. simpl.
    destruct (objects_ ci !! object) as [hdl|] eqn:Hown.
    { by rewrite (Huniq this ci hdl). }
    assert (d ∈ derivatives_ ci) as Hin.
    { destruct Hlinked as [Hmirror _]. apply (Hmirror d this cd ci); [done..|]. by exists b. }
    apply (find_in_derivatives_first _ _ d).
    + done.
    + apply (IH q cq d); [done..|by eexists|lia].
    + intros d' Hd'. destruct (Hclosed this ci Hthis) as [_ Hders].
      destruct (find_object_total h object d' fuel) as [[o'|] Hr]; [done..|by apply Hders|lia| |].
      * right. rewrite Hr. do 2 f_equal.
        destruct (find_object_registered h fuel d' object o' Hlinked Hclosed Hr)
          as (q' & cq' & _ & _ & Hq' & Hobj').
        specialize (Huniq q' cq' _ Hq' Hobj'). congruence.
      * by left.
Qed.

Lemma chain_end_live h p l q :
  closed h → chain h p l q → is_Some (h !! p) → is_Some (h !! q).
Proof.
  intros Hclosed. induction 1 as [p|p b q' l r (ci & Hp & Hb & Hinfo) _ IH]; [done|].
  intros _. apply IH. destruct (Hclosed p ci Hp) as [Hbl _].
  rewrite <-Hinfo. by apply Hbl.
Qed.

Lemma c_b_a_wrapped_chain :
  chain Examples.c_b_a_wrapped 3 [BaseClassInfo 2 id; BaseClassInfo 1 id] 1.
Proof.
  econstructor.
  { eexists. split; [vm_compute; reflexivity|]. split; [left|reflexivity]. }
  econstructor.
  { eexists. split; [vm_compute; reflexivity|]. split; [left|reflexivity]. }
  constructor.
Defined.

Lemma c_b_a_wrapped_once q cq hdl :
  Examples.c_b_a_wrapped !! q = Some cq → objects_ cq !! 500 = Some hdl →
  hdl = Some 7%nat.
Proof.
  assert (map_Forall (λ _ cq, objects_ cq !! 500 = None ∨ objects_ cq !! 500 = Some (Some 7%nat))
            Examples.c_b_a_wrapped) as Hall.
  { apply (bool_decide_unpack _). vm_compute. exact I. }
  intros Hq Hobj. destruct (Hall q cq Hq) as [Hn|Hs]; congruence.
Defined.

(** X8. In a store built by the operations and free of inheritance cycles,
    when the address is registered with an object that has a chain of base
    links to [this], and every registration of the address carries that
    same handle, [find_object] on [this] returns the handle. *)
Theorem find_object_finds_derived h this object o q cq l :
  populated h → acyclic h →
  chain h q l this → h !! q = Some cq → objects_ cq !! object = Some (Some o) →
  (∀ q' cq' hdl, h !! q' = Some cq' → objects_ cq' !! object = Some hdl → hdl = Some o) →
  ∀ fuel, (size h ≤ fuel)%nat → ClassInfo.find_object fuel h this object = Some (Some o).
Proof.
  intros Hpop Hacyc Hchain Hq Hobj Huniq fuel Hfuel.
  pose proof (CastTable.populated_closed h Hpop) as Hclosed.
  pose proof (populated_linked h Hpop) as Hlinked.
  assert (is_Some (h !! this)) as Hthis by (eapply chain_end_live; eauto).
  destruct (find_object_total h object this fuel Hclosed Hlinked Hacyc Hthis Hfuel) as [r Hr].
  rewrite Hr. f_equal.
  apply (Registry.find_object_mono _ (fuel `max` S (size h + length l))) in Hr; [|lia].
  rewrite (find_object_complete_chain h object o Hclosed Hlinked Hacyc Huniq l q cq this) in Hr;
    [congruence|done..|lia].
Qed.

Lemma find_object_finds_derived_witness :
  populated Examples.c_b_a_wrapped ∧ acyclic Examples.c_b_a_wrapped ∧
  chain Examples.c_b_a_wrapped 3 [BaseClassInfo 2 id; BaseClassInfo 1 id] 1 ∧
  ClassInfo.find_object 3 Examples.c_b_a_wrapped 1 500 = Some (Some 7%nat).
Proof.
  split; [exact c_b_a_wrapped_populated|]. split; [exact c_b_a_wrapped_acyclic|].
  split; [exact c_b_a_wrapped_chain|].
  eapply (find_object_finds_derived Examples.c_b_a_wrapped 1 500 7%nat 3 _ _
            c_b_a_wrapped_populated c_b_a_wrapped_acyclic c_b_a_wrapped_chain).
  - vm_compute. reflexivity.
  - vm_compute. reflexivity.
  - exact c_b_a_wrapped_once.
  - vm_compute. lia.
Defined.

End Store.

(** * Wrapping, unwrapping and destroying through the singletons *)

Module Lifecycle.
Import ClassInfo Hierarchy Invariants Store.
Import V8 ClassSingleton Prototypes Singletons Facade MoreExamples.

(** A call of [instance] for a type that has its index: nothing changes. *)
Lemma instance_of_known iso T w t :
  in_step w iso → my_type w !! T = Some t →
  ∃ l p, isolate_data w !! iso = Some l ∧ l !! N.to_nat t = Some p ∧
         instance iso T w = Some (p, w).
Proof.
  intros [Hlen Hknown] HT. specialize (Hknown T t HT).
  destruct (isolate_data w !! iso) as [l|] eqn:Hdata; simpl in Hlen; [|lia].
  destruct (lookup_lt_is_Some_2 l (N.to_nat t)) as [p Hp]; [lia|].
  exists l, p. split; [done|]. split; [done|].
  by apply (Directory.instance_known iso T w t l).
Qed.

(** A call of [instance] for a type that has no index yet. *)
Lemma instance_of_new iso T w :
  in_step w iso → my_type w !! T = None →
  ∃ p w',
    instance iso T w = Some (p, w') ∧
    p = fresh ({[nullptr]} ∪ dom (infos w)) ∧
    infos w' = <[p := new_class_info (next_index w)]> (infos w) ∧
    func_ w' !! p = Some (FunctionTemplate 2 (Object (fresh (dom (js w))))) ∧
    (∀ q, q ≠ p → func_ w' !! q = func_ w !! q) ∧
    ctor_ w' = delete p (ctor_ w) ∧
    my_type w' = <[T := next_index w]> (my_type w) ∧
    next_index w' = (next_index w + 1) mod UINT_MAX_plus_1 ∧
    isolate_data w' = <[iso := default [] (isolate_data w !! iso) ++ [p]]> (isolate_data w) ∧
    (∀ o obj, js w !! o = Some obj → js w' !! o = Some obj) ∧
    weak w' = weak w.
Proof.
  intros Hstep HT.
  destruct (Directory.singletons_of_isolate w iso Hstep)
    as (l & w1 & Hfirst & Hdata & Hmy & Hnext & Hl).
  unfold instance. rewrite Hfirst. unfold class_type. rewrite Hmy, HT. simpl.
  rewrite Hnext. rewrite decide_False by lia.
  assert (infos w1 = infos w ∧ func_ w1 = func_ w ∧ ctor_ w1 = ctor_ w ∧ js w1 = js w ∧
          weak w1 = weak w ∧ default [] (isolate_data w !! iso) = l ∧
          <[iso := l ++ [fresh ({[nullptr]} ∪ dom (infos w))]]> (isolate_data w1)
            = <[iso := l ++ [fresh ({[nullptr]} ∪ dom (infos w))]]> (isolate_data w))
    as (Hi & Hf & Hc & Hj & Hw & Hdef & Hins).
  { destruct (isolate_data w !! iso) as [l0|] eqn:Hd; simplify_eq/=; [done|].
    repeat split; try done. by rewrite insert_insert_eq. }
  unfold new_class_singleton. simpl.
  eexists _, _. split; [done|]. simpl. rewrite Hi, Hf, Hc, Hj, Hdef.
  split; [done|]. split; [done|].
  split; [by rewrite lookup_insert_eq|].
  split; [intros q Hq; by rewrite lookup_insert_ne|].
  split; [done|]. split; [done|]. split; [done|]. split; [done|].
  split; [|done].
  intros o obj Ho.
  assert (fresh (dom (js w)) ≠ o) as Hne1.
  { intros <-. apply elem_of_dom_2 in Ho. by apply is_fresh in Ho. }
  rewrite (lookup_insert_ne (M:=gmap nat)).
  - by rewrite (lookup_insert_ne (M:=gmap nat)).
  - intros <-.
    assert (js w !! fresh (dom (<[fresh (dom (js w)):=MkObject [] Primitive]> (js w))) = Some obj)
      as Ho' by done.
    apply (is_fresh (dom (<[fresh (dom (js w)):=MkObject [] Primitive]> (js w)))).
    apply elem_of_dom. rewrite (lookup_insert_ne (M:=gmap nat)) by done. by eexists.
Qed.

Lemma singleton_at_type w p ci ci' :
  singleton_at w p ci → singleton_at w p ci' → ci = ci'.
Proof. intros (_ & H1 & _) (_ & H2 & _). congruence. Qed.

Lemma directory_ok_instance iso T w p w' :
  directory_ok w iso → next_index w + 1 < UINT_MAX_plus_1 →
  instance iso T w = Some (p, w') → directory_ok w' iso.
Proof.
  intros (Hstep & Hinj & Hlist) Hmax Hinst.
  pose proof (Directory.instance_in_step iso T w p w' Hstep Hmax Hinst) as Hstep'.
  split; [done|].
  destruct (my_type w !! T) as [t|] eqn:HT.
  { destruct (instance_of_known iso T w t Hstep HT) as (l & q & _ & _ & Hrun).
    rewrite Hrun in Hinst. injection Hinst as <- <-. done. }
  destruct (instance_of_new iso T w Hstep HT)
    as (q & w0 & Hrun & Hq & Hinfos & Hfunc & Hfunc' & _ & Hmy & Hnext & Hdata & _).
  rewrite Hrun in Hinst. injection Hinst as <- <-.
  destruct Hstep as [Hlen Hknown].
  assert ((q ∉ dom (infos w)) ∧ q ≠ nullptr) as [Hfresh Hnull].
  { pose proof (is_fresh ({[nullptr]} ∪ dom (infos w))) as Hf. rewrite <-Hq in Hf.
    set_solver. }
  assert (∀ r ci, singleton_at w r ci → singleton_at w0 r ci) as Hkeep.
  { intros r ci (Hr0 & Hr & tmpl & Htm & Hcount).
    assert (r ≠ q) as Hrq. { intros ->. by apply Hfresh, elem_of_dom. }
    split; [done|]. split.
    - rewrite Hinfos. by rewrite lookup_insert_ne.
    - exists tmpl. by rewrite Hfunc'. }
  split.
  - intros T1 T2 t. rewrite Hmy, !lookup_insert.
    repeat case_decide; intros ? ?; simplify_eq; try done.
    + specialize (Hknown T2 _ ltac:(done)). lia.
    + specialize (Hknown T1 _ ltac:(done)). lia.
    + by eapply Hinj.
  - intros l i r. rewrite Hdata, lookup_insert_eq. intros [= <-].
    destruct (isolate_data w !! iso) as [l0|] eqn:Hd; simpl in *.
    + intros [Hr|[Hi Hr]]%lookup_app_Some.
      * destruct (Hlist l0 i r eq_refl Hr) as (ci & Hs & Hty). exists ci. split; [by apply Hkeep|done].
      * apply list_lookup_singleton_Some in Hr as [Hi0 <-].
        exists (new_class_info (next_index w)). split; [|simpl; lia].
        split; [done|]. split; [by rewrite Hinfos, lookup_insert_eq|by eexists].
    + intros Hr. apply list_lookup_singleton_Some in Hr as [-> <-].
      exists (new_class_info (next_index w)). split; [|simpl; lia].
      split; [done|]. split; [by rewrite Hinfos, lookup_insert_eq|by eexists].
Qed.

Lemma initial_world_ok iso : directory_ok initial_world iso.
Proof.
  split; [apply Directory.initial_world_in_step|]. split.
  - intros T T' t. simpl. by rewrite lookup_empty.
  - intros l i p. simpl. by rewrite lookup_empty.
Qed.

Lemma initial_bound : next_index initial_world + 1 < UINT_MAX_plus_1.
Proof. reflexivity. Defined.

Lemma world_A_instance : instance 1 "A" initial_world = Some (1, Examples.world_A).
Proof. vm_compute. reflexivity. Defined.

Lemma world_A_ok : directory_ok Examples.world_A 1.
Proof.
  exact (directory_ok_instance 1 "A" initial_world 1 Examples.world_A
           (initial_world_ok 1) initial_bound world_A_instance).
Defined.

(** X9. In an isolate whose list is in step, with the counter below its
    wrap-around, a call of [instance] leaves the list in step; the pointer
    returned is a live singleton whose type index is the index of [T]; a
    second call returns the same pointer and changes nothing; a call for
    another type returns another pointer; and the objects that were live
    before are unchanged. *)
Theorem instance_one_singleton_per_type iso T w p w' :
  directory_ok w iso → next_index w + 1 < UINT_MAX_plus_1 →
  instance iso T w = Some (p, w') →
  directory_ok w' iso ∧
  (∃ t ci, my_type w' !! T = Some t ∧ singleton_at w' p ci ∧ type_ ci = t) ∧
  instance iso T w' = Some (p, w') ∧
  (∀ T' p' w'', T' ≠ T → instance iso T' w' = Some (p', w'') → p' ≠ p) ∧
  (∀ q ci, infos w !! q = Some ci → infos w' !! q = Some ci).
Proof.
  intros Hok Hmax Hinst.
  pose proof (directory_ok_instance iso T w p w' Hok Hmax Hinst) as Hok'.
  destruct Hok as (Hstep & Hinj & Hlist).
  pose proof Hok' as (Hstep' & Hinj' & Hlist').
  destruct (Directory.instance_stored iso T w p w' Hstep Hinst) as (t & l & HT' & Hl & Hp).
  destruct (Hlist' l _ p Hl Hp) as (ci & Hs & Hty).
  split; [done|]. split; [|split; [|split]].
  - exists t, ci. split; [done|]. split; [done|]. lia.
  - by apply (Directory.instance_stable iso T w).
  - intros T' p' w'' Hne Hinst' ->.
    destruct (my_type w' !! T') as [t'|] eqn:HT''.
    + destruct (instance_of_known iso T' w' t' Hstep' HT'') as (l' & q & Hl' & Hq & Hrun).
      rewrite Hrun in Hinst'. injection Hinst' as -> <-.
      rewrite Hl in Hl'. injection Hl' as <-.
      destruct (Hlist' l _ p Hl Hq) as (ci' & Hs' & Hty').
      rewrite (singleton_at_type _ _ _ _ Hs' Hs) in Hty'.
      apply Hne, (Hinj' T' T t'); [done|]. rewrite HT'. f_equal. lia.
    + destruct (instance_of_new iso T' w' Hstep' HT'') as (q & w0 & Hrun & Hq & _).
      rewrite Hrun in Hinst'. injection Hinst' as -> <-.
      destruct Hs as (_ & Hp' & _). apply elem_of_dom_2 in Hp'.
      pose proof (is_fresh ({[nullptr]} ∪ dom (infos w'))) as Hf. rewrite <-Hq in Hf.
      set_solver.
  - intros q cq Hq. destruct (my_type w !! T) as [t0|] eqn:HT.
    + destruct (instance_of_known iso T w t0 Hstep HT) as (l0 & q0 & _ & _ & Hrun).
      rewrite Hrun in Hinst. by injection Hinst as <- <-.
    + destruct (instance_of_new iso T w Hstep HT) as (q0 & w0 & Hrun & Hq0 & Hinfos & _).
      rewrite Hrun in Hinst. injection Hinst as <- <-. rewrite Hinfos.
      rewrite lookup_insert_ne; [done|]. intros <-.
      pose proof (is_fresh ({[nullptr]} ∪ dom (infos w))) as Hf. rewrite <-Hq0 in Hf.
      apply elem_of_dom_2 in Hq. set_solver.
Qed.

Lemma instance_one_singleton_per_type_witness :
  directory_ok initial_world 1 ∧ next_index initial_world + 1 < UINT_MAX_plus_1 ∧
  instance 1 "A" initial_world = Some (1, Examples.world_A) ∧
  directory_ok Examples.world_A 1 ∧
  instance 1 "A" Examples.world_A = Some (1, Examples.world_A).
Proof.
  split; [exact (initial_world_ok 1)|]. split; [exact initial_bound|].
  split; [exact world_A_instance|].
  destruct (instance_one_singleton_per_type 1 "A" initial_world 1 Examples.world_A
              (initial_world_ok 1) initial_bound world_A_instance) as (Hok & _ & Hagain & _).
  split; [exact Hok|exact Hagain].
Defined.

(** What [wrap_external_object] does on a live singleton: the new object,
    then [add_object]. *)
Lemma wrap_external_object_run ndebug w this ci wrap :
  singleton_at w this ci →
  ∃ o proto r h' w',
    o = fresh (dom (js w)) ∧ js w !! o = None ∧
    add_object ndebug this wrap (Some o) (infos w) = Some (r, h') ∧
    wrap_external_object ndebug this wrap w = Some (wrapped r o, w') ∧
    infos w' = h' ∧ same_directory w w' ∧ weak w' = weak w ∧
    js w' !! o = Some (MkObject [wrap; this] proto) ∧
    (∀ o', o' ≠ o → js w' !! o' = js w !! o').
Proof.
  intros (Hnull & Hthis & [n proto] & Hfunc & Hcount). simpl in Hcount. subst n.
  set (o := fresh (dom (js w))).
  assert (js w !! o = None) as Hfresh by apply not_elem_of_dom, is_fresh.
  set (jsf := <[o := MkObject [wrap; this] proto]> (<[o := MkObject [wrap; nullptr] proto]>
               (<[o := MkObject [nullptr; nullptr] proto]> (js w)))).
  destruct (add_object ndebug this wrap (Some o) (infos w)) as [[r h']|] eqn:Hadd.
  2:{ unfold add_object in Hadd. rewrite Hthis in Hadd. simpl in Hadd.
      destruct (assert_ _ _ _); [destruct (objects_ ci !! wrap)|..]; done. }
  exists o, proto, r, h', (set_infos (set_js w jsf) h').
  split; [done|]. split; [done|]. split; [done|]. split.
  { unfold wrap_external_object. rewrite Hfunc. simpl.
    unfold SetAlignedPointerInInternalField. fold o.
    rewrite (lookup_insert_eq (M:=gmap nat)). simpl.
    rewrite (lookup_insert_eq (M:=gmap nat)). simpl.
    unfold on_infos. simpl. rewrite Hadd. simpl. by destruct r. }
  split; [done|]. split; [done|]. split; [done|]. split.
  - simpl. unfold jsf. apply (lookup_insert_eq (M:=gmap nat)).
  - intros o' Ho'. simpl. unfold jsf. by rewrite !(lookup_insert_ne (M:=gmap nat)).
Qed.

Lemma same_tables_singleton_at w w' p ci :
  same_directory w w' → same_tables (infos w) (infos w') →
  singleton_at w p ci →
  ∃ ci', singleton_at w' p ci' ∧ type_ ci' = type_ ci ∧ bases_ ci' = bases_ ci.
Proof.
  intros (_ & _ & _ & _ & Hfunc & _) Hsame (Hnull & Hp & tmpl & Htmpl & Hcount).
  specialize (Hsame p). rewrite Hp in Hsame.
  destruct (infos w' !! p) as [ci'|] eqn:Hp'; simplify_eq/=.
  exists ci'. split; [|by split].
  split; [done|]. split; [done|]. exists tmpl. by rewrite Hfunc.
Qed.

Lemma directory_ok_same w w' iso :
  same_directory w w' → same_tables (infos w) (infos w') →
  directory_ok w iso → directory_ok w' iso.
Proof.
  intros Hdir Hsame ((Hlen & Hknown) & Hinj & Hlist).
  pose proof Hdir as (Hn & Hm & Hd & _).
  split; [split|split].
  - by rewrite Hd, Hn.
  - rewrite Hm, Hn. done.
  - by rewrite Hm.
  - intros l i p. rewrite Hd. intros Hl Hp.
    destruct (Hlist l i p Hl Hp) as (ci & Hs & Hty).
    destruct (same_tables_singleton_at w w' p ci Hdir Hsame Hs) as (ci' & Hs' & Hty' & _).
    exists ci'. split; [done|]. congruence.
Qed.

Lemma directory_ok_wrap ndebug w this wrap r w' iso :
  (∃ ci, singleton_at w this ci) →
  wrap_external_object ndebug this wrap w = Some (r, w') →
  directory_ok w iso → directory_ok w' iso.
Proof.
  intros [ci Hs] Hwrap.
  destruct (wrap_external_object_run ndebug w this ci wrap Hs)
    as (o & proto & r0 & h' & w0 & _ & _ & Hadd & Hrun & Hinfos & Hdir & _).
  rewrite Hrun in Hwrap. injection Hwrap as <- <-.
  apply directory_ok_same; [done|]. rewrite Hinfos.
  by eapply add_object_same_tables.
Qed.

Lemma unwrap_object_proxy fuel cast_fuel w t o obj ptr this p :
  js w !! o = Some obj → internal_fields obj = [ptr; this] → this ≠ nullptr →
  cast cast_fuel (infos w) this ptr t = Some (true, p) →
  (unwrap_object (S fuel) cast_fuel w t (Object o)).2 = Some p.
Proof.
  intros Ho Hfields Hnull Hcast. simpl. rewrite Ho.
  unfold InternalFieldCount, GetAlignedPointerFromInternalField. rewrite Hfields. simpl.
  destruct (unwrap_object fuel cast_fuel w t (prototype obj)) as [tr r].
  rewrite decide_False by done. by rewrite Hcast.
Qed.

Lemma world_dog_animal_singleton :
  singleton_at world_dog_animal 1
    (set_bases (new_class_info 0) [BaseClassInfo 2 Dog_to_Animal]).
Proof.
  split; [done|]. split; [vm_compute; reflexivity|].
  eexists. split; [vm_compute; reflexivity|reflexivity].
Defined.

(** X10. On a live singleton, for an address not registered with it: when
    [cast] from the singleton sends the address to [p] for the type asked,
    [wrap_external_object] returns a new object, and [unwrap_object] for
    that type gives [p] on this object. *)
Theorem unwrap_follows_cast ndebug w this ci wrap type cast_fuel p :
  singleton_at w this ci → objects_ ci !! wrap = None →
  cast cast_fuel (infos w) this wrap type = Some (true, p) →
  ∃ o w',
    wrap_external_object ndebug this wrap w = Some (Ok (Some o), w') ∧
    ∀ fuel, (unwrap_object (S fuel) cast_fuel w' type (Object o)).2 = Some p.
Proof.
  intros Hs Hfree Hcast.
  destruct (wrap_external_object_run ndebug w this ci wrap Hs)
    as (o & proto & r & h' & w' & _ & _ & Hadd & Hrun & Hinfos & _ & _ & Ho & _).
  assert (r = Ok tt) as ->.
  { destruct Hs as (_ & Hthis & _). unfold add_object in Hadd.
    rewrite Hthis in Hadd. simpl in Hadd. rewrite Hfree in Hadd.
    destruct ndebug; by simplify_eq/=. }
  exists o, w'. split; [done|]. intros fuel.
  apply (unwrap_object_proxy fuel cast_fuel w' type o _ wrap this p Ho eq_refl).
  - by destruct Hs.
  - rewrite Hinfos, (cast_same_tables (infos w) h'); [done|].
    by eapply add_object_same_tables.
Qed.

Lemma unwrap_follows_cast_witness :
  singleton_at world_dog_animal 1
    (set_bases (new_class_info 0) [BaseClassInfo 2 Dog_to_Animal]) ∧
  cast 1 (infos world_dog_animal) 1 1000 1 = Some (true, 1008) ∧
  ∃ o w',
    wrap_external_object false 1 1000 world_dog_animal = Some (Ok (Some o), w') ∧
    (unwrap_object 1 1 w' 1 (Object o)).2 = Some 1008.
Proof.
  assert (cast 1 (infos world_dog_animal) 1 1000 1 = Some (true, 1008)) as Hcast
    by (vm_compute; reflexivity).
  split; [exact world_dog_animal_singleton|]. split; [exact Hcast|].
  destruct (unwrap_follows_cast false world_dog_animal 1 _ 1000 1 1%nat 1008
              world_dog_animal_singleton eq_refl Hcast) as (o & w' & Hrun & Hunwrap).
  exists o, w'. split; [exact Hrun|exact (Hunwrap 0%nat)].
Defined.

Lemma world_A_wrapped_singleton :
  singleton_at Examples.world_A_wrapped 1
    (set_objects (new_class_info 0) {[1000 := Some 2%nat]}).
Proof.
  split; [done|]. split; [vm_compute; reflexivity|].
  eexists. split; [vm_compute; reflexivity|reflexivity].
Defined.

(** X11. [wrap_external_object] for an address the singleton has
    registered already: under NDEBUG it returns a second object for the
    address, otherwise the assertion of [add_object] fails.  In both cases
    the new object has been made and its two fields set, so that
    [unwrap_object] gives the address on it, while the registry is
    unchanged and [find_object] still gives the first handle. *)
Theorem wrap_registered_address ndebug w this ci wrap old :
  singleton_at w this ci → objects_ ci !! wrap = Some old →
  ∃ o w',
    wrap_external_object ndebug this wrap w
      = Some (if ndebug then Ok (Some o) else Abort "duplicate object", w') ∧
    js w !! o = None ∧
    infos w' = infos w ∧
    (∀ fuel, ClassSingleton.find_object (S fuel) this wrap w' = Some old) ∧
    (∀ fuel cast_fuel,
       (unwrap_object (S fuel) (S cast_fuel) w' (type_ ci) (Object o)).2 = Some wrap).
Proof.
  intros Hs Hold. pose proof Hs as (Hnull & Hthis & _).
  destruct (wrap_external_object_run ndebug w this ci wrap Hs)
    as (o & proto & r & h' & w' & _ & Hfresh & Hadd & Hrun & Hinfos & _ & _ & Ho & _).
  unfold add_object in Hadd. rewrite Hthis in Hadd. simpl in Hadd. rewrite Hold in Hadd.
  assert (r = (if ndebug then Ok tt else Abort "duplicate object") ∧ h' = infos w)
    as [-> ->] by (destruct ndebug; by simplify_eq/=).
  exists o, w'. split; [rewrite Hrun; by destruct ndebug|].
  split; [done|]. split; [done|]. split.
  - intros fuel. unfold ClassSingleton.find_object. simpl. rewrite Hinfos, Hthis. simpl.
    by rewrite Hold.
  - intros fuel cast_fuel.
    apply (unwrap_object_proxy fuel _ w' _ o _ wrap this wrap Ho eq_refl Hnull).
    simpl. rewrite Hinfos, Hthis. simpl. by rewrite decide_True.
Qed.

Lemma wrap_registered_address_witness :
  singleton_at Examples.world_A_wrapped 1
    (set_objects (new_class_info 0) {[1000 := Some 2%nat]}) ∧
  ∃ o w',
    wrap_external_object true 1 1000 Examples.world_A_wrapped = Some (Ok (Some o), w') ∧
    js Examples.world_A_wrapped !! o = None ∧
    ClassSingleton.find_object 1 1 1000 w' = Some (Some 2%nat).
Proof.
  split; [exact world_A_wrapped_singleton|].
  destruct (wrap_registered_address true Examples.world_A_wrapped 1 _ 1000 (Some 2%nat)
              world_A_wrapped_singleton eq_refl) as (o & w' & Hrun & Hfresh & _ & Hfind & _).
  exists o, w'. split; [exact Hrun|]. split; [exact Hfresh|exact (Hfind 0%nat)].
Defined.

(** X12. Two different addresses wrapped one after the other on a live
    singleton: both calls return normally, the two objects differ,
    [find_object] gives each address its own object and [unwrap_object]
    gives each object its own address. *)
Theorem wrap_two_addresses ndebug w this ci a1 a2 :
  singleton_at w this ci → a1 ≠ a2 →
  objects_ ci !! a1 = None → objects_ ci !! a2 = None →
  ∃ o1 w1 o2 w2,
    wrap_external_object ndebug this a1 w = Some (Ok (Some o1), w1) ∧
    wrap_external_object ndebug this a2 w1 = Some (Ok (Some o2), w2) ∧
    o1 ≠ o2 ∧
    (∀ fuel, ClassSingleton.find_object (S fuel) this a1 w2 = Some (Some o1)) ∧
    (∀ fuel, ClassSingleton.find_object (S fuel) this a2 w2 = Some (Some o2)) ∧
    (∀ fuel cast_fuel,
       (unwrap_object (S fuel) (S cast_fuel) w2 (type_ ci) (Object o1)).2 = Some a1) ∧
    (∀ fuel cast_fuel,
       (unwrap_object (S fuel) (S cast_fuel) w2 (type_ ci) (Object o2)).2 = Some a2).
Proof.
  intros Hs Hne H1 H2. pose proof Hs as (Hnull & Hthis & tmpl & Htmpl & Hcount).
  destruct (wrap_external_object_run ndebug w this ci a1 Hs)
    as (o1 & proto1 & r1 & h1 & w1 & _ & Hfresh1 & Hadd1 & Hrun1 & Hinfos1 & Hdir1 & _ & Ho1 & Hjs1).
  unfold add_object in Hadd1. rewrite Hthis in Hadd1. simpl in Hadd1. rewrite H1 in Hadd1.
  assert (r1 = Ok tt ∧ h1 = <[this := set_objects ci (<[a1 := Some o1]> (objects_ ci))]> (infos w))
    as [-> ->] by (destruct ndebug; by simplify_eq/=).
  set (ci1 := set_objects ci (<[a1 := Some o1]> (objects_ ci))) in *.
  assert (singleton_at w1 this ci1) as Hs1.
  { split; [done|]. split; [by rewrite Hinfos1, lookup_insert_eq|].
    exists tmpl. destruct Hdir1 as (_ & _ & _ & _ & -> & _). done. }
  destruct (wrap_external_object_run ndebug w1 this ci1 a2 Hs1)
    as (o2 & proto2 & r2 & h2 & w2 & _ & Hfresh2 & Hadd2 & Hrun2 & Hinfos2 & _ & _ & Ho2 & Hjs2).
  unfold add_object in Hadd2. rewrite Hinfos1, lookup_insert_eq in Hadd2. simpl in Hadd2.
  rewrite lookup_insert_ne, H2 in Hadd2 by done.
  assert (r2 = Ok tt ∧
          h2 = <[this := set_objects ci1 (<[a2 := Some o2]> (objects_ ci1))]>
                 (<[this := ci1]> (infos w)))
    as [-> ->] by (destruct ndebug; by simplify_eq/=).
  assert (o1 ≠ o2) as Hoo. { intros ->. congruence. }
  assert (infos w2 !! this = Some (set_objects ci1 (<[a2 := Some o2]> (objects_ ci1))))
    as Hthis2 by (by rewrite Hinfos2, lookup_insert_eq).
  exists o1, w1, o2, w2. split; [done|]. split; [done|]. split; [done|].
  split; [|split; [|split]].
  - intros fuel. unfold ClassSingleton.find_object. simpl. rewrite Hthis2. simpl.
    rewrite lookup_insert_ne by done. by rewrite lookup_insert_eq.
  - intros fuel. unfold ClassSingleton.find_object. simpl. rewrite Hthis2. simpl.
    by rewrite lookup_insert_eq.
  - intros fuel cast_fuel.
    apply (unwrap_object_proxy fuel _ w2 _ o1 (MkObject [a1; this] proto1) a1 this a1);
      [|done|done|].
    + rewrite Hjs2 by done. exact Ho1.
    + simpl. rewrite Hthis2. simpl. by rewrite decide_True.
  - intros fuel cast_fuel.
    apply (unwrap_object_proxy fuel _ w2 _ o2 _ a2 this a2 Ho2 eq_refl Hnull).
    simpl. rewrite Hthis2. simpl. by rewrite decide_True.
Qed.

Lemma wrap_two_addresses_witness :
  singleton_at Examples.world_A 1 (new_class_info 0) ∧
  ∃ o1 w1 o2 w2,
    wrap_external_object false 1 1000 Examples.world_A = Some (Ok (Some o1), w1) ∧
    wrap_external_object false 1 2000 w1 = Some (Ok (Some o2), w2) ∧
    o1 ≠ o2 ∧
    ClassSingleton.find_object 1 1 1000 w2 = Some (Some o1) ∧
    (unwrap_object 1 1 w2 0 (Object o1)).2 = Some 1000.
Proof.
  split; [exact Proxy.world_A_singleton|].
  destruct (wrap_two_addresses false Examples.world_A 1 (new_class_info 0) 1000 2000
              Proxy.world_A_singleton) as (o1 & w1 & o2 & w2 & H1 & H2 & Hne & Hf1 & _ & Hu1 & _);
    [done|reflexivity|reflexivity|].
  exists o1, w1, o2, w2. split; [exact H1|]. split; [exact H2|]. split; [exact Hne|].
  split; [exact (Hf1 0%nat)|exact (Hu1 0%nat 0%nat)].
Defined.

(** One turn of the loop of [unwrap_object] on an object that gives no
    result: the prototype is next. *)
Lemma unwrap_object_skip fuel cast_fuel w t o obj :
  closed (infos w) → acyclic (infos w) → (size (infos w) ≤ cast_fuel)%nat →
  js w !! o = Some obj → descriptors_live w [o] → ¬ castable w t o →
  (unwrap_object (S fuel) cast_fuel w t (Object o)).2
    = (unwrap_object fuel cast_fuel w t (prototype obj)).2.
Proof.
  intros Hclosed Hacyc Hsize Ho Hlive Hmiss. simpl. rewrite Ho.
  case_decide as Hcount; [|done].
  unfold InternalFieldCount in Hcount.
  destruct (internal_fields obj) as [|ptr [|info [|]]] eqn:Hfields; simplify_eq/=.
  unfold GetAlignedPointerFromInternalField. rewrite Hfields. simpl.
  destruct (unwrap_object fuel cast_fuel w t (prototype obj)) as [tr r]. simpl.
  case_decide as Hinfo; [done|].
  assert (is_Some (infos w !! info)) as Hinfo'.
  { apply (Hlive o obj ptr info); [by left|done..]. }
  destruct (CastTable.cast_total (infos w) info ptr t cast_fuel
              Hclosed Hacyc Hinfo' Hsize) as [[[] p] Hcast]; rewrite Hcast; [|done].
  exfalso. apply Hmiss.
  apply CastTable.cast_true_chain in Hcast as (l' & q & Hl' & Hq & _).
  exists obj, ptr, info. repeat split; [done..|]. by exists l', q.
Qed.

Lemma world_script_chain : prototype_chain world_script (Object 9) ([9] ++ 2 :: [0])%nat.
Proof.
  econstructor; [vm_compute; reflexivity|]. simpl.
  econstructor; [vm_compute; reflexivity|]. simpl.
  econstructor; [vm_compute; reflexivity|]. simpl.
  constructor.
Defined.

Lemma world_script_live : descriptors_live world_script [9%nat].
Proof.
  intros o obj ptr info ->%list_elem_of_singleton Hjs Hfields.
  vm_compute in Hjs. injection Hjs as <-. discriminate Hfields.
Defined.

Lemma world_script_miss o : o ∈ [9%nat] → ¬ castable world_script 0 o.
Proof.
  intros ->%list_elem_of_singleton (obj & ptr & info & Hjs & Hfields & _).
  vm_compute in Hjs. injection Hjs as <-. discriminate Hfields.
Defined.

(** X13. [unwrap_object] walks the prototype chain of the value.  In a
    world whose store is built by the operations and free of inheritance
    cycles: when the descriptors of the objects before [o] on the chain
    are null or live and none of these objects can be cast to the type,
    and the descriptor of [o] casts the address of [o] to [p], the result
    is [p], whatever follows [o] on the chain. *)
Theorem unwrap_first_on_chain fuel cast_fuel w t v l1 o l2 obj ptr info p :
  populated (infos w) → acyclic (infos w) → (size (infos w) ≤ cast_fuel)%nat →
  prototype_chain w v (l1 ++ o :: l2) →
  descriptors_live w l1 → (∀ o', o' ∈ l1 → ¬ castable w t o') →
  js w !! o = Some obj → internal_fields obj = [ptr; info] → info ≠ nullptr →
  cast cast_fuel (infos w) info ptr t = Some (true, p) →
  (length l1 < fuel)%nat →
  (unwrap_object fuel cast_fuel w t v).2 = Some p.
Proof.
  intros Hpop Hacyc Hsize Hchain Hlive Hmiss Ho Hfields Hinfo Hcast.
  pose proof (CastTable.populated_closed _ Hpop) as Hclosed.
  revert v fuel Hchain Hlive Hmiss.
  induction l1 as [|o' l1 IH]; intros v fuel Hchain Hlive Hmiss Hfuel; simpl in *.
  - inversion Hchain; subst. destruct fuel as [|fuel]; [lia|].
    by apply (unwrap_object_proxy fuel cast_fuel w t o obj ptr info p).
  - inversion Hchain as [|? obj' ? Ho' Hrest]; subst.
    destruct fuel as [|fuel]; [lia|].
    rewrite (unwrap_object_skip fuel cast_fuel w t o' obj'); try done.
    + apply IH; [done| | |lia].
      * intros o1 obj1 ptr1 info1 Hin. apply Hlive. by right.
      * intros o1 Hin. apply Hmiss. by right.
    + intros o1 obj1 ptr1 info1 ->%list_elem_of_singleton. apply Hlive. by left.
    + apply Hmiss. by left.
Qed.

Lemma unwrap_first_on_chain_witness :
  prototype_chain world_script (Object 9) ([9] ++ 2 :: [0])%nat ∧
  descriptors_live world_script [9%nat] ∧
  (∀ o, o ∈ [9%nat] → ¬ castable world_script 0 o) ∧
  cast 1 (infos world_script) 1 1000 0 = Some (true, 1000) ∧
  (unwrap_object 2 1 world_script 0 (Object 9)).2 = Some 1000.
Proof.
  assert (cast 1 (infos world_script) 1 1000 0 = Some (true, 1000)) as Hcast
    by (vm_compute; reflexivity).
  split; [exact world_script_chain|]. split; [exact world_script_live|].
  split; [exact world_script_miss|]. split; [exact Hcast|].
  eapply (unwrap_first_on_chain 2 1 world_script 0 (Object 9) [9%nat] 2%nat [0%nat]
            _ 1000 1 1000 Proxy.world_A_wrapped_populated Proxy.world_A_wrapped_acyclic).
  - vm_compute. lia.
  - exact world_script_chain.
  - exact world_script_live.
  - exact world_script_miss.
  - vm_compute. reflexivity.
  - reflexivity.
  - done.
  - exact Hcast.
  - simpl. lia.
Defined.

(** In a world in step, what [instance] returns. *)
Lemma instance_result iso T w p w' :
  directory_ok w iso → next_index w + 1 < UINT_MAX_plus_1 →
  instance iso T w = Some (p, w') →
  directory_ok w' iso ∧
  ∃ t l ci, my_type w' !! T = Some t ∧ isolate_data w' !! iso = Some l ∧
            l !! N.to_nat t = Some p ∧ singleton_at w' p ci ∧ type_ ci = t.
Proof.
  intros Hok Hmax Hinst.
  pose proof (directory_ok_instance iso T w p w' Hok Hmax Hinst) as Hok'.
  split; [done|]. destruct Hok as (Hstep & _). destruct Hok' as (_ & _ & Hlist').
  destruct (Directory.instance_stored iso T w p w' Hstep Hinst) as (t & l & HT' & Hl & Hp).
  destruct (Hlist' l _ p Hl Hp) as (ci & Hs & Hty).
  exists t, l, ci. split; [done|]. split; [done|]. split; [done|]. split; [done|]. lia.
Qed.

(** The static functions on a world where the singleton of [T] is at
    [this], with type index [t]. *)
Lemma class_functions_known iso T w t l this :
  my_type w !! T = Some t → isolate_data w !! iso = Some l →
  l !! N.to_nat t = Some this →
  instance iso T w = Some (this, w) ∧
  (∀ fuel cast_fuel v,
     class_unwrap_object fuel cast_fuel iso T v w
       = Some (unwrap_object fuel cast_fuel w t v, w)) ∧
  (∀ fuel obj,
     class_find_object fuel iso T obj w
       = Some (ClassSingleton.find_object fuel this obj w, w)).
Proof.
  intros HT Hl Hthis.
  pose proof (Directory.instance_known iso T w t l this Hl HT Hthis) as Hinst.
  split; [done|]. split.
  - intros fuel cast_fuel v. unfold class_unwrap_object. rewrite Hinst. simpl.
    unfold class_type. by rewrite HT.
  - intros fuel obj. unfold class_find_object. by rewrite Hinst.
Qed.

Lemma world_A_lookup : infos Examples.world_A !! 1 = Some (new_class_info 0).
Proof. vm_compute. reflexivity. Defined.

(** X14. [class_<T>::reference_external] for an address not registered
    with the singleton of [T] returns a new object and leaves the list of
    the isolate in step; [class_<T>::unwrap_object] then gives the address
    on this object and [class_<T>::find_object] gives the object for the
    address, and neither changes the world. *)
Theorem reference_external_round_trip ndebug iso T w this w1 ci ext :
  directory_ok w iso → next_index w + 1 < UINT_MAX_plus_1 →
  instance iso T w = Some (this, w1) →
  infos w1 !! this = Some ci → objects_ ci !! ext = None →
  ∃ o w2,
    reference_external ndebug iso T ext w = Some (Ok (Some o), w2) ∧
    directory_ok w2 iso ∧
    (∀ fuel cast_fuel, ∃ reads,
       class_unwrap_object (S fuel) (S cast_fuel) iso T (Object o) w2
         = Some ((reads, Some ext), w2)) ∧
    (∀ fuel, class_find_object (S fuel) iso T ext w2 = Some (Some (Some o), w2)).
Proof.
  intros Hok Hmax Hinst Hthis Hfree.
  destruct (instance_result iso T w this w1 Hok Hmax Hinst)
    as (Hok1 & t & l & ci' & HT & Hl & Hlt & Hs & Hty).
  assert (ci' = ci) as -> by (destruct Hs as (_ & ? & _); congruence).
  destruct (wrap_external_object_run ndebug w1 this ci ext Hs)
    as (o & proto & r & h' & w2 & _ & _ & Hadd & Hrun & Hinfos & Hdir & _ & Ho & _).
  unfold add_object in Hadd. rewrite Hthis in Hadd. simpl in Hadd. rewrite Hfree in Hadd.
  assert (r = Ok tt ∧ h' = <[this := set_objects ci (<[ext := Some o]> (objects_ ci))]> (infos w1))
    as [-> ->] by (destruct ndebug; by simplify_eq/=).
  assert (infos w2 !! this = Some (set_objects ci (<[ext := Some o]> (objects_ ci)))) as Hthis2
    by (by rewrite Hinfos, lookup_insert_eq).
  pose proof Hdir as (_ & Hm & Hd & _).
  destruct (class_functions_known iso T w2 t l this) as (_ & Hunwrap & Hfind);
    [by rewrite Hm|by rewrite Hd|done|].
  exists o, w2. split; [|split; [|split]].
  - unfold reference_external. rewrite Hinst. simpl. exact Hrun.
  - apply (directory_ok_same w1 w2); [done| |done].
    rewrite Hinfos. by apply same_tables_set_objects.
  - intros fuel cast_fuel. rewrite Hunwrap.
    assert ((unwrap_object (S fuel) (S cast_fuel) w2 t (Object o)).2 = Some ext) as Hu.
    { apply (unwrap_object_proxy fuel _ w2 t o _ ext this ext Ho eq_refl).
      - by destruct Hs.
      - simpl. rewrite Hthis2. simpl. by rewrite decide_True. }
    destruct (unwrap_object (S fuel) (S cast_fuel) w2 t (Object o)) as [reads res].
    simpl in Hu. subst res. by exists reads.
  - intros fuel. rewrite Hfind. unfold ClassSingleton.find_object. simpl.
    rewrite Hthis2. simpl. by rewrite lookup_insert_eq.
Qed.

Lemma reference_external_round_trip_witness :
  directory_ok initial_world 1 ∧ next_index initial_world + 1 < UINT_MAX_plus_1 ∧
  instance 1 "A" initial_world = Some (1, Examples.world_A) ∧
  infos Examples.world_A !! 1 = Some (new_class_info 0) ∧
  ∃ o w2,
    reference_external false 1 "A" 1000 initial_world = Some (Ok (Some o), w2) ∧
    (∃ reads, class_unwrap_object 1 1 1 "A" (Object o) w2 = Some ((reads, Some 1000), w2)) ∧
    class_find_object 1 1 "A" 1000 w2 = Some (Some (Some o), w2).
Proof.
  split; [exact (initial_world_ok 1)|]. split; [exact initial_bound|].
  split; [exact world_A_instance|]. split; [exact world_A_lookup|].
  destruct (reference_external_round_trip false 1 "A" initial_world 1 Examples.world_A
              (new_class_info 0) 1000 (initial_world_ok 1) initial_bound world_A_instance
              world_A_lookup eq_refl) as (o & w2 & Hrun & _ & Hunwrap & Hfind).
  exists o, w2. split; [exact Hrun|].
  split; [exact (Hunwrap 0%nat 0%nat)|exact (Hfind 0%nat)].
Defined.

Lemma set_infos_same w : set_infos w (infos w) = w.
Proof. by destruct w. Qed.

(** X15. In an isolate whose list is in step, with the counter below its
    wrap-around: [class_<T>::import_external] for an address not registered
    with the singleton of [T] returns a new object with a weak callback for
    the address, and [class_<T>::find_object] gives the object.  When the
    collector then runs the callback, the native object is destroyed, once,
    and the registries are as they were before the import.  A second run
    of the callback for the address destroys nothing: it fails the
    assertion of [remove_object], or does nothing under NDEBUG. *)
Theorem import_then_finalize ndebug iso T w this w1 ci ext :
  directory_ok w iso → next_index w + 1 < UINT_MAX_plus_1 →
  instance iso T w = Some (this, w1) →
  infos w1 !! this = Some ci → objects_ ci !! ext = None →
  ∃ o w2,
    import_external ndebug iso T ext w = Some (Ok (Some o), w2) ∧
    (o, ext) ∈ weak w2 ∧
    (∀ fuel, class_find_object (S fuel) iso T ext w2 = Some (Some (Some o), w2)) ∧
    ∀ (Native : Type) (factory_destroy : pointer → Native → Native) (s : Native),
      ∃ w3,
        weak_callback ndebug factory_destroy T iso ext w2 s
          = Some (Ok tt, w3, factory_destroy ext s) ∧
        infos w3 = infos w1 ∧
        weak_callback ndebug factory_destroy T iso ext w3 (factory_destroy ext s)
          = Some (no_object_outcome ndebug, w3, factory_destroy ext s).
Proof.
  intros Hok Hmax Hinst Hthis Hfree.
  destruct (instance_result iso T w this w1 Hok Hmax Hinst)
    as (Hok1 & t & l & ci' & HT & Hl & Hlt & Hs & Hty).
  assert (ci' = ci) as -> by (destruct Hs as (_ & ? & _); congruence).
  destruct (wrap_external_object_run ndebug w1 this ci ext Hs)
    as (o & proto & r & h' & w2 & _ & _ & Hadd & Hrun & Hinfos & Hdir & _ & Ho & _).
  unfold add_object in Hadd. rewrite Hthis in Hadd. simpl in Hadd. rewrite Hfree in Hadd.
  assert (r = Ok tt ∧ h' = <[this := set_objects ci (<[ext := Some o]> (objects_ ci))]> (infos w1))
    as [-> ->] by (destruct ndebug; by simplify_eq/=).
  pose proof Hdir as (_ & Hm & Hd & _).
  set (w2' := set_weak w2 (weak w2 ++ [(o, ext)])).
  destruct (class_functions_known iso T w2' t l this) as (Hinst2 & _ & Hfind);
    [simpl; by rewrite Hm|simpl; by rewrite Hd|done|].
  exists o, w2'. split; [|split; [|split]].
  - unfold import_external. rewrite Hinst. simpl. unfold wrap_object. by rewrite Hrun.
  - simpl. set_solver.
  - intros fuel. rewrite Hfind. unfold ClassSingleton.find_object. simpl.
    rewrite Hinfos, lookup_insert_eq. simpl. by rewrite lookup_insert_eq.
  - intros Native factory_destroy s.
    exists (set_infos w2' (infos w1)). split; [|split].
    + unfold weak_callback. rewrite Hinst2. simpl. unfold destroy_object. simpl.
      rewrite Hinfos. by rewrite (remove_after_add Native ndebug (infos w1) this ci).
    + done.
    + destruct (class_functions_known iso T (set_infos w2' (infos w1)) t l this)
        as (Hinst3 & _); [simpl; by rewrite Hm|simpl; by rewrite Hd|done|].
      unfold weak_callback. rewrite Hinst3. simpl. unfold destroy_object. simpl.
      by rewrite (remove_absent Native ndebug (infos w1) this ci).
Qed.

Lemma import_then_finalize_witness :
  directory_ok initial_world 1 ∧ next_index initial_world + 1 < UINT_MAX_plus_1 ∧
  instance 1 "A" initial_world = Some (1, Examples.world_A) ∧
  infos Examples.world_A !! 1 = Some (new_class_info 0) ∧
  ∃ o w2 w3,
    import_external false 1 "A" 1000 initial_world = Some (Ok (Some o), w2) ∧
    weak_callback false log_destroy "A" 1 1000 w2 [] = Some (Ok tt, w3, [1000]) ∧
    infos w3 = infos Examples.world_A.
Proof.
  split; [exact (initial_world_ok 1)|]. split; [exact initial_bound|].
  split; [exact world_A_instance|]. split; [exact world_A_lookup|].
  destruct (import_then_finalize false 1 "A" initial_world 1 Examples.world_A
              (new_class_info 0) 1000 (initial_world_ok 1) initial_bound world_A_instance
              world_A_lookup eq_refl) as (o & w2 & Hrun & _ & _ & Hfinal).
  destruct (Hfinal (list pointer) log_destroy []) as (w3 & Hcb & Hinfos & _).
  exists o, w2, w3. split; [exact Hrun|]. split; [exact Hcb|exact Hinfos].
Defined.

(** X16. In an isolate whose list is in step, with the counter below its
    wrap-around: [class_<T>::destroy_object] on an imported object destroys
    the native object, once, and takes the address off the registry.  It
    leaves the proxy as it is: [class_<T>::unwrap_object] on the proxy
    still gives the address of the destroyed object.  The weak callback
    stays set too: when the collector runs it, [remove_object] finds no
    object (a failed assertion, or nothing under NDEBUG) and nothing is
    destroyed a second time. *)
Theorem destroy_leaves_proxy (Native : Type) ndebug iso T w this w1 ci ext
    (factory_destroy : pointer → Native → Native) (s : Native) :
  directory_ok w iso → next_index w + 1 < UINT_MAX_plus_1 →
  instance iso T w = Some (this, w1) →
  infos w1 !! this = Some ci → objects_ ci !! ext = None →
  ∃ o w2 w3,
    import_external ndebug iso T ext w = Some (Ok (Some o), w2) ∧
    class_destroy_object ndebug factory_destroy iso T ext w2 s
      = Some (Ok tt, w3, factory_destroy ext s) ∧
    infos w3 = infos w1 ∧
    (∀ fuel cast_fuel, ∃ reads,
       class_unwrap_object (S fuel) (S cast_fuel) iso T (Object o) w3
         = Some ((reads, Some ext), w3)) ∧
    (o, ext) ∈ weak w3 ∧
    weak_callback ndebug factory_destroy T iso ext w3 (factory_destroy ext s)
      = Some (no_object_outcome ndebug, w3, factory_destroy ext s).
Proof.
  intros Hok Hmax Hinst Hthis Hfree.
  destruct (instance_result iso T w this w1 Hok Hmax Hinst)
    as (Hok1 & t & l & ci' & HT & Hl & Hlt & Hs & Hty).
  assert (ci' = ci) as -> by (destruct Hs as (_ & ? & _); congruence).
  destruct (wrap_external_object_run ndebug w1 this ci ext Hs)
    as (o & proto & r & h' & w2 & _ & _ & Hadd & Hrun & Hinfos & Hdir & _ & Ho & _).
  unfold add_object in Hadd. rewrite Hthis in Hadd. simpl in Hadd. rewrite Hfree in Hadd.
  assert (r = Ok tt ∧ h' = <[this := set_objects ci (<[ext := Some o]> (objects_ ci))]> (infos w1))
    as [-> ->] by (destruct ndebug; by simplify_eq/=).
  pose proof Hdir as (_ & Hm & Hd & _).
  set (w2' := set_weak w2 (weak w2 ++ [(o, ext)])).
  set (w3 := set_infos w2' (infos w1)).
  destruct (class_functions_known iso T w2' t l this) as (Hinst2 & _);
    [simpl; by rewrite Hm|simpl; by rewrite Hd|done|].
  destruct (class_functions_known iso T w3 t l this) as (Hinst3 & Hunwrap & _);
    [simpl; by rewrite Hm|simpl; by rewrite Hd|done|].
  exists o, w2', w3. split; [|split; [|split; [|split; [|split]]]].
  - unfold import_external. rewrite Hinst. simpl. unfold wrap_object. by rewrite Hrun.
  - unfold class_destroy_object. rewrite Hinst2. simpl. unfold destroy_object. simpl.
    rewrite Hinfos. by rewrite (remove_after_add Native ndebug (infos w1) this ci).
  - done.
  - intros fuel cast_fuel. rewrite Hunwrap.
    assert ((unwrap_object (S fuel) (S cast_fuel) w3 t (Object o)).2 = Some ext) as Hu.
    { apply (unwrap_object_proxy fuel _ w3 t o (MkObject [ext; this] proto) ext this ext);
        [exact Ho|done|by destruct Hs|].
      simpl. rewrite Hthis. simpl. rewrite decide_True; [done|]. lia. }
    destruct (unwrap_object (S fuel) (S cast_fuel) w3 t (Object o)) as [reads res].
    simpl in Hu. subst res. by exists reads.
  - simpl. set_solver.
  - unfold weak_callback. rewrite Hinst3. simpl. unfold destroy_object. simpl.
    by rewrite (remove_absent Native ndebug (infos w1) this ci).
Qed.

Lemma destroy_leaves_proxy_witness :
  directory_ok initial_world 1 ∧ next_index initial_world + 1 < UINT_MAX_plus_1 ∧
  instance 1 "A" initial_world = Some (1, Examples.world_A) ∧
  infos Examples.world_A !! 1 = Some (new_class_info 0) ∧
  ∃ o w2 w3,
    import_external true 1 "A" 1000 initial_world = Some (Ok (Some o), w2) ∧
    class_destroy_object true log_destroy 1 "A" 1000 w2 [] = Some (Ok tt, w3, [1000]) ∧
    (∃ reads, class_unwrap_object 1 1 1 "A" (Object o) w3 = Some ((reads, Some 1000), w3)) ∧
    (o, 1000) ∈ weak w3.
Proof.
  split; [exact (initial_world_ok 1)|]. split; [exact initial_bound|].
  split; [exact world_A_instance|]. split; [exact world_A_lookup|].
  destruct (destroy_leaves_proxy (list pointer) true 1 "A" initial_world 1 Examples.world_A
              (new_class_info 0) 1000 log_destroy [] (initial_world_ok 1) initial_bound
              world_A_instance world_A_lookup eq_refl)
    as (o & w2 & w3 & Hrun & Hdestroy & _ & Hunwrap & Hweak & _).
  exists o, w2, w3. split; [exact Hrun|]. split; [exact Hdestroy|].
  split; [exact (Hunwrap 0%nat 0%nat)|exact Hweak].
Defined.

Lemma world_A_wrapped_run :
  wrap_external_object false 1 1000 Examples.world_A = Some (Ok (Some 2%nat), Examples.world_A_wrapped).
Proof. vm_compute. reflexivity. Defined.

Lemma world_A_wrapped_ok : directory_ok Examples.world_A_wrapped 1.
Proof.
  apply (directory_ok_wrap false Examples.world_A 1 1000 (Ok (Some 2%nat)) Examples.world_A_wrapped).
  - exists (new_class_info 0). exact Proxy.world_A_singleton.
  - exact world_A_wrapped_run.
  - exact world_A_ok.
Defined.

(** X17. [class_<T>::destroy_objects] returns; the native destroy function
    has run once for every address registered with the singleton of [T]
    and for no other; the registry of the singleton is empty; the objects
    of the engine and the weak callbacks are kept, and the list of the
    isolate stays in step.  A weak callback of [T] that runs afterwards,
    for any address, finds no object and destroys nothing. *)
Theorem class_destroy_objects_all (Native : Type) iso T w this w1 ci
    (factory_destroy : pointer → Native → Native) (s : Native) :
  directory_ok w iso → next_index w + 1 < UINT_MAX_plus_1 →
  instance iso T w = Some (this, w1) → infos w1 !! this = Some ci →
  ∃ w2 l,
    class_destroy_objects factory_destroy iso T w s
      = Some (w2, foldl (λ acc a, factory_destroy a acc) s l) ∧
    NoDup l ∧ (∀ a, a ∈ l ↔ is_Some (objects_ ci !! a)) ∧
    infos w2 = <[this := set_objects ci ∅]> (infos w1) ∧
    js w2 = js w1 ∧ weak w2 = weak w1 ∧ directory_ok w2 iso ∧
    ∀ ndebug a (s' : Native),
      weak_callback ndebug factory_destroy T iso a w2 s'
        = Some (no_object_outcome ndebug, w2, s').
Proof.
  intros Hok Hmax Hinst Hthis.
  destruct (instance_result iso T w this w1 Hok Hmax Hinst)
    as (Hok1 & t & l & ci' & HT & Hl & Hlt & Hs & Hty).
  set (w2 := set_infos w1 (<[this := set_objects ci ∅]> (infos w1))).
  destruct (class_functions_known iso T w2 t l this) as (Hinst2 & _); [done..|].
  exists w2, (map_to_list (objects_ ci)).*1.
  split; [|split; [|split; [|split; [|split; [|split; [|split]]]]]]; try done.
  - unfold class_destroy_objects. rewrite Hinst. simpl. unfold destroy_objects.
    by rewrite (remove_objects_run Native (infos w1) this ci).
  - apply NoDup_fst_map_to_list.
  - intros a. rewrite list_elem_of_fmap. split.
    + intros ([a' x] & -> & Hin%elem_of_map_to_list). by exists x.
    + intros [x Hx]. exists (a, x). split; [done|]. by apply elem_of_map_to_list.
  - apply (directory_ok_same w1 w2); [done| |done]. by apply same_tables_set_objects.
  - intros ndebug a s'. unfold weak_callback. rewrite Hinst2. simpl.
    unfold destroy_object.
    rewrite (remove_absent Native ndebug (infos w2) this (set_objects ci ∅)).
    + simpl. by rewrite set_infos_same.
    + simpl. by rewrite lookup_insert_eq.
    + done.
Qed.

Lemma class_destroy_objects_all_witness :
  directory_ok Examples.world_A_wrapped 1 ∧
  next_index Examples.world_A_wrapped + 1 < UINT_MAX_plus_1 ∧
  instance 1 "A" Examples.world_A_wrapped = Some (1, Examples.world_A_wrapped) ∧
  infos Examples.world_A_wrapped !! 1
    = Some (set_objects (new_class_info 0) {[1000 := Some 2%nat]}) ∧
  ∃ w2 l,
    class_destroy_objects log_destroy 1 "A" Examples.world_A_wrapped []
      = Some (w2, foldl (λ acc a, log_destroy a acc) [] l) ∧
    NoDup l ∧ (1000 ∈ l) ∧
    weak_callback false log_destroy "A" 1 1000 w2 [1000]
      = Some (Abort "no object", w2, [1000]).
Proof.
  assert (next_index Examples.world_A_wrapped + 1 < UINT_MAX_plus_1) as Hmax by reflexivity.
  assert (instance 1 "A" Examples.world_A_wrapped = Some (1, Examples.world_A_wrapped))
    as Hinst by (vm_compute; reflexivity).
  assert (infos Examples.world_A_wrapped !! 1
          = Some (set_objects (new_class_info 0) {[1000 := Some 2%nat]})) as Hthis
    by (vm_compute; reflexivity).
  split; [exact world_A_wrapped_ok|]. split; [exact Hmax|]. split; [exact Hinst|].
  split; [exact Hthis|].
  destruct (class_destroy_objects_all (list pointer) 1 "A" Examples.world_A_wrapped 1
              Examples.world_A_wrapped _ log_destroy [] world_A_wrapped_ok Hmax Hinst Hthis)
    as (w2 & l & Hrun & Hnodup & Hl & _ & _ & _ & _ & Hweak).
  exists w2, l. split; [exact Hrun|]. split; [exact Hnodup|]. split.
  - apply Hl. exists (Some 2%nat). reflexivity.
  - exact (Hweak false 1000 [1000]).
Defined.

Lemma directory_ok_ctor w iso this c :
  directory_ok w iso → directory_ok (ctor this c w) iso.
Proof. intros Hok. exact Hok. Qed.

Lemma world_A_ctor_instance : instance 1 "A" world_A_ctor = Some (1, world_A_ctor).
Proof. vm_compute. reflexivity. Defined.

(** X18. The callback of the template, in an isolate whose list is in
    step, with the counter below its wrap-around, when a trampoline is set
    on the singleton of [T] in that isolate.  If the trampoline lets a
    [std::exception] escape, the callback hands the message to
    [throw_ex] and returns what that returns.  If the trampoline returns an
    address that is not registered, the callback returns a new object, with
    a weak callback for the address; [find_object] gives this object for
    the address and [unwrap_object] gives the address on it. *)
Theorem construct_from_script throw_ex ndebug iso T args w this w1 ci c :
  directory_ok w iso → next_index w + 1 < UINT_MAX_plus_1 →
  instance iso T w = Some (this, w1) →
  infos w1 !! this = Some ci → ctor_ w1 !! this = Some c →
  (∀ what, c args = Throw what →
     js_func_callback throw_ex ndebug T iso args w
       = Some (Ok (throw_ex iso what w1).1, (throw_ex iso what w1).2)) ∧
  (∀ p, c args = Ok p → objects_ ci !! p = None →
     ∃ o w2,
       js_func_callback throw_ex ndebug T iso args w = Some (Ok (Object o), w2) ∧
       js w1 !! o = None ∧ (o, p) ∈ weak w2 ∧
       (∀ fuel, ClassSingleton.find_object (S fuel) this p w2 = Some (Some o)) ∧
       (∀ fuel cast_fuel,
          (unwrap_object (S fuel) (S cast_fuel) w2 (type_ ci) (Object o)).2 = Some p)).
Proof.
  intros Hok Hmax Hinst Hthis Hctor. split.
  - intros what Hc. unfold js_func_callback. rewrite Hinst. simpl.
    unfold wrap_object_args. rewrite Hctor, Hc. simpl.
    by destruct (throw_ex iso what w1).
  - intros p Hc Hfree.
    destruct (instance_result iso T w this w1 Hok Hmax Hinst)
      as (_ & t & l & ci' & _ & _ & _ & Hs & _).
    assert (ci' = ci) as -> by (destruct Hs as (_ & ? & _); congruence).
    destruct (wrap_external_object_run ndebug w1 this ci p Hs)
      as (o & proto & r & h' & w2 & _ & Hfresh & Hadd & Hrun & Hinfos & _ & _ & Ho & _).
    unfold add_object in Hadd. rewrite Hthis in Hadd. simpl in Hadd. rewrite Hfree in Hadd.
    assert (r = Ok tt ∧ h' = <[this := set_objects ci (<[p := Some o]> (objects_ ci))]> (infos w1))
      as [-> ->] by (destruct ndebug; by simplify_eq/=).
    exists o, (set_weak w2 (weak w2 ++ [(o, p)])). split; [|split; [|split; [|split]]].
    + unfold js_func_callback. rewrite Hinst. simpl.
      unfold wrap_object_args. rewrite Hctor, Hc. unfold wrap_object. rewrite Hrun. done.
    + done.
    + simpl. set_solver.
    + intros fuel. unfold ClassSingleton.find_object. simpl.
      rewrite Hinfos, lookup_insert_eq. simpl. by rewrite lookup_insert_eq.
    + intros fuel cast_fuel.
      apply (unwrap_object_proxy fuel _ _ _ o (MkObject [p; this] proto) p this p);
        [done|done|by destruct Hs|].
      simpl. rewrite Hinfos, lookup_insert_eq. simpl. by rewrite decide_True.
Qed.

Lemma construct_from_script_witness :
  directory_ok world_A_ctor 1 ∧ next_index world_A_ctor + 1 < UINT_MAX_plus_1 ∧
  instance 1 "A" world_A_ctor = Some (1, world_A_ctor) ∧
  infos world_A_ctor !! 1 = Some (new_class_info 0) ∧
  ctor_ world_A_ctor !! 1 = Some ctor_1000 ∧
  ∃ o w2,
    js_func_callback Examples.throw_ex_undefined false "A" 1 [] world_A_ctor
      = Some (Ok (Object o), w2) ∧
    (o, 1000) ∈ weak w2 ∧
    ClassSingleton.find_object 1 1 1000 w2 = Some (Some o).
Proof.
  assert (directory_ok world_A_ctor 1) as Hok by exact (directory_ok_ctor _ 1 1 ctor_1000 world_A_ok).
  assert (next_index world_A_ctor + 1 < UINT_MAX_plus_1) as Hmax by reflexivity.
  assert (infos world_A_ctor !! 1 = Some (new_class_info 0)) as Hinfos
    by (vm_compute; reflexivity).
  assert (ctor_ world_A_ctor !! 1 = Some ctor_1000) as Hctor by (vm_compute; reflexivity).
  split; [exact Hok|]. split; [exact Hmax|]. split; [exact world_A_ctor_instance|].
  split; [exact Hinfos|]. split; [exact Hctor|].
  destruct (construct_from_script Examples.throw_ex_undefined false 1 "A" [] world_A_ctor 1
              world_A_ctor (new_class_info 0) ctor_1000 Hok Hmax world_A_ctor_instance
              Hinfos Hctor) as (_ & Hmake).
  destruct (Hmake 1000 eq_refl eq_refl) as (o & w2 & Hrun & _ & Hweak & Hfind & _).
  exists o, w2. split; [exact Hrun|]. split; [exact Hweak|exact (Hfind 0%nat)].
Defined.

Lemma directory_ok_same_types w w' iso :
  same_directory w w' → same_types (infos w) (infos w') →
  directory_ok w iso → directory_ok w' iso.
Proof.
  intros Hdir Hsame ((Hlen & Hknown) & Hinj & Hlist).
  pose proof Hdir as (Hn & Hm & Hd & _ & Hfunc & _).
  split; [split|split].
  - by rewrite Hd, Hn.
  - rewrite Hm, Hn. done.
  - by rewrite Hm.
  - intros l i p. rewrite Hd. intros Hl Hp.
    destruct (Hlist l i p Hl Hp) as (ci & (Hnull & Hci & tmpl & Htmpl & Hcount) & Hty).
    specialize (Hsame p). rewrite Hci in Hsame.
    destruct (infos w' !! p) as [ci'|] eqn:Hp'; simplify_eq/=.
    exists ci'. split; [|congruence].
    split; [done|]. split; [done|]. exists tmpl. by rewrite Hfunc.
Qed.

(** What [instance] keeps. *)
Lemma instance_keeps iso T w p w' :
  in_step w iso → instance iso T w = Some (p, w') →
  (∀ T0 t0, my_type w !! T0 = Some t0 → my_type w' !! T0 = Some t0) ∧
  (∀ l i q, isolate_data w !! iso = Some l → l !! i = Some q →
     ∃ l', isolate_data w' !! iso = Some l' ∧ l' !! i = Some q) ∧
  (∀ q ci, infos w !! q = Some ci → infos w' !! q = Some ci) ∧
  (populated (infos w) → populated (infos w')).
Proof.
  intros Hstep Hinst. destruct (my_type w !! T) as [t|] eqn:HT.
  { destruct (instance_of_known iso T w t Hstep HT) as (l & q & _ & _ & Hrun).
    rewrite Hrun in Hinst. injection Hinst as <- <-.
    split; [done|]. split; [|done]. intros l0 i q0 Hl0 Hq0. by exists l0. }
  destruct (instance_of_new iso T w Hstep HT)
    as (q & w0 & Hrun & Hq & Hinfos & _ & _ & _ & Hmy & _ & Hdata & _).
  rewrite Hrun in Hinst. injection Hinst as <- <-.
  assert (infos w !! q = None) as Hfresh.
  { apply not_elem_of_dom. pose proof (is_fresh ({[nullptr]} ∪ dom (infos w))) as Hf.
    rewrite <-Hq in Hf. set_solver. }
  split; [|split; [|split]].
  - intros T0 t0 HT0. rewrite Hmy, lookup_insert_ne; [done|]. congruence.
  - intros l i q0 Hl Hq0. rewrite Hdata, lookup_insert_eq, Hl. simpl.
    eexists. split; [done|]. by apply lookup_app_l_Some.
  - intros q0 ci Hq0. rewrite Hinfos, lookup_insert_ne; [done|]. congruence.
  - intros Hpop. rewrite Hinfos. by apply populated_new.
Qed.

Lemma single_isolate_instance iso T w p w' :
  single_isolate w iso → next_index w + 1 < UINT_MAX_plus_1 →
  instance iso T w = Some (p, w') → single_isolate w' iso.
Proof.
  intros (Hok & Hpop & Hall) Hmax Hinst.
  pose proof Hok as (Hstep & _).
  destruct (instance_keeps iso T w p w' Hstep Hinst) as (_ & Hlistk & _ & Hpopk).
  split; [by eapply directory_ok_instance|]. split; [auto|].
  destruct (my_type w !! T) as [t|] eqn:HT.
  { destruct (instance_of_known iso T w t Hstep HT) as (l & q & _ & _ & Hrun).
    rewrite Hrun in Hinst. by injection Hinst as <- <-. }
  destruct (instance_of_new iso T w Hstep HT)
    as (q & w0 & Hrun & Hq & Hinfos & _ & _ & _ & _ & _ & Hdata & _).
  rewrite Hrun in Hinst. injection Hinst as <- <-.
  intros r ci. rewrite Hinfos, lookup_insert. case_decide as Hr.
  - intros [= <-]. subst r. simpl. rewrite Hdata, lookup_insert_eq.
    eexists. split; [done|]. destruct Hstep as [Hlen _].
    rewrite lookup_app_r by lia.
    replace (N.to_nat (next_index w) - length (default [] (isolate_data w !! iso)))%nat
      with 0%nat by lia. done.
  - intros Hci. destruct (Hall r ci Hci) as (l & Hl & Hlr).
    destruct (Hlistk l _ r Hl Hlr) as (l' & Hl' & Hlr'). by exists l'.
Qed.

Lemma initial_world_single iso : single_isolate initial_world iso.
Proof.
  split; [apply initial_world_ok|]. split; [apply populated_empty|].
  intros p ci. simpl. by rewrite lookup_empty.
Qed.

(** What a normal return of [inherit] has done. *)
Lemma inherit_Ok static_cast ndebug iso U this w w2 :
  inherit static_cast ndebug iso U this w = Some (Ok tt, w2) →
  ∃ base w1 h2 objs,
    instance iso U w = Some (base, w1) ∧
    add_base ndebug this base static_cast (infos w1) = Some (Ok tt, h2) ∧
    w2 = set_js (set_infos w1 h2) objs.
Proof.
  unfold inherit. destruct (instance iso U w) as [[base w1]|] eqn:Hinst; simpl; [|done].
  unfold on_infos.
  destruct (add_base ndebug this base static_cast (infos w1)) as [[r h2]|] eqn:Hadd;
    simpl; [|done].
  destruct r as [[]|what|msg]; [|done..].
  destruct (js_function_template this _) as [child|]; simpl; [|done].
  destruct (class_function_template base _) as [parent|]; simpl; [|done].
  destruct (Inherit child parent _) as [objs|]; simpl; [|done].
  intros [= <-]. by exists base, w1, h2, objs.
Qed.

Lemma world_dog_instance : instance 1 "Dog" initial_world = Some (1, world_dog).
Proof. vm_compute. reflexivity. Defined.

Lemma world_dog_single : single_isolate world_dog 1.
Proof.
  exact (single_isolate_instance 1 "Dog" initial_world 1 world_dog
           (initial_world_single 1) initial_bound world_dog_instance).
Defined.

(** X19. In a world whose singletons were all made for one isolate, after
    [inherit<U>] has returned normally on the singleton of [T], for [U]
    another type than [T]: [U] has a type index, different from that of
    [T]; the list of the isolate is in step; [cast] from the singleton of
    [T] to the type of [U] gives the address adjusted by the static cast;
    and an object of [T] wrapped afterwards unwraps as [U] to the adjusted
    address and as [T] to its own address. *)
Theorem inherit_then_unwrap static_cast ndebug iso T U w tT l derived w2 :
  single_isolate w iso → next_index w + 1 < UINT_MAX_plus_1 → T ≠ U →
  my_type w !! T = Some tT → isolate_data w !! iso = Some l →
  l !! N.to_nat tT = Some derived →
  inherit static_cast ndebug iso U derived w = Some (Ok tt, w2) →
  ∃ tU,
    my_type w2 !! U = Some tU ∧ tU ≠ tT ∧ directory_ok w2 iso ∧
    (∀ fuel ptr,
       cast (S fuel) (infos w2) derived ptr tU = Some (true, static_cast ptr)) ∧
    (∀ ext ci2, infos w2 !! derived = Some ci2 → objects_ ci2 !! ext = None →
       ∃ o w3,
         reference_external ndebug iso T ext w2 = Some (Ok (Some o), w3) ∧
         (∀ fuel cast_fuel, ∃ reads,
            class_unwrap_object (S fuel) (S cast_fuel) iso U (Object o) w3
              = Some ((reads, Some (static_cast ext)), w3)) ∧
         (∀ fuel cast_fuel, ∃ reads,
            class_unwrap_object (S fuel) (S cast_fuel) iso T (Object o) w3
              = Some ((reads, Some ext), w3))).
Proof.
  intros Hsingle Hmax HTU HT Hl Hderived Hinherit.
  apply inherit_Ok in Hinherit as (base & w1 & h2 & objs & Hinst & Hadd & ->).
  pose proof Hsingle as (Hok & Hpop & Hall). pose proof Hok as (Hstep & _ & Hlist).
  destruct (single_isolate_instance iso U w base w1 Hsingle Hmax Hinst)
    as (Hok1 & Hpop1 & Hall1).
  destruct (instance_result iso U w base w1 Hok Hmax Hinst)
    as (_ & tU & l1 & cb & HU1 & Hl1 & Hbase & Hsb & Htyb).
  destruct (instance_keeps iso U w base w1 Hstep Hinst) as (Hmyk & Hlistk & Hinfosk & _).
  pose proof (Hmyk T tT HT) as HT1.
  destruct (Hlistk l _ derived Hl Hderived) as (l1' & Hl1' & Hderived1).
  assert (l1' = l1) as -> by congruence.
  destruct (Hlist l _ derived Hl Hderived) as (cd & Hsd & Htyd).
  assert (infos w1 !! derived = Some cd) as Hd1 by (destruct Hsd as (_ & ? & _); auto).
  assert (type_ cd = tT) as Htyd' by lia. clear Htyd.
  assert (infos w1 !! base = Some cb) as Hb1 by (by destruct Hsb as (_ & ? & _)).
  assert (tU ≠ tT) as Hne.
  { intros ->. destruct Hok1 as (_ & Hinj1 & _). by apply HTU, (Hinj1 T U tT). }
  (* the cast along the new link *)
  assert (∀ fuel ptr, cast (S fuel) h2 derived ptr tU = Some (true, static_cast ptr)) as Hcast.
  { intros fuel ptr. rewrite <-Htyb.
    apply (cast_added_base ndebug (infos w1) derived base static_cast cd cb);
      [done..|congruence|].
    apply Forall_forall. intros b Hb (cx & Hx & Htx).
    destruct (Hall1 (info b) cx Hx) as (lx & Hlx & Hix).
    assert (info b = base) as Hib by congruence.
    apply add_base_Ok_lookup in Hadd as ((cd' & Hcd' & Hnew) & _).
    apply Hnew. assert (cd' = cd) as -> by congruence. by exists b. }
  (* the world after inherit *)
  set (w2 := set_js (set_infos w1 h2) objs).
  assert (same_directory w1 w2) as Hdir12 by done.
  assert (directory_ok w2 iso) as Hok2.
  { apply (directory_ok_same_types w1 w2); [done| |done].
    by eapply add_base_same_types. }
  exists tU. split; [done|]. split; [done|]. split; [done|]. split; [done|].
  intros ext ci2 Hci2 Hfree.
  destruct Hok2 as (_ & _ & Hlist2).
  destruct (Hlist2 l1 _ derived Hl1 Hderived1) as (ci2' & Hs2 & Hty2).
  assert (ci2' = ci2) as -> by (destruct Hs2 as (_ & ? & _); congruence).
  destruct (class_functions_known iso T w2 tT l1 derived HT1 Hl1 Hderived1) as (Hinst2 & _).
  destruct (wrap_external_object_run ndebug w2 derived ci2 ext Hs2)
    as (o & proto & r & h3 & w3 & _ & _ & Hadd3 & Hrun & Hinfos3 & Hdir23 & _ & Ho & _).
  pose proof (add_object_same_tables _ _ _ _ _ _ _ Hadd3) as Hsame3.
  unfold add_object in Hadd3. simpl in Hadd3, Hci2. rewrite Hci2 in Hadd3. simpl in Hadd3.
  rewrite Hfree in Hadd3.
  assert (r = Ok tt) as -> by (destruct ndebug; by simplify_eq/=).
  pose proof Hdir23 as (_ & Hm3 & Hd3 & _).
  destruct (class_functions_known iso T w3 tT l1 derived) as (_ & HunwrapT & _);
    [by rewrite Hm3|by rewrite Hd3|done|].
  destruct (class_functions_known iso U w3 tU l1 base) as (_ & HunwrapU & _);
    [by rewrite Hm3|by rewrite Hd3|done|].
  assert (derived ≠ nullptr) as Hnull by (by destruct Hs2).
  exists o, w3. split; [|split].
  - unfold reference_external. rewrite Hinst2. simpl. exact Hrun.
  - intros fuel cast_fuel. rewrite HunwrapU.
    assert ((unwrap_object (S fuel) (S cast_fuel) w3 tU (Object o)).2
            = Some (static_cast ext)) as Hu.
    { apply (unwrap_object_proxy fuel _ w3 tU o _ ext derived _ Ho eq_refl Hnull).
      rewrite Hinfos3, (cast_same_tables (infos w2) h3) by done. apply Hcast. }
    destruct (unwrap_object (S fuel) (S cast_fuel) w3 tU (Object o)) as [reads res].
    simpl in Hu. subst res. by exists reads.
  - intros fuel cast_fuel. rewrite HunwrapT.
    assert ((unwrap_object (S fuel) (S cast_fuel) w3 tT (Object o)).2 = Some ext) as Hu.
    { apply (unwrap_object_proxy fuel _ w3 tT o _ ext derived _ Ho eq_refl Hnull).
      rewrite Hinfos3, (cast_same_tables (infos w2) h3) by done.
      simpl. simpl in Hci2. rewrite Hci2. simpl. rewrite decide_True; [done|].
      destruct (add_base_extends _ _ _ _ _ _ _ derived cd Hadd Hd1) as (cx & Hcx & Htx & _).
      assert (cx = ci2) as -> by congruence. congruence. }
    destruct (unwrap_object (S fuel) (S cast_fuel) w3 tT (Object o)) as [reads res].
    simpl in Hu. subst res. by exists reads.
Qed.

Lemma inherit_then_unwrap_witness :
  single_isolate world_dog 1 ∧ next_index world_dog + 1 < UINT_MAX_plus_1 ∧
  my_type world_dog !! "Dog" = Some 0 ∧ isolate_data world_dog !! 1 = Some [1] ∧
  inherit Dog_to_Animal false 1 "Animal" 1 world_dog = Some (Ok tt, world_dog_animal) ∧
  ∃ tU,
    my_type world_dog_animal !! "Animal" = Some tU ∧
    cast 1 (infos world_dog_animal) 1 1000 tU = Some (true, 1008).
Proof.
  assert (next_index world_dog + 1 < UINT_MAX_plus_1) as Hmax by reflexivity.
  assert (my_type world_dog !! "Dog" = Some 0) as HT by (vm_compute; reflexivity).
  assert (isolate_data world_dog !! 1 = Some [1]) as Hl by (vm_compute; reflexivity).
  assert (inherit Dog_to_Animal false 1 "Animal" 1 world_dog = Some (Ok tt, world_dog_animal))
    as Hinherit by (vm_compute; reflexivity).
  split; [exact world_dog_single|]. split; [exact Hmax|]. split; [exact HT|].
  split; [exact Hl|]. split; [exact Hinherit|].
  destruct (inherit_then_unwrap Dog_to_Animal false 1 "Dog" "Animal" world_dog 0 [1] 1
              world_dog_animal world_dog_single Hmax) as (tU & HU & _ & _ & Hcast & _);
    [discriminate|exact HT|exact Hl|reflexivity|exact Hinherit|].
  exists tU. split; [exact HU|exact (Hcast 0%nat 1000)].
Defined.

Lemma world_dog_ok : directory_ok world_dog 1.
Proof. exact (proj1 world_dog_single). Defined.

(** X20. In an isolate whose list is in step, with the counter below its
    wrap-around: a second [inherit<U>] on the same singleton, after one
    that returned normally, fails as a duplicate, whatever the cast
    function: a [std::runtime_error] under NDEBUG, a failed assertion
    otherwise.  The world is left unchanged. *)
Theorem inherit_twice static_cast static_cast' ndebug iso U derived w w2 :
  directory_ok w iso → next_index w + 1 < UINT_MAX_plus_1 →
  inherit static_cast ndebug iso U derived w = Some (Ok tt, w2) →
  inherit static_cast' ndebug iso U derived w2 = Some (duplicate_base_failure ndebug, w2).
Proof.
  intros Hok Hmax Hinherit.
  apply inherit_Ok in Hinherit as (base & w1 & h2 & objs & Hinst & Hadd & ->).
  destruct (instance_result iso U w base w1 Hok Hmax Hinst)
    as (_ & tU & l1 & cb & HU1 & Hl1 & Hbase & _).
  set (w2 := set_js (set_infos w1 h2) objs).
  destruct (class_functions_known iso U w2 tU l1 base HU1 Hl1 Hbase) as (Hinst2 & _).
  apply add_base_Ok_lookup in Hadd as ((cd & Hcd & _) & _ & Hlook).
  unfold inherit. rewrite Hinst2. simpl. unfold on_infos. simpl.
  rewrite (CastTable.add_base_duplicate ndebug h2 derived base static_cast'
             (add_link derived base static_cast derived cd)).
  - assert (set_infos w2 h2 = w2) as Hsame by done.
    simpl. destruct ndebug; simpl; by rewrite Hsame.
  - by rewrite Hlook, Hcd.
  - exists (BaseClassInfo base static_cast). split; [|done].
    simpl. rewrite decide_True by done. apply elem_of_app. right. by left.
Qed.

Lemma inherit_twice_witness :
  directory_ok world_dog 1 ∧ next_index world_dog + 1 < UINT_MAX_plus_1 ∧
  inherit Dog_to_Animal false 1 "Animal" 1 world_dog = Some (Ok tt, world_dog_animal) ∧
  inherit Dog_to_Animal false 1 "Animal" 1 world_dog_animal
    = Some (Abort "duplicated inheritance", world_dog_animal).
Proof.
  assert (next_index world_dog + 1 < UINT_MAX_plus_1) as Hmax by reflexivity.
  assert (inherit Dog_to_Animal false 1 "Animal" 1 world_dog = Some (Ok tt, world_dog_animal))
    as Hinherit by (vm_compute; reflexivity).
  split; [exact world_dog_ok|]. split; [exact Hmax|]. split; [exact Hinherit|].
  exact (inherit_twice Dog_to_Animal Dog_to_Animal false 1 "Animal" 1 world_dog
           world_dog_animal world_dog_ok Hmax Hinherit).
Defined.

End Lifecycle.
